(** * ABOVE / libwebview: the Edge (WebView2) adapter and its in-page shim

  A shallow embedding of [src/native/src/platform/edge.cpp] and of the
  facade [src/native/include/webview.hpp], and what they guarantee.

  The program:
  - [Json]  : the JSON values exchanged between page and host.
  - [Shim]  : the JavaScript injected by [Edge::run]
              ([Queue], [IndexAllocator], [WebView]).
  - [Edge]  : the native adapter (window procedure, WebView2 event
              handlers, constructor, size setters, [run]) as
              computations over the adapter object, what it reads from
              the system, and the log of the calls it makes.
  - [App]   : the public C++ facade of [webview.hpp].

  Its specification:
  - [ShimSpec], [EdgeSpec]     : the vocabulary of the statements, and
                                 concrete pages, platforms and states.
  - [ShimProofs], [EdgeProofs] : the theorems. *)

From Stdlib Require Import ZArith NArith Lia.
From stdpp Require Import base option list list_numbers gmap strings fin_maps.

Local Open Scope N_scope.

(* ===================================================================== *)
(** ** JSON values *)
(* ===================================================================== *)

Module Json.

(** The value kinds of the two JSON libraries the adapter uses.  Both
    split numbers into unsigned 64-bit integers, negative 64-bit
    integers and binary64 floats (kept as their bit pattern); an object
    keeps its members in document order. *)
#[warnings="-register-all"]
Inductive json :=
| JNull
| JBool (b : bool)
| JUnsigned (n : N)
| JInteger (z : Z)
| JFloat (bits : N)
| JString (s : string)
| JArray (items : list json)
| JObject (members : list (string * json)).

(** Member access [value[key]]: the first member named [key]. *)
Fixpoint member (key : string) (members : list (string * json)) : option json :=
  match members with
  | [] => None
  | (k, v) :: rest => if String.eqb k key then Some v else member key rest
  end.

Definition field (key : string) (doc : json) : option json :=
  match doc with
  | JObject members => member key members
  | _ => None
  end.

Definition UINT64_MAX : N := 18446744073709551615.

End Json.

(* ===================================================================== *)
(** ** The script runtime shim (the [js] literal of [Edge::run]) *)
(* ===================================================================== *)

Module Shim.
Import Json.

(** *** class Queue

    [elements] is a JavaScript object used as a map from the integer
    keys [head .. tail-1] to the queued values; [head] and [tail] are
    JavaScript numbers, exact for every count a page can reach. *)
Record Queue := {
  elements : gmap N N;
  head : N;
  tail : N
}.

(** constructor() *)
Definition Queue_new : Queue :=
  {| elements := ∅; head := 0; tail := 0 |}.

(** enqueue(element): [this.elements[this.tail] = element; this.tail++] *)
Definition enqueue (element : N) (q : Queue) : Queue :=
  {| elements := <[tail q := element]> (elements q);
     head := head q;
     tail := tail q + 1 |}.

(** dequeue(): reads [elements[head]] ([None] is JavaScript's
    [undefined]), deletes the key and advances [head] even when the
    queue holds nothing. *)
Definition dequeue (q : Queue) : option N * Queue :=
  (elements q !! head q,
   {| elements := delete (head q) (elements q);
      head := head q + 1;
      tail := tail q |}).

(** peek() *)
Definition peek (q : Queue) : option N := elements q !! head q.

(** length(): [this.tail - this.head], negative after an over-dequeue. *)
Definition length (q : Queue) : Z := (Z.of_N (tail q) - Z.of_N (head q))%Z.

(** isEmpty(): [this.length == 0] compares the method itself (not its
    result) with 0, which is false for every queue. *)
Definition isEmpty (q : Queue) : bool := false.

(** *** class IndexAllocator *)
Record IndexAllocator := { queue : Queue }.

(** [for (let i = 0; i < count; i++) this.queue.enqueue(i)]; [todo] is
    the number of iterations left. *)
Fixpoint seed (todo : nat) (i : N) (q : Queue) : Queue :=
  match todo with
  | O => q
  | S todo' => seed todo' (i + 1) (enqueue i q)
  end.

(** constructor(count) *)
Definition IndexAllocator_new (count : N) : IndexAllocator :=
  {| queue := seed (N.to_nat count) 0 Queue_new |}.

(** allocate() *)
Definition allocate (a : IndexAllocator) : option N * IndexAllocator :=
  let '(item, q) := dequeue (queue a) in (item, {| queue := q |}).

(** deallocate(element) *)
Definition deallocate (element : N) (a : IndexAllocator) : IndexAllocator :=
  {| queue := enqueue element (queue a) |}.

(** *** class WebView *)

(** A promise of the page's heap, named by its creation rank. *)
Inductive PromiseState :=
| Pending
| Fulfilled (value : json)
| Rejected (reason : json).

(** The object [{resolve: resolve, reject: reject}] stored by [invoke]:
    both closures settle the promise they were created with. *)
Record Resolvers := { resolve : nat; reject : nat }.

(** static MAX_RESULTS = 100000 *)
Definition MAX_RESULTS : N := 100000.

(** [results] is keyed by whatever [allocate] returned: an index, or
    [undefined] ([None]) once the pool is exhausted.  [events] maps an
    event name to a page function (an opaque identifier). *)
Record WebView := {
  results : gmap (option N) Resolvers;
  events : gmap string N;
  allocator : IndexAllocator
}.

(** constructor() *)
Definition WebView_new : WebView :=
  {| results := ∅; events := ∅; allocator := IndexAllocator_new MAX_RESULTS |}.

(** __free_result(index) *)
Definition __free_result (index : N) (w : WebView) : WebView :=
  {| results := results w;
     events := events w;
     allocator := deallocate index (allocator w) |}.

(** event(event, func) *)
Definition event (name : string) (func : N) (w : WebView) : WebView :=
  {| results := results w;
     events := <[name := func]> (events w);
     allocator := allocator w |}.

(** The page as the shim sees it: the global [webview], the promises
    created so far, and the objects handed to [JSON.stringify] and
    posted to the host through [window.chrome.webview.postMessage], in
    order. *)
Record Page := {
  webview : WebView;
  promises : list PromiseState;
  posted : list json
}.

(** [let webview = new WebView();] on a freshly created document. *)
Definition Page_new : Page :=
  {| webview := WebView_new; promises := []; posted := [] |}.

(** The object literal [{index: index, func: name, args: Array.from(args)}];
    [JSON.stringify] drops a member whose value is [undefined]. *)
Definition envelope (index : option N) (name : string) (args : list json) : json :=
  JObject (match index with
           | Some i => [("index"%string, JUnsigned i)]
           | None => []
           end ++ [("func"%string, JString name); ("args"%string, JArray args)]).

(** invoke(name, ...args): returns the allocated index (a local of the
    method, exposed for the proofs), the new promise and the page. *)
Definition invoke (name : string) (args : list json) (p : Page)
  : option N * nat * Page :=
  let w := webview p in
  let '(index, a) := allocate (allocator w) in
  let promise := List.length (promises p) in
  let w' := {| results := <[index := {| resolve := promise; reject := promise |}]> (results w);
               events := events w;
               allocator := a |} in
  (index, promise,
   {| webview := w';
      promises := promises p ++ [Pending];
      posted := posted p ++ [envelope index name args] |}).

End Shim.

(* ===================================================================== *)
(** ** The native adapter ([edge.cpp]) *)
(* ===================================================================== *)

Module Edge.
Import Json.
Local Open Scope Z_scope.

(** *** Platform values *)

Definition HRESULT := Z.
Definition S_OK : HRESULT := 0.
Definition E_INVALIDARG : HRESULT := -2147024809.
Definition FAILED (hr : HRESULT) : bool := hr <? 0.

(** [uint32_t] arithmetic wraps modulo 2^32. *)
Definition u32 (z : Z) : Z := z mod 2 ^ 32.

Definition WS_OVERLAPPED : Z := 0.
Definition WS_MAXIMIZEBOX : Z := 65536.
Definition WS_MINIMIZEBOX : Z := 131072.
Definition WS_THICKFRAME : Z := 262144.
Definition WS_SYSMENU : Z := 524288.

Definition WM_DESTROY : Z := 2.
Definition WM_SIZE : Z := 5.
Definition WM_QUIT : Z := 18.
Definition WM_GETMINMAXINFO : Z := 36.

Definition SW_SHOWNORMAL : Z := 1.

Record Size := { width : Z; height : Z }.
Record POINT := { x : Z; y : Z }.
Record RECT := { left : Z; top : Z; right : Z; bottom : Z }.

Record MINMAXINFO := {
  ptReserved : POINT;
  ptMaxSize : POINT;
  ptMaxPosition : POINT;
  ptMinTrackSize : POINT;
  ptMaxTrackSize : POINT
}.

(** [ICoreWebView2WebMessageReceivedEventArgs]: the one method the
    adapter calls, with the string it hands out. *)
Record WebMessageReceivedEventArgs := {
  TryGetWebMessageAsString : HRESULT * string
}.

(** What [DispatchMessage] delivers when the message is not for the
    adapter's window: nothing the adapter sees, or one of the WebView2
    callbacks, which the engine runs on the thread that pumps messages. *)
Inductive Delivery :=
| NoDelivery
| EnvironmentCompleted (error_code : HRESULT) (created_environment : option N)
| ControllerCompleted (error_code : HRESULT) (created_controller : option N)
| NavigationCompleted
| WebMessageReceived (args : WebMessageReceivedEventArgs).

Record MSG := {
  hwnd : option N;
  message : Z;
  delivery : Delivery
}.

(** A deferred action of the work queue with the pointer that is
    deleted after it ran ([None]: a null pointer). *)
Definition WorkItem : Type := N * option N.

(** [CoreWebView2EnvironmentOptions] *)
Record EnvironmentOptions := { AdditionalBrowserArguments : option string }.

(** The size arguments of [SetWindowPos]: computed in [uint32_t], or,
    in the constructor, in [float] ([value * float(scale) / 100]). *)
Inductive Extent :=
| Pixels (value : Z)
| FloatScaled (value scale : Z).

(** The calls the adapter makes into the system, the engine and the
    host's code, as they are recorded in the log. *)
Inductive Call :=
| CoInitializeEx
| SetProcessDpiAwareness
| RegisterClassEx (lpszClassName : string)
| CreateWindowEx (lpWindowName : string) (dwStyle : Z)
| MonitorFromWindow
| GetScaleFactorForMonitor
| SetWindowPos (cx cy : Extent)
| SetWindowLongPtr_USERDATA
| DwmSetWindowAttribute
| GetAvailableCoreWebView2BrowserVersionString
| CoTaskMemFree
| getenv (name : string)
| put_AdditionalBrowserArguments (value : string)
| CreateCoreWebView2EnvironmentWithOptions (userDataFolder : string) (options : EnvironmentOptions)
| CreateCoreWebView2Controller
| get_CoreWebView2
| add_NavigationCompleted
| add_WebMessageReceived
| get_Settings
| put_AreDevToolsEnabled (enabled : bool)
| put_AreDefaultContextMenusEnabled (enabled : bool)
| DefWindowProc (msg : Z)
| PostQuitMessage (nExitCode : Z)
| GetClientRect
| put_Bounds (bounds : RECT)
| put_IsVisible (visible : bool)
| ShowWindow (nCmdShow : Z)
| UpdateWindow
| SetFocus
| GetWindowLong_STYLE
| SetWindowLong_STYLE (style : Z)
| AddScriptToExecuteOnDocumentCreated
| Navigate (uri : string)
| ExecuteScript (javaScript : string)
| Close
| TranslateMessage (msg : MSG)
| DispatchMessage (msg : MSG)
| InvokeCallback (handler : N) (index : N) (args : string)
| RunWorkItem (action : N)
| DeleteResource (pointer : option N)
| CallIdle (handler : N).

(** *** The adapter object and its surroundings *)

(** The members of [class Edge].  [callbacks] maps a name to the pair
    whose first component is the handler; [idle] is such a pair too, its
    first component an empty function until the host sets one. *)
Record Edge := {
  window : option N;
  scale : Z;
  isInitialized : bool;
  semaphore : nat;
  environment : option N;
  controller : option N;
  webview : option N;
  minSize : Size;
  maxSize : Size;
  callbacks : gmap string (N * N);
  main_queue : list WorkItem;
  idle : option N * N
}.

(** What the adapter reads from the system: the style bits of its
    window, whether the window's user data holds the adapter, the client
    rectangle, the structure a [WM_GETMINMAXINFO] points to, what the
    next polls of the thread's message queue find ([None]: the queue is
    empty at that poll), and the work items that producers on other
    threads append while the next work items run. *)
Record World := {
  style : Z;
  userdata : bool;
  client : RECT;
  minmaxinfo : MINMAXINFO;
  inbox : list (option MSG);
  producers : list (list WorkItem)
}.

Record State := { edge : Edge; world : World; log : list Call }.

(** *** Exceptions and the monad of the adapter's code *)

Inductive exception :=
| program_closed (hr : HRESULT)
| runtime_error (what : string)
| json_parse_error
| json_type_error (id : Z)
| null_dereference.

(** A computation returns, throws, or is still waiting for the system
    when the recorded input ends. *)
Inductive outcome (A : Type) :=
| Returned (a : A)
| Thrown (e : exception)
| Waiting.
Arguments Returned {A} a.
Arguments Thrown {A} e.
Arguments Waiting {A}.

Definition M (A : Type) : Type := State → outcome A * State.

#[export] Instance M_ret : MRet M := λ A a s, (Returned a, s).

#[export] Instance M_bind : MBind M := λ A B f c s,
  match c s with
  | (Returned a, s') => f a s'
  | (Thrown e, s') => (Thrown e, s')
  | (Waiting, s') => (Waiting, s')
  end.

Definition throw {A} (e : exception) : M A := λ s, (Thrown e, s).
Definition wait {A} : M A := λ s, (Waiting, s).
Definition get : M State := λ s, (Returned s, s).
Definition modify_edge (f : Edge → Edge) : M unit :=
  λ s, (Returned tt, {| edge := f (edge s); world := world s; log := log s |}).
Definition modify_world (f : World → World) : M unit :=
  λ s, (Returned tt, {| edge := edge s; world := f (world s); log := log s |}).
Definition record (c : Call) : M unit :=
  λ s, (Returned tt, {| edge := edge s; world := world s; log := log s ++ [c] |}).

Definition set_window (v : option N) (e : Edge) : Edge :=
  {| window := v; scale := scale e; isInitialized := isInitialized e;
     semaphore := semaphore e; environment := environment e;
     controller := controller e; webview := webview e; minSize := minSize e;
     maxSize := maxSize e; callbacks := callbacks e; main_queue := main_queue e;
     idle := idle e |}.
Definition set_scale (v : Z) (e : Edge) : Edge :=
  {| window := window e; scale := v; isInitialized := isInitialized e;
     semaphore := semaphore e; environment := environment e;
     controller := controller e; webview := webview e; minSize := minSize e;
     maxSize := maxSize e; callbacks := callbacks e; main_queue := main_queue e;
     idle := idle e |}.
Definition set_isInitialized (v : bool) (e : Edge) : Edge :=
  {| window := window e; scale := scale e; isInitialized := v;
     semaphore := semaphore e; environment := environment e;
     controller := controller e; webview := webview e; minSize := minSize e;
     maxSize := maxSize e; callbacks := callbacks e; main_queue := main_queue e;
     idle := idle e |}.
Definition set_semaphore (v : nat) (e : Edge) : Edge :=
  {| window := window e; scale := scale e; isInitialized := isInitialized e;
     semaphore := v; environment := environment e;
     controller := controller e; webview := webview e; minSize := minSize e;
     maxSize := maxSize e; callbacks := callbacks e; main_queue := main_queue e;
     idle := idle e |}.
Definition set_environment (v : option N) (e : Edge) : Edge :=
  {| window := window e; scale := scale e; isInitialized := isInitialized e;
     semaphore := semaphore e; environment := v;
     controller := controller e; webview := webview e; minSize := minSize e;
     maxSize := maxSize e; callbacks := callbacks e; main_queue := main_queue e;
     idle := idle e |}.
Definition set_controller (v : option N) (e : Edge) : Edge :=
  {| window := window e; scale := scale e; isInitialized := isInitialized e;
     semaphore := semaphore e; environment := environment e;
     controller := v; webview := webview e; minSize := minSize e;
     maxSize := maxSize e; callbacks := callbacks e; main_queue := main_queue e;
     idle := idle e |}.
Definition set_webview (v : option N) (e : Edge) : Edge :=
  {| window := window e; scale := scale e; isInitialized := isInitialized e;
     semaphore := semaphore e; environment := environment e;
     controller := controller e; webview := v; minSize := minSize e;
     maxSize := maxSize e; callbacks := callbacks e; main_queue := main_queue e;
     idle := idle e |}.
Definition set_minSize (v : Size) (e : Edge) : Edge :=
  {| window := window e; scale := scale e; isInitialized := isInitialized e;
     semaphore := semaphore e; environment := environment e;
     controller := controller e; webview := webview e; minSize := v;
     maxSize := maxSize e; callbacks := callbacks e; main_queue := main_queue e;
     idle := idle e |}.
Definition set_maxSize (v : Size) (e : Edge) : Edge :=
  {| window := window e; scale := scale e; isInitialized := isInitialized e;
     semaphore := semaphore e; environment := environment e;
     controller := controller e; webview := webview e; minSize := minSize e;
     maxSize := v; callbacks := callbacks e; main_queue := main_queue e;
     idle := idle e |}.
Definition set_main_queue (v : list WorkItem) (e : Edge) : Edge :=
  {| window := window e; scale := scale e; isInitialized := isInitialized e;
     semaphore := semaphore e; environment := environment e;
     controller := controller e; webview := webview e; minSize := minSize e;
     maxSize := maxSize e; callbacks := callbacks e; main_queue := v;
     idle := idle e |}.

Definition set_style (v : Z) (w : World) : World :=
  {| style := v; userdata := userdata w; client := client w;
     minmaxinfo := minmaxinfo w; inbox := inbox w; producers := producers w |}.
Definition set_userdata (v : bool) (w : World) : World :=
  {| style := style w; userdata := v; client := client w;
     minmaxinfo := minmaxinfo w; inbox := inbox w; producers := producers w |}.
Definition set_minmaxinfo (v : MINMAXINFO) (w : World) : World :=
  {| style := style w; userdata := userdata w; client := client w;
     minmaxinfo := v; inbox := inbox w; producers := producers w |}.
Definition set_inbox (v : list (option MSG)) (w : World) : World :=
  {| style := style w; userdata := userdata w; client := client w;
     minmaxinfo := minmaxinfo w; inbox := v; producers := producers w |}.
Definition set_producers (v : list (list WorkItem)) (w : World) : World :=
  {| style := style w; userdata := userdata w; client := client w;
     minmaxinfo := minmaxinfo w; inbox := inbox w; producers := v |}.

Definition set_ptMinTrackSize (v : POINT) (m : MINMAXINFO) : MINMAXINFO :=
  {| ptReserved := ptReserved m; ptMaxSize := ptMaxSize m;
     ptMaxPosition := ptMaxPosition m; ptMinTrackSize := v;
     ptMaxTrackSize := ptMaxTrackSize m |}.
Definition set_ptMaxTrackSize (v : POINT) (m : MINMAXINFO) : MINMAXINFO :=
  {| ptReserved := ptReserved m; ptMaxSize := ptMaxSize m;
     ptMaxPosition := ptMaxPosition m; ptMinTrackSize := ptMinTrackSize m;
     ptMaxTrackSize := v |}.

(** *** What the adapter takes from outside the two source files *)

(** simdjson's error codes other than [SUCCESS], and a result that is a
    value or such a code. *)
Inductive error_code :=
| TAPE_ERROR
| INCORRECT_TYPE
| NUMBER_ERROR
| NO_SUCH_FIELD
| OTHER_ERROR (code : Z).

Inductive simdjson_result (A : Type) :=
| value (a : A)
| error (e : error_code).
Arguments value {A} a.
Arguments error {A} e.

(** The system, the engine and the libraries the adapter is linked
    with.  [answer] is the integer a call returns ([HRESULT], [ATOM],
    [LRESULT]) after the calls made so far.  [simdjson_iterate] is the
    document simdjson's on-demand accessors walk, [json_parse] is
    nlohmann's [json::parse] ([None]: it throws), [json_dump] its
    [dump()], [double_to_uint64] the conversion of a binary64 to
    [uint64_t].  [path_append] and [generic_string] are
    [std::filesystem::path]'s [operator/] and [generic_string()].
    [APPDATA_set] tells whether [std::getenv("APPDATA")] finds the
    variable, whose value is then [APPDATA]; it answers a null pointer
    otherwise. *)
Class Platform := {
  answer : list Call → Call → Z;
  created_window : option N;
  monitor_scale : Z;
  runtime_version : option string;
  APPDATA : string;
  APPDATA_set : bool;
  core_webview : option N;
  current_path : string;
  path_append : string → string → string;
  generic_string : string → string;
  simdjson_iterate : string → simdjson_result json;
  json_parse : string → option json;
  json_dump : json → string;
  double_to_uint64 : N → N
}.

Section Adapter.
Context `{platform : Platform}.

(** internal::toWstring and internal::toString convert between UTF-8
    and UTF-16; a string of the model is the text itself, in either
    encoding. *)
Definition toWstring (source : string) : string := source.
Definition toString (source : string) : string := source.

(** A call whose integer result the adapter uses. *)
Definition call (c : Call) : M Z :=
  s ← get; record c;; mret (answer (log s) c).

(** throwIfFailed (edge.cpp, lines 11-17): the exception is a
    [std::runtime_error] whose text renders [hr]. *)
Definition throwIfFailed (hr : HRESULT) : M unit :=
  if FAILED hr then throw (program_closed hr) else mret tt.

(** Modelled from the spec: the macro [THROW_IF_FAILED], defined outside
    the two source files; section 7 has every failed engine or window
    call abort the operation. *)
Definition THROW_IF_FAILED (hr : HRESULT) : M unit :=
  if FAILED hr then throw (program_closed hr) else mret tt.

(** [p->...] on a COM pointer member. *)
Definition deref (p : option N) : M N :=
  match p with
  | Some o => mret o
  | None => throw null_dereference
  end.

(** The conversion of a [uint32_t] to the [LONG] members of a [POINT]. *)
Definition to_LONG (z : Z) : Z := (z + 2 ^ 31) mod 2 ^ 32 - 2 ^ 31.

(** *** Edge::windowProcedure

    Every call the model makes is for the adapter's window;
    [GetWindowLongPtr(hWnd, GWLP_USERDATA)] is the [userdata] flag. *)
Definition windowProcedure (msg : Z) : M Z :=
  s ← get;
  if negb (userdata (world s)) then call (DefWindowProc msg)
  else if msg =? WM_DESTROY then
    record (PostQuitMessage 0);; call (DefWindowProc msg)
  else if msg =? WM_SIZE then
    match controller (edge s) with
    | None => mret 0
    | Some _ =>
        record GetClientRect;;
        record (put_Bounds (client (world s)));;
        call (DefWindowProc msg)
    end
  else if msg =? WM_GETMINMAXINFO then
    let e := edge s in
    modify_world (λ w, set_minmaxinfo
      (set_ptMinTrackSize {| x := to_LONG (width (minSize e));
                             y := to_LONG (height (minSize e)) |}
                          (minmaxinfo w)) w);;
    (if negb ((width (maxSize e) =? 0) && (height (maxSize e) =? 0)) then
       modify_world (λ w, set_minmaxinfo
         (set_ptMaxTrackSize {| x := to_LONG (width (maxSize e));
                                y := to_LONG (height (maxSize e)) |}
                             (minmaxinfo w)) w)
     else mret tt);;
    mret 0
  else call (DefWindowProc msg).

(** *** Edge::webviewNavigationComplete *)
Definition webviewNavigationComplete : M HRESULT :=
  s ← get;
  if negb (isInitialized (edge s)) then
    modify_edge (set_isInitialized true);;
    record (ShowWindow SW_SHOWNORMAL);;
    record UpdateWindow;;
    record SetFocus;;
    deref (controller (edge s));;
    hr ← call (put_IsVisible true); throwIfFailed hr;;
    record GetClientRect;;
    hr ← call (put_Bounds (client (world s))); throwIfFailed hr;;
    mret S_OK
  else mret S_OK.

(** *** The JSON accessors *)

(** simdjson: [document[key]], [get_uint64()], [get_string()]. *)
Definition find_field (key : string) (d : simdjson_result json) : simdjson_result json :=
  match d with
  | error e => error e
  | value (JObject members) =>
      match member key members with
      | Some v => value v
      | None => error NO_SUCH_FIELD
      end
  | value _ => error INCORRECT_TYPE
  end.

Definition get_uint64 (v : simdjson_result json) : simdjson_result N :=
  match v with
  | error e => error e
  | value (JUnsigned n) => if (n <=? UINT64_MAX)%N then value n else error NUMBER_ERROR
  | value _ => error INCORRECT_TYPE
  end.

Definition get_string (v : simdjson_result json) : simdjson_result string :=
  match v with
  | error e => error e
  | value (JString s) => value s
  | value _ => error INCORRECT_TYPE
  end.

(** nlohmann: [json::parse], [operator[]] on a mutable value (a missing
    member reads as null), [get<uint64_t>()], [get<std::string>()].
    [uint64_t] is the library's own type of unsigned numbers, for which
    only the three kinds of numbers convert: a boolean throws as a
    string does. *)
Definition parse (text : string) : M json :=
  match json_parse text with
  | Some j => mret j
  | None => throw json_parse_error
  end.

Definition at_key (key : string) (j : json) : M json :=
  match j with
  | JObject members => mret (default JNull (member key members))
  | JNull => mret JNull
  | _ => throw (json_type_error 305)
  end.

Definition get_uint64_t (j : json) : M N :=
  match j with
  | JUnsigned n => mret (n mod 2 ^ 64)%N
  | JInteger z => mret (Z.to_N (z mod 2 ^ 64))
  | JFloat bits => mret (double_to_uint64 bits)
  | _ => throw (json_type_error 302)
  end.

Definition get_std_string (j : json) : M string :=
  match j with
  | JString s => mret s
  | _ => throw (json_type_error 302)
  end.

(** *** Edge::webviewMessageReceived *)
Definition webviewMessageReceived (args : WebMessageReceivedEventArgs) : M HRESULT :=
  let '(hr, buffer) := TryGetWebMessageAsString args in
  throwIfFailed hr;;
  let jsonData := toString buffer in
  let document := simdjson_iterate jsonData in
  match get_uint64 (find_field "index" document) with
  | error _ => mret S_OK
  | value _ =>
      match get_string (find_field "func" document) with
      | error _ => mret S_OK
      | value _ =>
          message_data ← parse (toString buffer);
          index ← at_key "index" message_data ≫= get_uint64_t;
          func_name ← at_key "func" message_data ≫= get_std_string;
          args_node ← at_key "args" message_data;
          let args_data := json_dump args_node in
          s ← get;
          match callbacks (edge s) !! func_name with
          | Some found => record (InvokeCallback found.1 index args_data)
          | None => mret tt
          end;;
          record CoTaskMemFree;;
          mret S_OK
      end
  end.

(** *** The message pump of the constructor *)

(** The completion handler given to
    [CreateCoreWebView2EnvironmentWithOptions] (lines 205-210). *)
Definition environment_completed (error_code : HRESULT) (created_environment : option N)
  : M HRESULT :=
  modify_edge (set_environment created_environment);;
  deref created_environment;;
  s ← get;
  modify_edge (set_semaphore (S (semaphore (edge s))));;
  mret S_OK.

(** The completion handler given to [CreateCoreWebView2Controller]
    (lines 223-228). *)
Definition controller_completed (error_code : HRESULT) (created_controller : option N)
  : M HRESULT :=
  modify_edge (set_controller created_controller);;
  deref created_controller;;
  s ← get;
  modify_edge (set_semaphore (S (semaphore (edge s))));;
  mret S_OK.

(** [::DispatchMessage(&msg)]: a message for the adapter's window goes
    to [windowProcedure], a message for another window may carry one of
    the engine's callbacks, a thread message goes nowhere. *)
Definition dispatch (msg : MSG) : M unit :=
  record (DispatchMessage msg);;
  s ← get;
  match hwnd msg with
  | None => mret tt
  | Some h =>
      if bool_decide (window (edge s) = Some h) then
        windowProcedure (message msg);; mret tt
      else
        match delivery msg with
        | NoDelivery => mret tt
        | EnvironmentCompleted error_code created => environment_completed error_code created;; mret tt
        | ControllerCompleted error_code created => controller_completed error_code created;; mret tt
        | NavigationCompleted => webviewNavigationComplete;; mret tt
        | WebMessageReceived args => webviewMessageReceived args;; mret tt
        end
  end.

(** [while (!semaphore.try_acquire() && ::GetMessage(&msg, nullptr, 0, 0))]
    over the polls of the message queue: [GetMessage] sleeps through a
    poll that finds nothing and answers 0 to [WM_QUIT]. *)
Fixpoint pump (polls : list (option MSG)) : M unit :=
  s ← get;
  match semaphore (edge s) with
  | S n => modify_edge (set_semaphore n)
  | O =>
      match polls with
      | [] => wait
      | poll :: rest =>
          modify_world (set_inbox rest);;
          match poll with
          | None => pump rest
          | Some msg =>
              if message msg =? WM_QUIT then mret tt
              else record (TranslateMessage msg);; dispatch msg;; pump rest
          end
      end
  end.

(** *** Edge::Edge *)

(** Lines 213-249: wait for the environment, ask for the controller,
    wait for it, take the page, subscribe to its events and apply the
    settings. *)
Definition bootstrap (debug_mode : bool) : M unit :=
  s ← get; pump (inbox (world s));;
  s ← get; deref (environment (edge s));;
  hr ← call CreateCoreWebView2Controller; THROW_IF_FAILED hr;;
  s ← get; pump (inbox (world s));;
  s ← get; deref (controller (edge s));;
  hr ← call get_CoreWebView2;
  modify_edge (set_webview core_webview);;
  THROW_IF_FAILED hr;;
  s ← get; deref (webview (edge s));;
  hr ← call add_NavigationCompleted; THROW_IF_FAILED hr;;
  hr ← call add_WebMessageReceived; THROW_IF_FAILED hr;;
  hr ← call get_Settings; THROW_IF_FAILED hr;;
  hr ← call (put_AreDevToolsEnabled debug_mode); THROW_IF_FAILED hr;;
  hr ← call (put_AreDefaultContextMenusEnabled debug_mode); THROW_IF_FAILED hr.

(** The constructor: lines 145-211, then [bootstrap].  A window that
    is created carries the style it was asked for.  The path [app_data]
    is built from the pointer [std::getenv] answers, which is read
    there: a null pointer ends the constructor as every null pointer
    does in this model. *)
Definition Edge_constructor (app_name title : string) (width height : Z)
    (resizeable debug_mode : bool) : M unit :=
  modify_edge (set_isInitialized false);;
  modify_edge (set_semaphore 0);;
  hr ← call CoInitializeEx; THROW_IF_FAILED hr;;
  hr ← call SetProcessDpiAwareness; THROW_IF_FAILED hr;;
  atom ← call (RegisterClassEx "Above");
  (if atom =? 0 then throw (runtime_error "Failed to register window class") else mret tt);;
  let style := Z.lor (Z.lor (Z.lor WS_OVERLAPPED WS_SYSMENU) WS_MINIMIZEBOX) WS_MAXIMIZEBOX in
  let style := if resizeable : bool then Z.lor style WS_THICKFRAME else style in
  record (CreateWindowEx title style);;
  modify_edge (set_window created_window);;
  match created_window with
  | None => throw (runtime_error "Failed to create window")
  | Some _ => modify_world (set_style style)
  end;;
  record MonitorFromWindow;;
  hr ← call GetScaleFactorForMonitor;
  modify_edge (set_scale monitor_scale);;
  THROW_IF_FAILED hr;;
  s ← get;
  record (SetWindowPos (FloatScaled width (scale (edge s))) (FloatScaled height (scale (edge s))));;
  record SetWindowLongPtr_USERDATA;;
  modify_world (set_userdata true);;
  hr ← call DwmSetWindowAttribute; THROW_IF_FAILED hr;;
  hr ← call GetAvailableCoreWebView2BrowserVersionString; THROW_IF_FAILED hr;;
  match runtime_version with
  | None => throw (runtime_error "WebView2 Runtime is not installed")
  | Some _ => mret tt
  end;;
  record CoTaskMemFree;;
  record (getenv "APPDATA");;
  (if APPDATA_set then mret tt else throw null_dereference);;
  let app_data := APPDATA in
  let options := {| AdditionalBrowserArguments := None |} in
  hr ← call (put_AdditionalBrowserArguments "--disable-web-security");
  let options := if FAILED hr then options
                 else {| AdditionalBrowserArguments := Some "--disable-web-security"%string |} in
  THROW_IF_FAILED hr;;
  hr ← call (CreateCoreWebView2EnvironmentWithOptions (path_append app_data app_name) options);
  THROW_IF_FAILED hr;;
  bootstrap debug_mode.

(** *** Edge::set_max_size, Edge::set_min_size, Edge::set_size

    The header that declares the members is not among the sources:
    [max_window_width] and [max_window_height] written here are the
    [maxSize] the window procedure reads, and likewise for the minimum. *)
Definition GetWindowLong : M Z :=
  record GetWindowLong_STYLE;; s ← get; mret (u32 (style (world s))).

Definition SetWindowLong (v : Z) : M unit :=
  record (SetWindowLong_STYLE v);; modify_world (set_style v).

Definition scaled (e : Edge) (v : Z) : Z := u32 (v * u32 (scale e)) / 100.

Definition set_max_size (width height : Z) : M unit :=
  (if (width =? 0) && (height =? 0) then
     style ← GetWindowLong;
     if Z.land style WS_MAXIMIZEBOX =? 0 then
       SetWindowLong (Z.lor style WS_MAXIMIZEBOX)
     else mret tt
   else
     style ← GetWindowLong;
     if negb (Z.land style WS_MAXIMIZEBOX =? 0) then
       SetWindowLong (Z.land style (u32 (Z.lnot WS_MAXIMIZEBOX)))
     else mret tt);;
  modify_edge (λ e, set_maxSize {| width := scaled e width; height := scaled e height |} e).

Definition set_min_size (width height : Z) : M unit :=
  modify_edge (λ e, set_minSize {| width := scaled e width; height := scaled e height |} e).

Definition set_size (width height : Z) : M unit :=
  s ← get;
  record (SetWindowPos (Pixels (scaled (edge s) width)) (Pixels (scaled (edge s) height))).

(** *** Edge::run *)

(** The address [run] navigates to (lines 385-394). *)
Definition navigation_target (url_path : string) : string :=
  if String.prefix "http://" url_path || String.prefix "https://" url_path then
    toWstring url_path
  else
    toWstring ("file:///" +:+ generic_string (path_append current_path url_path)).

(** [element.first()]: the action runs, and meanwhile producers append
    what the record of arrivals says. *)
Definition run_work_item (action : N) : M unit :=
  record (RunWorkItem action);;
  s ← get;
  match producers (world s) with
  | [] => mret tt
  | arrived :: later =>
      modify_world (set_producers later);;
      modify_edge (set_main_queue (main_queue (edge s) ++ arrived))
  end.

(** [while (!main_queue.empty()) { ... }] (lines 421-426). *)
Fixpoint drain (fuel : nat) : M unit :=
  match fuel with
  | O => wait
  | S fuel' =>
      s ← get;
      match main_queue (edge s) with
      | [] => mret tt
      | element :: rest =>
          modify_edge (set_main_queue rest);;
          run_work_item element.1;;
          record (DeleteResource element.2);;
          drain fuel'
      end
  end.

(** Iterations that suffice for [drain]: one per queued item, one per
    item still to arrive, and the last test of [empty()]. *)
Definition drain_fuel (s : State) : nat :=
  S (length (main_queue (edge s)) + length (concat (producers (world s)))).

(** The [else] branch of the loop body (lines 420-432). *)
Definition when_idle : M unit :=
  s ← get;
  drain (drain_fuel s);;
  s ← get;
  match (idle (edge s)).1 with
  | Some handler => record (CallIdle handler)
  | None => mret tt
  end.

(** [while (running) { if (PeekMessage(..., PM_REMOVE)) ... else ... }]
    over the polls of the message queue. *)
Fixpoint message_loop (polls : list (option MSG)) : M unit :=
  match polls with
  | [] => wait
  | poll :: rest =>
      modify_world (set_inbox rest);;
      match poll with
      | Some msg =>
          if message msg =? WM_QUIT then mret tt
          else
            match hwnd msg with
            | Some _ => record (TranslateMessage msg);; dispatch msg
            | None => mret tt
            end;;
            message_loop rest
      | None => when_idle;; message_loop rest
      end
  end.

(** Lines 396-435: the loop, then the controller is closed. *)
Definition run_loop : M unit :=
  s ← get;
  message_loop (inbox (world s));;
  s ← get;
  deref (controller (edge s));;
  hr ← call Close; THROW_IF_FAILED hr.

Definition run (url_path : string) : M unit :=
  s ← get;
  deref (webview (edge s));;
  hr ← call AddScriptToExecuteOnDocumentCreated; THROW_IF_FAILED hr;;
  hr ← call (Navigate (navigation_target url_path)); THROW_IF_FAILED hr;;
  run_loop.

(** *** Edge::execute_js, Edge::quit *)
Definition execute_js (js : string) : M unit :=
  s ← get;
  deref (webview (edge s));;
  hr ← call (ExecuteScript (toWstring js)); THROW_IF_FAILED hr.

Definition quit : M unit := record (PostQuitMessage 0).

End Adapter.

End Edge.

(* ===================================================================== *)
(** ** The public facade ([webview.hpp]) *)
(* ===================================================================== *)

Module App.
Import Edge.

Section Facade.
Context `{platform : Platform}.

(** Modelled from the spec: the C interface of [webview.h]
    ([webview_run_app], [webview_quit_app], [webview_set_size_app], ...),
    which is not among the sources; section 2 describes the facade as
    translating each call into the adapter's operation of the same name. *)
Definition webview_quit_app : M unit := Edge.quit.
Definition webview_run_app (url : string) : M unit := Edge.run url.
Definition webview_set_size_app (width height : Z) : M unit := Edge.set_size width height.
Definition webview_set_min_size_app (width height : Z) : M unit := Edge.set_min_size width height.
Definition webview_set_max_size_app (width height : Z) : M unit := Edge.set_max_size width height.

(** class App: the member [app] is the adapter the state holds. *)
Definition quit : M unit := webview_quit_app.
Definition run (url : string) : M unit := webview_run_app url.
Definition set_size (width height : Z) : M unit := webview_set_size_app width height.
Definition set_min_size (width height : Z) : M unit := webview_set_min_size_app width height.
Definition set_max_size (width height : Z) : M unit := webview_set_max_size_app width height.

(** bind(name, callback): the body holds a comment only
    ([// webview_bind(app, std::string(name).c_str(), )]). *)
Definition bind (name : string) (callback : N) : M unit := mret tt.

End Facade.

End App.

(* ===================================================================== *)
(** ** Properties of the shim *)
(* ===================================================================== *)

Module ShimSpec.
Import Json Shim.

(** The values a map holds under the [n] keys [k], [k+1], ... *)
Fixpoint collect (n : nat) (k : N) (m : gmap N N) : list N :=
  match n with
  | O => []
  | S n' =>
      match m !! k with
      | Some x => x :: collect n' (k + 1) m
      | None => collect n' (k + 1) m
      end
  end.

(** The free list held by a queue: the values stored under the keys
    [head], [head+1], ..., [tail-1], oldest first. *)
Definition contents (q : Queue) : list N :=
  collect (N.to_nat (tail q - head q)) (head q) (elements q).

Definition free_list (w : WebView) : list N := contents (queue (allocator w)).

(** [is_queue q l]: [q] stores exactly [l] between [head] and [tail]. *)
Definition is_queue (q : Queue) (l : list N) : Prop :=
  tail q = head q + N.of_nat (List.length l) ∧
  ∀ (i : nat) (x : N), l !! i = Some x → elements q !! (head q + N.of_nat i) = Some x.

(** A queue without holes: every key from [head] up to [tail] holds a
    value, so that [tail - head] values are queued. *)
Definition well_formed (q : Queue) : Prop :=
  head q + N.of_nat (List.length (contents q)) = tail q.

(** [upto n i] is [i; i+1; ...; i+n-1]; the index domain [0, count). *)
Fixpoint upto (n : nat) (i : N) : list N :=
  match n with
  | O => []
  | S n' => i :: upto n' (i + 1)
  end.

Definition domain (count : N) : list N := upto (N.to_nat count) 0.

(** What a page does with the shim: a call of [invoke], or the host
    running [webview.__free_result(index)] in the page. *)
Inductive op :=
| Invoke (name : string) (args : list json)
| FreeResult (index : N).

(** A page together with the indices in flight: those handed out by
    [invoke] and not yet given back through [__free_result]. *)
Record Tracked := { page : Page; in_flight : list N }.

Fixpoint remove_first (i : N) (l : list N) : list N :=
  match l with
  | [] => []
  | x :: l' => if N.eqb x i then l' else x :: remove_first i l'
  end.

(** The host executing the script [webview.__free_result(index)]. *)
Definition free_result_script (index : N) (p : Page) : Page :=
  {| webview := __free_result index (webview p);
     promises := promises p;
     posted := posted p |}.

Definition track (t : Tracked) (o : op) : Tracked :=
  match o with
  | Invoke name args =>
      let '(index, _, p) := invoke name args (page t) in
      {| page := p; in_flight := in_flight t ++ option_list index |}
  | FreeResult i =>
      {| page := free_result_script i (page t);
         in_flight := remove_first i (in_flight t) |}
  end.

Definition run (ops : list op) (t : Tracked) : Tracked := foldl track t ops.

(** The pool is exhausted when the free list holds no index. *)
Definition exhausted (t : Tracked) : bool :=
  bool_decide (free_list (webview (page t)) = []).

(** The discipline of the protocol: [invoke] is not called on an
    exhausted pool, and [__free_result] is called only for an index that
    is in flight. *)
Fixpoint disciplined (ops : list op) (t : Tracked) : bool :=
  match ops with
  | [] => true
  | o :: ops' =>
      match o with
      | Invoke _ _ => negb (exhausted t)
      | FreeResult i => bool_decide (i ∈ in_flight t)
      end && disciplined ops' (track t o)
  end.

Definition start : Tracked := {| page := Page_new; in_flight := [] |}.

(** The completion operation as section 4.4 words it: the pending pair
    of [index] is located, settled, removed from the mapping, and the
    index goes back to the free list. *)
Definition completes_as_specified (before after : Page) (index : N) : Prop :=
  ∃ pair,
    results (webview before) !! Some index = Some pair ∧
    (∃ st, promises after !! resolve pair = Some st ∧ st ≠ Pending) ∧
    results (webview after) !! Some index = None ∧
    free_list (webview after) = free_list (webview before) ++ [index].

(** The invariant of the allocator: the free list and the indices in
    flight share out the domain. *)
Definition partitions (count : N) (t : Tracked) : Prop :=
  ∃ l, is_queue (queue (allocator (webview (page t)))) l ∧
       l ++ in_flight t ≡ₚ domain count.

(** *** The queue against a list with a debt *)

(** The operations of a queue in sequence. *)
Inductive queue_op :=
| Enqueue (element : N)
| Dequeue.

(** Running them, with what each [dequeue] returned. *)
Fixpoint queue_run (ops : list queue_op) (q : Queue) : list (option N) * Queue :=
  match ops with
  | [] => ([], q)
  | Enqueue x :: ops' => queue_run ops' (enqueue x q)
  | Dequeue :: ops' =>
      let '(item, q') := dequeue q in
      let '(items, q'') := queue_run ops' q' in
      (item :: items, q'')
  end.

(** What the queue amounts to: the values waiting, oldest first, and the
    number of dequeues made while nothing was waiting. *)
Record Fifo := { waiting : list N; owed : nat }.

Definition fifo_enqueue (x : N) (f : Fifo) : Fifo :=
  match owed f with
  | O => {| waiting := waiting f ++ [x]; owed := O |}
  | S d => {| waiting := waiting f; owed := d |}
  end.

Definition fifo_dequeue (f : Fifo) : option N * Fifo :=
  match waiting f with
  | x :: l => (Some x, {| waiting := l; owed := owed f |})
  | [] => (None, {| waiting := []; owed := S (owed f) |})
  end.

Fixpoint fifo_run (ops : list queue_op) (f : Fifo) : list (option N) * Fifo :=
  match ops with
  | [] => ([], f)
  | Enqueue x :: ops' => fifo_run ops' (fifo_enqueue x f)
  | Dequeue :: ops' =>
      let '(item, f') := fifo_dequeue f in
      let '(items, f'') := fifo_run ops' f' in
      (item :: items, f'')
  end.

(** [q] stands for [f]: the waiting values sit under the keys from
    [head] on, [head] is ahead of [tail] by the debt, and no key from
    [tail] on is in use. *)
Definition stands_for (q : Queue) (f : Fifo) : Prop :=
  head q + N.of_nat (List.length (waiting f)) = tail q + N.of_nat (owed f) ∧
  (owed f = O ∨ waiting f = []) ∧
  (∀ (i : nat) (x : N), waiting f !! i = Some x →
     elements q !! (head q + N.of_nat i) = Some x) ∧
  (∀ k, tail q ≤ k → elements q !! k = None).

(** [n] calls of [allocate] in a row. *)
Fixpoint allocate_all (n : nat) (a : IndexAllocator) : list (option N) * IndexAllocator :=
  match n with
  | O => ([], a)
  | S n' =>
      let '(item, a') := allocate a in
      let '(items, a'') := allocate_all n' a' in
      (item :: items, a'')
  end.

(** *** The calls in flight with their promises *)

(** A page together with the calls in flight: the index [invoke] handed
    out and the promise it returned. *)
Record InFlight := { flight_page : Page; calls : list (N * nat) }.

Fixpoint remove_call (i : N) (l : list (N * nat)) : list (N * nat) :=
  match l with
  | [] => []
  | c :: l' => if N.eqb c.1 i then l' else c :: remove_call i l'
  end.

Definition follow (t : InFlight) (o : op) : InFlight :=
  match o with
  | Invoke name args =>
      let '(index, promise, p) := invoke name args (flight_page t) in
      {| flight_page := p;
         calls := calls t ++ match index with
                             | Some i => [(i, promise)]
                             | None => []
                             end |}
  | FreeResult i =>
      {| flight_page := free_result_script i (flight_page t);
         calls := remove_call i (calls t) |}
  end.

Definition follow_all (ops : list op) (t : InFlight) : InFlight := foldl follow t ops.

Definition start_flight : InFlight := {| flight_page := Page_new; calls := [] |}.

(** The view of [InFlight] that forgets the promises. *)
Definition forget (t : InFlight) : Tracked :=
  {| page := flight_page t; in_flight := (calls t).*1 |}.

(** The number of [invoke] calls in a sequence. *)
Definition invocations_of (ops : list op) : nat :=
  List.length (List.filter (λ o, match o with Invoke _ _ => true | FreeResult _ => false end) ops).

(** The pair stored for every call in flight is the pair of its own
    promise, and that promise exists and is pending. *)
Definition pairs_kept (t : InFlight) : Prop :=
  (∀ i promise, (i, promise) ∈ calls t →
     results (webview (flight_page t)) !! Some i = Some {| resolve := promise; reject := promise |} ∧
     (promise < List.length (promises (flight_page t)))%nat) ∧
  Forall (λ st, st = Pending) (promises (flight_page t)).

(** *** Events *)

(** The page executing [webview.event(name, func)]. *)
Definition event_script (name : string) (func : N) (p : Page) : Page :=
  {| webview := event name func (webview p);
     promises := promises p;
     posted := posted p |}.

Definition with_event (name : string) (func : N) (t : Tracked) : Tracked :=
  {| page := event_script name func (page t); in_flight := in_flight t |}.

(** *** Pages for the completion operation *)

(** A page with one call in flight. *)
Definition one_call : Page := (invoke "f" [] Page_new).2.

(** A page whose allocator was asked once more after it had handed out
    every index (the table of results and the promises left aside). *)
Definition overdrawn : Page :=
  {| webview :=
       {| results := ∅;
          events := ∅;
          allocator :=
            (allocate (allocate_all (N.to_nat MAX_RESULTS)
                         (IndexAllocator_new MAX_RESULTS)).2).2 |};
     promises := [];
     posted := [] |}.

End ShimSpec.

(* ===================================================================== *)
(** ** Specification vocabulary for the adapter *)
(* ===================================================================== *)

Module EdgeSpec.
Import Json Edge.
Local Open Scope Z_scope.

Section Vocabulary.
Context `{platform : Platform}.

(** The engine delivering [n] navigation-completed events in a row. *)
Fixpoint navigation_events (n : nat) : M unit :=
  match n with
  | O => mret tt
  | S n' => webviewNavigationComplete;; navigation_events n'
  end.

(** What the first event does to the window when the engine accepts
    both calls. *)
Definition first_show (s : State) : list Call :=
  [ShowWindow SW_SHOWNORMAL; UpdateWindow; SetFocus; put_IsVisible true;
   GetClientRect; put_Bounds (client (world s))].

(** The size-constraints query: the system sending [WM_GETMINMAXINFO]
    to the adapter's window. *)
Definition size_constraints_query : M Z := windowProcedure WM_GETMINMAXINFO.

(** The query wrote the stored maximum into the structure. *)
Definition max_track_written (s : State) : Prop :=
  ptMaxTrackSize (minmaxinfo (world s)) =
  {| x := to_LONG (width (maxSize (edge s))); y := to_LONG (height (maxSize (edge s))) |}.

(** The query wrote the stored minimum into the structure. *)
Definition min_track_written (s : State) : Prop :=
  ptMinTrackSize (minmaxinfo (world s)) =
  {| x := to_LONG (width (minSize (edge s))); y := to_LONG (height (minSize (edge s))) |}.

(** The window has a maximize box. *)
Definition has_maximize_box (s : State) : Prop :=
  Z.land (style (world s)) WS_MAXIMIZEBOX ≠ 0.

(** The maximum-size sentence of section 8 for one pair: after
    [set_max_size width height] the maximize box is off and the query
    writes the stored maximum. *)
Definition max_size_clamps (width height : Z) (s : State) : Prop :=
  let s1 := (set_max_size width height s).2 in
  let s2 := (size_constraints_query s1).2 in
  ¬ has_maximize_box s1 ∧ max_track_written s2.

(** [text] reads as an object with an unsigned [index] and a string
    [func] under both JSON libraries of the adapter; [args] is its
    [args] member, null when there is none. *)
Definition well_formed_message (text : string) (index : N) (func : string) (args : json) : Prop :=
  get_uint64 (find_field "index" (simdjson_iterate text)) = value index ∧
  get_string (find_field "func" (simdjson_iterate text)) = value func ∧
  ∃ doc, json_parse text = Some doc ∧
         field "index" doc = Some (JUnsigned index) ∧
         field "func" doc = Some (JString func) ∧
         default JNull (field "args" doc) = args.

(** The adapter's reader finds no unsigned [index] or no string [func]
    in [text]: the text is not JSON, not an object, or the member is
    missing or of another type. *)
Definition malformed_message (text : string) : Prop :=
  (∃ e, get_uint64 (find_field "index" (simdjson_iterate text)) = error e) ∨
  (∃ e, get_string (find_field "func" (simdjson_iterate text)) = error e).

(** The calls of host callbacks in a log. *)
Definition is_invocation (c : Call) : bool :=
  match c with InvokeCallback _ _ _ => true | _ => false end.

Definition invocations (l : list Call) : list Call := List.filter is_invocation l.

(** The handler tolerates a message: it returns [S_OK], raises nothing
    and invokes no callback. *)
Definition tolerated (args : WebMessageReceivedEventArgs) (s : State) : Prop :=
  ∃ s', webviewMessageReceived args s = (Returned S_OK, s') ∧
        invocations (log s') = invocations (log s).

(** Every call a computation adds to the log satisfies [P]; the log
    itself is only ever extended. *)
Definition logs {A} (P : Call → Prop) (c : M A) : Prop :=
  ∀ s, ∃ added, log (c s).2 = log s ++ added ∧ Forall P added.

(** No condition on the calls. *)
Definition any_call (c : Call) : Prop := True.

(** The calls that serve the work queue and the idle callback. *)
Definition serves_queue (c : Call) : bool :=
  match c with
  | RunWorkItem _ | DeleteResource _ | CallIdle _ => true
  | _ => false
  end.

(** Every other call, the creation of the environment apart. *)
Definition ordinary (c : Call) : bool :=
  match c with
  | RunWorkItem _ | DeleteResource _ | CallIdle _
  | CreateCoreWebView2EnvironmentWithOptions _ _ => false
  | _ => true
  end.

(** What draining logs for the items it serves: each action runs, then
    its pointer is deleted. *)
Definition served (items : list WorkItem) : list Call :=
  flat_map (λ item : WorkItem, [RunWorkItem item.1; DeleteResource item.2]) items.

(** The call of the idle callback, when the host registered one. *)
Definition idle_call (e : Edge) : list Call :=
  match (idle e).1 with
  | Some handler => [CallIdle handler]
  | None => []
  end.

(** The [default] case of the loop's [switch]: a message with a window
    is translated and dispatched, a thread message is dropped. *)
Definition default_case (msg : MSG) : M unit :=
  match hwnd msg with
  | Some _ => record (TranslateMessage msg);; dispatch msg
  | None => mret tt
  end.

(** [PeekMessage] has taken the first poll off the queue. *)
Definition polled (rest : list (option MSG)) (s : State) : State :=
  {| edge := edge s; world := set_inbox rest (world s); log := log s |}.

(** The request the constructor makes for the environment of the
    application [app_name]. *)
Definition environment_request (app_name : string) : Call :=
  CreateCoreWebView2EnvironmentWithOptions
    (path_append APPDATA app_name)
    {| AdditionalBrowserArguments := Some "--disable-web-security"%string |}.

(** The calls of a construction before that request. *)
Definition construction_prefix (title : string) (width height : Z) (resizeable : bool)
  : list Call :=
  [CoInitializeEx; SetProcessDpiAwareness; RegisterClassEx "Above";
   CreateWindowEx title
     (let style := Z.lor (Z.lor (Z.lor WS_OVERLAPPED WS_SYSMENU) WS_MINIMIZEBOX) WS_MAXIMIZEBOX in
      if resizeable then Z.lor style WS_THICKFRAME else style);
   MonitorFromWindow; GetScaleFactorForMonitor;
   SetWindowPos (FloatScaled width monitor_scale) (FloatScaled height monitor_scale);
   SetWindowLongPtr_USERDATA; DwmSetWindowAttribute;
   GetAvailableCoreWebView2BrowserVersionString; CoTaskMemFree; getenv "APPDATA";
   put_AdditionalBrowserArguments "--disable-web-security"].

(** The environment is created with web security disabled. *)
Definition creates_without_web_security (c : Call) : Prop :=
  ∀ folder options,
    c = CreateCoreWebView2EnvironmentWithOptions folder options →
    AdditionalBrowserArguments options = Some "--disable-web-security"%string.

End Vocabulary.

(** *** A platform and a state to run the adapter on *)

Definition quote : string := String (Ascii.ascii_of_nat 34) EmptyString.
Definition quoted (s : string) : string := quote +:+ s +:+ quote.

(** The text of the object with index 7, func add and args [1,2]. *)
Definition add_message : string :=
  "{" +:+ quoted "index" +:+ ":7," +:+ quoted "func" +:+ ":" +:+ quoted "add" +:+ ","
      +:+ quoted "args" +:+ ":[1,2]}".

(** The same text without the index member. *)
Definition no_index_message : string :=
  "{" +:+ quoted "func" +:+ ":" +:+ quoted "add" +:+ "," +:+ quoted "args" +:+ ":[1,2]}".

Definition add_document : json :=
  JObject [("index"%string, JUnsigned 7); ("func"%string, JString "add");
           ("args"%string, JArray [JUnsigned 1; JUnsigned 2])].

Definition no_index_document : json :=
  JObject [("func"%string, JString "add"); ("args"%string, JArray [JUnsigned 1; JUnsigned 2])].

(** Both JSON libraries on the two texts above; every other text is
    rejected. *)
Definition read_document (text : string) : option json :=
  if String.eqb text add_message then Some add_document
  else if String.eqb text no_index_message then Some no_index_document
  else None.

Fixpoint backslash_to_slash (s : string) : string :=
  match s with
  | EmptyString => EmptyString
  | String c rest =>
      String (if Ascii.eqb c (Ascii.ascii_of_nat 92) then Ascii.ascii_of_nat 47 else c)
             (backslash_to_slash rest)
  end.

(** A machine on which every call succeeds, with a monitor at 100%. *)
Definition desktop : Platform :=
  {| answer := λ _ c, match c with RegisterClassEx _ => 49536 | _ => S_OK end;
     created_window := Some 1%N;
     monitor_scale := 100;
     runtime_version := Some "120.0.2210.91"%string;
     APPDATA := "C:\Users\me\AppData\Roaming";
     APPDATA_set := true;
     core_webview := Some 4%N;
     current_path := "C:\app";
     path_append := λ p q, p +:+ "\" +:+ q;
     generic_string := backslash_to_slash;
     simdjson_iterate := λ text,
       match read_document text with Some j => value j | None => error TAPE_ERROR end;
     json_parse := read_document;
     json_dump := λ j, match j with
                       | JArray [JUnsigned 1; JUnsigned 2] => "[1,2]"
                       | _ => "null"
                       end%string;
     double_to_uint64 := λ _, 0%N |}.

Definition blank_edge : Edge :=
  {| window := None; scale := 0; isInitialized := false; semaphore := 0;
     environment := None; controller := None; webview := None;
     minSize := {| width := 0; height := 0 |};
     maxSize := {| width := 0; height := 0 |};
     callbacks := ∅; main_queue := []; idle := (None, 0%N) |}.

Definition system_minmaxinfo : MINMAXINFO :=
  {| ptReserved := {| x := 0; y := 0 |};
     ptMaxSize := {| x := 1936; y := 1096 |};
     ptMaxPosition := {| x := -8; y := -8 |};
     ptMinTrackSize := {| x := 136; y := 39 |};
     ptMaxTrackSize := {| x := 1940; y := 1100 |} |}.

(** An adapter after its constructor: window 1 with the style of a
    resizeable window, scale 100, controller and page present. *)
Definition ready : State :=
  {| edge := {| window := Some 1%N; scale := 100; isInitialized := false; semaphore := 0;
                environment := Some 2%N; controller := Some 3%N; webview := Some 4%N;
                minSize := {| width := 0; height := 0 |};
                maxSize := {| width := 0; height := 0 |};
                callbacks := ∅; main_queue := []; idle := (None, 0%N) |};
     world := {| style := 983040; userdata := true;
                 client := {| left := 0; top := 0; right := 800; bottom := 600 |};
                 minmaxinfo := system_minmaxinfo; inbox := []; producers := [] |};
     log := [] |}.

(** The adapter with the host's handler 11 registered as [add]. *)
Definition bound : State :=
  {| edge := {| window := Some 1%N; scale := 100; isInitialized := true; semaphore := 0;
                environment := Some 2%N; controller := Some 3%N; webview := Some 4%N;
                minSize := {| width := 0; height := 0 |};
                maxSize := {| width := 0; height := 0 |};
                callbacks := {[ "add"%string := (11%N, 0%N) ]};
                main_queue := []; idle := (None, 0%N) |};
     world := world ready;
     log := [] |}.

(** A page posting the text of a call to [add], the same text without
    its index, and an object instead of a string (the engine then
    refuses to hand out a string). *)
Definition add_call : WebMessageReceivedEventArgs :=
  {| TryGetWebMessageAsString := (S_OK, add_message) |}.
Definition call_without_index : WebMessageReceivedEventArgs :=
  {| TryGetWebMessageAsString := (S_OK, no_index_message) |}.
Definition posted_object : WebMessageReceivedEventArgs :=
  {| TryGetWebMessageAsString := (E_INVALIDARG, ""%string) |}.

(** The adapter in its loop with two work items queued, a third one
    arriving while the first runs, and the idle callback 5 registered. *)
Definition busy : State :=
  {| edge := {| window := Some 1%N; scale := 100; isInitialized := true; semaphore := 0;
                environment := Some 2%N; controller := Some 3%N; webview := Some 4%N;
                minSize := {| width := 0; height := 0 |};
                maxSize := {| width := 0; height := 0 |};
                callbacks := ∅;
                main_queue := [(21%N, Some 31%N); (22%N, None)];
                idle := (Some 5%N, 0%N) |};
     world := {| style := 983040; userdata := true;
                 client := {| left := 0; top := 0; right := 800; bottom := 600 |};
                 minmaxinfo := system_minmaxinfo; inbox := [];
                 producers := [[(23%N, Some 33%N)]] |};
     log := [] |}.

(** A fresh adapter object on a machine where the engine answers the
    two creation requests through the message queue. *)
Definition fresh : State :=
  {| edge := blank_edge;
     world := {| style := 0; userdata := false;
                 client := {| left := 0; top := 0; right := 800; bottom := 600 |};
                 minmaxinfo := system_minmaxinfo;
                 inbox := [Some {| hwnd := Some 9%N; message := 1024;
                                    delivery := EnvironmentCompleted S_OK (Some 2%N) |};
                           None;
                           Some {| hwnd := Some 9%N; message := 1024;
                                   delivery := ControllerCompleted S_OK (Some 3%N) |}];
                 producers := [] |};
     log := [] |}.

Definition size_message : MSG :=
  {| hwnd := Some 1%N; message := WM_SIZE; delivery := NoDelivery |}.
Definition quit_message : MSG :=
  {| hwnd := None; message := WM_QUIT; delivery := NoDelivery |}.

(** *** Further vocabulary *)

Section MoreVocabulary.
Context `{platform : Platform}.

(** Several calls of [set_max_size] in a row. *)
Fixpoint max_size_calls (pairs : list (Z * Z)) : M unit :=
  match pairs with
  | [] => mret tt
  | (width, height) :: rest => set_max_size width height;; max_size_calls rest
  end.

(** A computation leaves a part of the state as it found it. *)
Definition preserves {A X} (part : State → X) (c : M A) : Prop :=
  ∀ s, part (c s).2 = part s.

(** If a computation started where [P] holds returns, [Q] holds of its
    result and final state. *)
Definition ensures {A} (P : State → Prop) (c : M A) (Q : A → State → Prop) : Prop :=
  ∀ s, P s → ∀ a s', c s = (Returned a, s') → Q a s'.

(** The callbacks the host registered: the named ones and the idle
    callback. *)
Definition registry (s : State) : gmap string (N * N) * (option N * N) :=
  (callbacks (edge s), idle (edge s)).

(** What the engine's events and the window's messages have no
    business with: the handles, the scale, the stored sizes, the
    registered callbacks, the work queue and its producers, and the
    window's style, user data and client rectangle. *)
Definition fixtures (s : State) :=
  (window (edge s), scale (edge s), webview (edge s), minSize (edge s), maxSize (edge s),
   callbacks (edge s), idle (edge s), main_queue (edge s),
   style (world s), userdata (world s), client (world s), producers (world s)).

(** The adapter has its environment. *)
Definition has_environment (s : State) : Prop := environment (edge s) ≠ None.

(** What the host and the system can ask of the adapter. *)
Inductive operation :=
| Construct (app_name title : string) (width height : Z) (resizeable debug_mode : bool)
| Run (url_path : string)
| SetSize (width height : Z)
| SetMinSize (width height : Z)
| SetMaxSize (width height : Z)
| ExecuteJs (js : string)
| Quit
| Bind (name : string) (callback : N)
| WindowMessage (msg : Z)
| NavigationEvent
| MessageEvent (args : WebMessageReceivedEventArgs).

Definition perform (o : operation) : M unit :=
  match o with
  | Construct app_name title width height resizeable debug_mode =>
      Edge_constructor app_name title width height resizeable debug_mode
  | Run url_path => run url_path
  | SetSize width height => set_size width height
  | SetMinSize width height => set_min_size width height
  | SetMaxSize width height => set_max_size width height
  | ExecuteJs js => execute_js js
  | Quit => quit
  | Bind name callback => App.bind name callback
  | WindowMessage msg => windowProcedure msg;; mret tt
  | NavigationEvent => webviewNavigationComplete;; mret tt
  | MessageEvent args => webviewMessageReceived args;; mret tt
  end.

(** Operations one after the other; an operation that throws or waits
    ends the sequence. *)
Fixpoint perform_all (ops : list operation) : M unit :=
  match ops with
  | [] => mret tt
  | o :: rest => perform o;; perform_all rest
  end.




(** A state with [isInitialized] set and the four calls of a first show
    that failed at [put_IsVisible] in its log. *)
Definition shown_not_sized (s : State) : State :=
  {| edge := set_isInitialized true (edge s);
     world := world s;
     log := log s ++ [ShowWindow SW_SHOWNORMAL; UpdateWindow; SetFocus; put_IsVisible true] |}.

(** The calls the constructor's wait can make: those of dispatching a
    message and of the handlers it may reach. *)
Definition pumped (c : Call) : bool :=
  match c with
  | TranslateMessage _ | DispatchMessage _ | DefWindowProc _ | PostQuitMessage _
  | GetClientRect | put_Bounds _ | put_IsVisible _ | ShowWindow _ | UpdateWindow | SetFocus
  | InvokeCallback _ _ _ | CoTaskMemFree => true
  | _ => false
  end.

(** The dispatch of a completion that brought an environment. *)
Definition environment_arrival (c : Call) : Prop :=
  ∃ msg error_code created,
    c = DispatchMessage msg ∧ delivery msg = EnvironmentCompleted error_code (Some created).

(** A computation adds only calls of the wait to the log, and the
    environment pointer at its end is the one at its start, or null, or
    an environment arrived meanwhile. *)
Definition environment_accounted {A} (c : M A) : Prop :=
  ∀ s, ∃ added,
    log (c s).2 = log s ++ added ∧
    Forall (λ c, pumped c = true) added ∧
    (environment (edge (c s).2) = environment (edge s) ∨
     environment (edge (c s).2) = None ∨
     Exists environment_arrival added).

(** How a computation can end: every exception it throws satisfies
    [E], and it is left waiting for the system only if [may_wait]. *)
Definition ends {A} (E : exception → Prop) (may_wait : bool) (c : M A) : Prop :=
  ∀ s, match (c s).1 with
       | Returned _ => True
       | Thrown e => E e
       | Waiting => may_wait = true
       end.

(** The exceptions of a failed call, of the JSON library and of a null
    pointer: every one but [std::runtime_error]'s own messages. *)
Definition not_a_message (e : exception) : Prop :=
  match e with runtime_error _ => False | _ => True end.

End MoreVocabulary.

(** A machine like [desktop] on which the engine refuses to make the
    controller visible. *)
Definition stubborn : Platform :=
  {| answer := λ _ c, match c with
                      | RegisterClassEx _ => 49536
                      | put_IsVisible _ => E_INVALIDARG
                      | _ => S_OK
                      end;
     created_window := Some 1%N;
     monitor_scale := 100;
     runtime_version := Some "120.0.2210.91"%string;
     APPDATA := "C:\Users\me\AppData\Roaming";
     APPDATA_set := true;
     core_webview := Some 4%N;
     current_path := "C:\app";
     path_append := λ p q, p +:+ "\" +:+ q;
     generic_string := backslash_to_slash;
     simdjson_iterate := λ text,
       match read_document text with Some j => value j | None => error TAPE_ERROR end;
     json_parse := read_document;
     json_dump := λ _, "null"%string;
     double_to_uint64 := λ _, 0%N |}.

(** A fresh adapter whose wait for the environment is cut short by a
    quit message. *)
Definition quitting : State :=
  {| edge := blank_edge;
     world := {| style := 0; userdata := true;
                 client := {| left := 0; top := 0; right := 800; bottom := 600 |};
                 minmaxinfo := system_minmaxinfo;
                 inbox := [None; None; Some quit_message; Some size_message];
                 producers := [] |};
     log := [] |}.

(** The adapter after its constructor, with the thread's queue holding
    a [WM_SIZE] for the window and then the quit message. *)
Definition closing : State :=
  {| edge := edge ready;
     world := set_inbox [None; Some size_message; Some quit_message; None] (world ready);
     log := [] |}.

(** A machine like [desktop] without the WebView2 runtime. *)
Definition bare : Platform :=
  {| answer := λ _ c, match c with RegisterClassEx _ => 49536 | _ => S_OK end;
     created_window := Some 1%N;
     monitor_scale := 100;
     runtime_version := None;
     APPDATA := "C:\Users\me\AppData\Roaming";
     APPDATA_set := true;
     core_webview := Some 4%N;
     current_path := "C:\app";
     path_append := λ p q, p +:+ "\" +:+ q;
     generic_string := backslash_to_slash;
     simdjson_iterate := λ text,
       match read_document text with Some j => value j | None => error TAPE_ERROR end;
     json_parse := read_document;
     json_dump := λ _, "null"%string;
     double_to_uint64 := λ _, 0%N |}.

End EdgeSpec.

(* ===================================================================== *)
(** ** The page and the adapter together *)
(* ===================================================================== *)

Module BridgeSpec.
Import Json.

(** The page after seven calls: the next index is 7. *)
Definition seven_calls : Shim.Page :=
  ShimSpec.page (ShimSpec.run (replicate 7 (ShimSpec.Invoke "ping" [])) ShimSpec.start).

(** A page whose allocator has handed out every index (the table of
    results and the promises left aside). *)
Definition drained : Shim.Page :=
  {| Shim.webview :=
       {| Shim.results := ∅;
          Shim.events := ∅;
          Shim.allocator :=
            (ShimSpec.allocate_all (N.to_nat Shim.MAX_RESULTS)
               (Shim.IndexAllocator_new Shim.MAX_RESULTS)).2 |};
     Shim.promises := [];
     Shim.posted := [] |}.

(** The engine handing [text] to the adapter as the string of a
    message. *)
Definition delivered (text : string) : Edge.WebMessageReceivedEventArgs :=
  {| Edge.TryGetWebMessageAsString := (Edge.S_OK, text) |}.

End BridgeSpec.

(* ===================================================================== *)
(** ** Proofs about the shim *)
(* ===================================================================== *)

Module ShimProofs.
Import Json Shim ShimSpec.

(** *** The queue as a list *)

Lemma collect_lookup (m : gmap N N) (l : list N) (h : N) :
  (∀ (i : nat) (x : N), l !! i = Some x → m !! (h + N.of_nat i) = Some x) →
  collect (List.length l) h m = l.
Proof.
  revert h. induction l as [|x l IH]; intros h Hl; [done|].
  cbn [List.length collect].
  pose proof (Hl 0%nat x eq_refl) as H0.
  replace (h + N.of_nat 0) with h in H0 by lia. rewrite H0. f_equal.
  apply IH. intros i y Hy.
  replace (h + 1 + N.of_nat i) with (h + N.of_nat (S i)) by lia.
  by apply Hl.
Qed.

Lemma is_queue_contents q l : is_queue q l → contents q = l.
Proof.
  intros [Ht Hl]. unfold contents.
  replace (N.to_nat (tail q - head q)) with (List.length l) by lia.
  by apply collect_lookup.
Qed.

Lemma is_queue_new : is_queue Queue_new [].
Proof. split; [done|]. intros i x Hix. by rewrite lookup_nil in Hix. Qed.

Lemma is_queue_enqueue q l x : is_queue q l → is_queue (enqueue x q) (l ++ [x]).
Proof.
  intros [Ht Hl]. split; simpl.
  - rewrite length_app. simpl. lia.
  - intros i y Hy. destruct (decide (i < List.length l)%nat) as [Hlt|Hge].
    + rewrite lookup_app_l in Hy by done.
      rewrite lookup_insert_ne by lia. by apply Hl.
    + rewrite lookup_app_r in Hy by lia.
      destruct (i - List.length l)%nat as [|k] eqn:Hk; simpl in Hy; [|by rewrite lookup_nil in Hy].
      injection Hy as <-.
      replace (head q + N.of_nat i) with (tail q) by lia.
      apply lookup_insert_eq.
Qed.

Lemma is_queue_dequeue q x l :
  is_queue q (x :: l) → ∃ q', dequeue q = (Some x, q') ∧ is_queue q' l.
Proof.
  intros [Ht Hl]. eexists. split.
  - unfold dequeue. f_equal. specialize (Hl 0%nat x eq_refl).
    by replace (head q + N.of_nat 0) with (head q) in Hl by lia.
  - split; simpl.
    + simpl in Ht. lia.
    + intros i y Hy. rewrite lookup_delete_ne by lia.
      replace (head q + 1 + N.of_nat i) with (head q + N.of_nat (S i)) by lia.
      by apply Hl.
Qed.

Lemma is_queue_seed todo i q l :
  is_queue q l → is_queue (seed todo i q) (l ++ upto todo i).
Proof.
  revert i q l. induction todo as [|todo IH]; intros i q l Hq.
  - simpl. by rewrite app_nil_r.
  - cbn [seed upto]. rewrite cons_middle, app_assoc.
    apply IH. by apply is_queue_enqueue.
Qed.

Lemma is_queue_allocator_new count :
  is_queue (queue (IndexAllocator_new count)) (domain count).
Proof.
  exact (is_queue_seed (N.to_nat count) 0 Queue_new [] is_queue_new).
Qed.

Lemma elem_of_upto n i x : x ∈ upto n i ↔ i ≤ x < i + N.of_nat n.
Proof.
  revert i. induction n as [|n IH]; intros i; simpl.
  - rewrite elem_of_nil. lia.
  - rewrite elem_of_cons, IH. lia.
Qed.

Lemma NoDup_upto n i : NoDup (upto n i).
Proof.
  revert i. induction n as [|n IH]; intros i; simpl; constructor; [|apply IH].
  rewrite elem_of_upto. lia.
Qed.

Lemma length_upto n i : List.length (upto n i) = n.
Proof. revert i. induction n as [|n IH]; intros i; simpl; [done|]. by rewrite IH. Qed.

Lemma NoDup_domain count : NoDup (domain count).
Proof. apply NoDup_upto. Qed.

Lemma elem_of_domain count i : i ∈ domain count ↔ i < count.
Proof. unfold domain. rewrite elem_of_upto. lia. Qed.

Lemma remove_first_Permutation i l : i ∈ l → l ≡ₚ i :: remove_first i l.
Proof.
  induction l as [|x l IH]; [by intros ?%elem_of_nil|].
  intros Hi. simpl. destruct (N.eqb_spec x i) as [->|Hne]; [done|].
  apply elem_of_cons in Hi as [->|Hi]; [done|].
  rewrite (IH Hi) at 1. apply Permutation_swap.
Qed.

Lemma length_collect_le n k m : (List.length (collect n k m) ≤ n)%nat.
Proof.
  revert k. induction n as [|n IH]; intros k; simpl; [done|].
  specialize (IH (k + 1)). destruct (m !! k); simpl; lia.
Qed.

Lemma collect_full n k m :
  List.length (collect n k m) = n →
  ∀ (i : nat) x, collect n k m !! i = Some x → m !! (k + N.of_nat i) = Some x.
Proof.
  revert k. induction n as [|n IH]; intros k Hlen i x Hi; simpl in *.
  - by rewrite lookup_nil in Hi.
  - pose proof (length_collect_le n (k + 1) m) as Hle.
    destruct (m !! k) as [y|] eqn:Hy; simpl in Hlen; [|lia].
    destruct i as [|i]; simpl in Hi.
    + replace (k + N.of_nat 0) with k by lia. congruence.
    + replace (k + N.of_nat (S i)) with (k + 1 + N.of_nat i) by lia.
      apply IH; [lia|done].
Qed.

Lemma well_formed_is_queue q : well_formed q → is_queue q (contents q).
Proof.
  unfold well_formed. intros Hwf. split; [lia|].
  apply collect_full.
  pose proof (length_collect_le (N.to_nat (tail q - head q)) (head q) (elements q)).
  unfold contents in Hwf. lia.
Qed.

Lemma is_queue_well_formed q l : is_queue q l → well_formed q.
Proof.
  intros Hq. unfold well_formed. rewrite (is_queue_contents q l Hq). by destruct Hq.
Qed.

(** *** The invariant of the allocator *)

Lemma partitions_invoke count t name args x l :
  is_queue (queue (allocator (webview (page t)))) (x :: l) →
  (x :: l) ++ in_flight t ≡ₚ domain count →
  (invoke name args (page t)).1.1 = Some x ∧
  is_queue (queue (allocator (webview (invoke name args (page t)).2))) l ∧
  l ++ in_flight (track t (Invoke name args)) ≡ₚ domain count.
Proof.
  intros Hq Hp. destruct (is_queue_dequeue _ _ _ Hq) as (q' & Hd & Hq').
  unfold track, invoke, allocate. rewrite Hd. simpl. split; [done|]. split; [done|].
  rewrite <- Hp. simpl. rewrite app_assoc, <- Permutation_cons_append. done.
Qed.

Lemma partitions_free count t i l :
  is_queue (queue (allocator (webview (page t)))) l →
  l ++ in_flight t ≡ₚ domain count →
  i ∈ in_flight t →
  is_queue (queue (allocator (webview (page (track t (FreeResult i)))))) (l ++ [i]) ∧
  (l ++ [i]) ++ in_flight (track t (FreeResult i)) ≡ₚ domain count.
Proof.
  intros Hq Hp Hi. split; [by apply is_queue_enqueue|].
  simpl. rewrite <- Hp, <- app_assoc. simpl.
  by rewrite <- (remove_first_Permutation i (in_flight t) Hi).
Qed.

Lemma partitions_run count ops t :
  partitions count t → disciplined ops t = true → partitions count (run ops t).
Proof.
  revert t. induction ops as [|o ops IH]; intros t Hinv Hd; [done|].
  simpl in Hd. apply andb_prop in Hd as [Ho Hd]. simpl. apply IH; [|done].
  destruct Hinv as (l & Hq & Hp). destruct o as [name args|i].
  - apply negb_true_iff, bool_decide_eq_false in Ho.
    unfold free_list in Ho. rewrite (is_queue_contents _ _ Hq) in Ho.
    destruct l as [|x l]; [done|].
    destruct (partitions_invoke count t name args x l Hq Hp) as (_ & Hq' & Hp').
    exists l. split; [|done]. unfold track. by destruct (invoke name args (page t)) as [[??]?].
  - apply bool_decide_eq_true in Ho. exists (l ++ [i]). by apply partitions_free.
Qed.

Lemma partitions_start : partitions MAX_RESULTS start.
Proof.
  exists (domain MAX_RESULTS). split.
  - exact (is_queue_allocator_new MAX_RESULTS).
  - change (domain MAX_RESULTS ++ [] ≡ₚ domain MAX_RESULTS). by rewrite app_nil_r.
Qed.

(** *** C4 *)

(** C4. The allocator is a FIFO free list seeded with [0, MAX_RESULTS):
    a fresh shim holds the whole domain in increasing order, [invoke]
    takes the oldest free index and [__free_result] appends at the back.
    Along every sequence of calls that never invokes on an exhausted pool
    and completes only in-flight indices, the in-flight indices are
    pairwise distinct, and every index of the domain is either exactly
    once in the free list or exactly once in flight, never both; so an
    index in flight is not free, and completing it puts it into the free
    list once and takes it out of flight. *)
Theorem correlation_indices_unique (ops : list op) :
  disciplined ops start = true →
  free_list WebView_new = domain MAX_RESULTS ∧
  let t := run ops start in
  let w := webview (page t) in
  NoDup (in_flight t) ∧
  NoDup (free_list w ++ in_flight t) ∧
  (∀ i, i ∈ free_list w ++ in_flight t ↔ i < MAX_RESULTS) ∧
  (∀ name args i rest, free_list w = i :: rest →
     (invoke name args (page t)).1.1 = Some i ∧
     free_list (webview (invoke name args (page t)).2) = rest) ∧
  (∀ i, free_list (__free_result i w) = free_list w ++ [i]) ∧
  (∀ i, i ∈ in_flight t →
     (i ∉ free_list w) ∧
     (i ∉ in_flight (track t (FreeResult i))) ∧
     NoDup (free_list (webview (page (track t (FreeResult i)))))).
Proof.
  intros Hd. split.
  { apply is_queue_contents. exact (is_queue_allocator_new MAX_RESULTS). }
  destruct (partitions_run MAX_RESULTS ops start partitions_start Hd) as (l & Hq & Hp).
  cbv zeta. unfold free_list. rewrite (is_queue_contents _ _ Hq).
  assert (Hnd : NoDup (l ++ in_flight (run ops start))).
  { rewrite Hp. apply NoDup_domain. }
  split; [by apply NoDup_app in Hnd as (_ & _ & ?)|].
  split; [done|].
  split; [intros i; by rewrite Hp, elem_of_domain|].
  split; [|split].
  - intros name args i rest ->.
    destruct (partitions_invoke MAX_RESULTS _ name args i rest Hq Hp) as (Hi & Hq' & _).
    split; [done|]. by apply is_queue_contents.
  - intros i. apply is_queue_contents. simpl. by apply is_queue_enqueue.
  - intros i Hi.
    destruct (partitions_free MAX_RESULTS _ i l Hq Hp Hi) as (Hq' & Hp').
    assert (Hnd' : NoDup ((l ++ [i]) ++ in_flight (track (run ops start) (FreeResult i)))).
    { rewrite Hp'. apply NoDup_domain. }
    apply NoDup_app in Hnd as (_ & Hdisj & _).
    apply NoDup_app in Hnd' as (Hfree & Hdisj' & _).
    split; [intros Hl; by apply (Hdisj i)|].
    split.
    + apply Hdisj'. set_solver.
    + by rewrite (is_queue_contents _ _ Hq').
Qed.

Lemma correlation_indices_unique_witness :
  disciplined [Invoke "add" [JUnsigned 1]; Invoke "sub" []; FreeResult 0; Invoke "add" []] start = true ∧
  NoDup (in_flight (run [Invoke "add" [JUnsigned 1]; Invoke "sub" []; FreeResult 0; Invoke "add" []] start)).
Proof.
  assert (H : disciplined [Invoke "add" [JUnsigned 1]; Invoke "sub" []; FreeResult 0; Invoke "add" []] start = true)
    by (vm_compute; reflexivity).
  split; [exact H|].
  exact (proj1 (proj2 (correlation_indices_unique _ H))).
Defined.

(** *** C3 *)

(** [__free_result] on a page whose call of index 0 is pending: the
    pair stays in [results] and its promise stays pending, so the steps
    "settle" and "remove" of the specified completion do not happen. *)
Lemma free_result_does_not_settle :
  let before := (invoke "f" [] Page_new).2 in
  let after := free_result_script 0 before in
  (invoke "f" [] Page_new).1.1 = Some 0 ∧
  results (webview after) !! Some 0 = Some {| resolve := 0; reject := 0 |} ∧
  promises after !! 0%nat = Some Pending ∧
  ¬ completes_as_specified before after 0.
Proof.
  cbv zeta.
  assert (Hres : results (webview (free_result_script 0 (invoke "f" [] Page_new).2)) !! Some 0
                 = Some {| resolve := 0; reject := 0 |}) by (vm_compute; reflexivity).
  split; [vm_compute; reflexivity|].
  split; [exact Hres|].
  split; [vm_compute; reflexivity|].
  intros (pair & _ & _ & Hgone & _). rewrite Hres in Hgone. discriminate.
Qed.

(** *** The queue as a list with a debt *)

Lemma stands_for_new : stands_for Queue_new {| waiting := []; owed := 0 |}.
Proof.
  split; [done|]. split; [by left|]. split.
  - intros i x Hx. simpl in Hx. by rewrite lookup_nil in Hx.
  - intros k _. apply lookup_empty.
Qed.

Lemma stands_for_enqueue q f x :
  stands_for q f → stands_for (enqueue x q) (fifo_enqueue x f).
Proof.
  intros (Hlen & Hdebt & Hl & Hfree). unfold fifo_enqueue.
  destruct (owed f) as [|d] eqn:Hd.
  - split; [simpl; rewrite length_app; simpl; lia|]. split; [by left|]. split; simpl.
    + intros i y Hy. destruct (decide (i < List.length (waiting f))%nat) as [Hlt|Hge].
      * rewrite lookup_app_l in Hy by done. rewrite lookup_insert_ne by lia. by apply Hl.
      * rewrite lookup_app_r in Hy by lia.
        destruct (i - List.length (waiting f))%nat as [|k] eqn:Hk; simpl in Hy;
          [|by rewrite lookup_nil in Hy].
        injection Hy as <-. replace (head q + N.of_nat i) with (tail q) by lia.
        apply lookup_insert_eq.
    + intros k Hk. rewrite lookup_insert_ne by lia. apply Hfree. lia.
  - destruct Hdebt as [?|Hw]; [done|]. rewrite Hw in *. simpl in Hlen.
    split; [simpl; lia|]. split; [by right|]. split; simpl.
    + intros i y Hy. simpl in Hy. rewrite ?Hw in Hy. by rewrite lookup_nil in Hy.
    + intros k Hk. rewrite lookup_insert_ne by lia. apply Hfree. lia.
Qed.

Lemma stands_for_dequeue q f :
  stands_for q f →
  (dequeue q).1 = (fifo_dequeue f).1 ∧ stands_for (dequeue q).2 (fifo_dequeue f).2.
Proof.
  intros (Hlen & Hdebt & Hl & Hfree). unfold fifo_dequeue, dequeue.
  destruct (waiting f) as [|x l] eqn:Hw; simpl in *.
  - split; [apply Hfree; lia|].
    split; [simpl; lia|]. split; [by right|]. split; simpl.
    + intros i y Hy. simpl in Hy. rewrite ?Hw in Hy. by rewrite lookup_nil in Hy.
    + intros k Hk. destruct (decide (k = head q)) as [->|Hne].
      * apply lookup_delete_eq.
      * rewrite lookup_delete_ne by done. by apply Hfree.
  - destruct Hdebt as [Hd|?]; [|done]. rewrite Hd in *.
    split.
    { specialize (Hl 0%nat x eq_refl). by replace (head q + N.of_nat 0) with (head q) in Hl by lia. }
    split; [simpl; lia|]. split; [by left|]. split; simpl.
    + intros i y Hy. rewrite lookup_delete_ne by lia.
      replace (head q + 1 + N.of_nat i) with (head q + N.of_nat (S i)) by lia. by apply Hl.
    + intros k Hk. destruct (decide (k = head q)) as [->|Hne].
      * apply lookup_delete_eq.
      * rewrite lookup_delete_ne by done. by apply Hfree.
Qed.

Lemma stands_for_run ops q f :
  stands_for q f →
  (queue_run ops q).1 = (fifo_run ops f).1 ∧
  stands_for (queue_run ops q).2 (fifo_run ops f).2.
Proof.
  revert q f. induction ops as [|[x|] ops IH]; intros q f Hqf; cbn [queue_run fifo_run].
  - done.
  - apply IH. by apply stands_for_enqueue.
  - destruct (stands_for_dequeue q f Hqf) as (Hout & Hnext).
    destruct (dequeue q) as [item q'], (fifo_dequeue f) as [item' f']. simpl in *.
    destruct (IH q' f' Hnext) as (Houts & Hlast).
    destruct (queue_run ops q') as [items q''], (fifo_run ops f') as [items' f''].
    simpl in *. by subst.
Qed.

Lemma stands_for_is_queue q f : stands_for q f → owed f = 0%nat → is_queue q (waiting f).
Proof. intros (Hlen & _ & Hl & _) Hd. split; [lia|done]. Qed.

(** X1. A queue built from an empty one by any sequence of [enqueue]
    and [dequeue] answers as a first-in first-out list does, as long as
    no [dequeue] met an empty queue: each [dequeue] returns the oldest
    waiting value.  A [dequeue] on an empty queue returns [undefined]
    and leaves a debt that swallows the next [enqueue].  [length()] is
    the number of waiting values minus that debt, [peek()] is the oldest
    waiting value. *)
Theorem queue_is_fifo_with_debt (ops : list queue_op) :
  let q := (queue_run ops Queue_new).2 in
  let f := (fifo_run ops {| waiting := []; owed := 0 |}).2 in
  (queue_run ops Queue_new).1 = (fifo_run ops {| waiting := []; owed := 0 |}).1 ∧
  length q = (Z.of_nat (List.length (waiting f)) - Z.of_nat (owed f))%Z ∧
  peek q = waiting f !! 0%nat ∧
  (owed f = 0%nat → contents q = waiting f).
Proof.
  cbv zeta.
  destruct (stands_for_run ops Queue_new _ stands_for_new) as (Houts & Hrep).
  split; [done|].
  set (q := (queue_run ops Queue_new).2) in *.
  set (f := (fifo_run ops {| waiting := []; owed := 0 |}).2) in *.
  pose proof Hrep as (Hlen & Hdebt & Hl & Hfree).
  split; [unfold length; lia|]. split.
  - unfold peek. destruct (waiting f) as [|x l] eqn:Hw.
    + apply Hfree. simpl in Hlen. lia.
    + specialize (Hl 0%nat x eq_refl). by replace (head q + N.of_nat 0) with (head q) in Hl by lia.
  - intros Hd. by apply is_queue_contents, stands_for_is_queue.
Qed.

Lemma stands_for_seed todo i q l :
  stands_for q {| waiting := l; owed := 0 |} →
  stands_for (seed todo i q) {| waiting := l ++ upto todo i; owed := 0 |}.
Proof.
  revert i q l. induction todo as [|todo IH]; intros i q l Hq; cbn [seed upto].
  - by rewrite app_nil_r.
  - rewrite cons_middle, app_assoc. apply IH.
    exact (stands_for_enqueue q _ i Hq).
Qed.

Lemma stands_for_allocate_all l a :
  stands_for (queue a) {| waiting := l; owed := 0 |} →
  (allocate_all (List.length l) a).1 = Some <$> l ∧
  stands_for (queue (allocate_all (List.length l) a).2) {| waiting := []; owed := 0 |}.
Proof.
  revert a. induction l as [|x l IH]; intros a Ha; cbn [List.length allocate_all]; [done|].
  destruct (stands_for_dequeue _ _ Ha) as (Hout & Hnext).
  unfold allocate. destruct (dequeue (queue a)) as [item q'].
  simpl in Hout, Hnext. subst item.
  destruct (IH {| queue := q' |} Hnext) as (Hrest & Hlast).
  destruct (allocate_all (List.length l) {| queue := q' |}) as [items a'].
  simpl in *. by rewrite Hrest.
Qed.

(** X2. A pool of [count] indices hands out 0, 1, ..., [count-1] in this
    order.  If an index is freed while the pool is empty, the next
    [allocate] returns it.  If [allocate] is called on the empty pool
    first, it returns [undefined], and the index freed next is lost: the
    following [allocate] returns [undefined] again. *)
Theorem exhausted_pool_swallows_free (count i : N) :
  let used := allocate_all (N.to_nat count) (IndexAllocator_new count) in
  used.1 = Some <$> domain count ∧
  (allocate (deallocate i used.2)).1 = Some i ∧
  (allocate used.2).1 = None ∧
  (allocate (deallocate i (allocate used.2).2)).1 = None.
Proof.
  cbv zeta.
  assert (Hnew : stands_for (queue (IndexAllocator_new count))
                   {| waiting := domain count; owed := 0 |}).
  { exact (stands_for_seed (N.to_nat count) 0 Queue_new [] stands_for_new). }
  destruct (stands_for_allocate_all (domain count) _ Hnew) as (Hhanded & Hempty).
  unfold domain in Hhanded, Hempty at 1. rewrite length_upto in Hhanded, Hempty.
  fold (domain count) in Hhanded.
  set (a := (allocate_all (N.to_nat count) (IndexAllocator_new count)).2) in *.
  split; [done|].
  pose proof (stands_for_enqueue _ _ i Hempty) as Hfreed.
  destruct (stands_for_dequeue _ _ Hfreed) as (Hagain & _).
  destruct (stands_for_dequeue _ _ Hempty) as (Hnone & Hdebt).
  pose proof (stands_for_enqueue _ _ i Hdebt) as Hlost.
  destruct (stands_for_dequeue _ _ Hlost) as (Hnone' & _).
  unfold allocate, deallocate in *. simpl in *.
  split; [|split].
  - by destruct (dequeue (enqueue i (queue a))).
  - by destruct (dequeue (queue a)).
  - destruct (dequeue (queue a)) as [item q'] eqn:Hq. simpl in *.
    by destruct (dequeue (enqueue i q')).
Qed.

(** *** What the shim keeps for the calls in flight *)

Lemma run_counts ops t :
  promises (page (run ops t)) = promises (page t) ++ replicate (invocations_of ops) Pending ∧
  List.length (posted (page (run ops t))) = (List.length (posted (page t)) + invocations_of ops)%nat.
Proof.
  revert t. induction ops as [|o ops IH]; intros t.
  - simpl. rewrite app_nil_r. split; [done|]. unfold invocations_of. simpl. lia.
  - destruct (IH (track t o)) as (Hp & Hm). change (run (o :: ops) t) with (run ops (track t o)).
    rewrite Hp, Hm. destruct o as [name args|i].
    + unfold track, invoke, invocations_of.
      destruct (allocate (allocator (webview (page t)))) as [index a]. simpl.
      rewrite <- app_assoc, length_app. simpl. split; [done|lia].
    + done.
Qed.

(** X3. The shim alone never settles a promise: after any sequence of
    [invoke] and [__free_result] calls on a fresh page, disciplined or
    not, the page holds one promise per [invoke], every one of them
    still pending, and one posted message per [invoke]. *)
Theorem shim_never_settles (ops : list op) :
  promises (page (run ops start)) = replicate (invocations_of ops) Pending ∧
  List.length (posted (page (run ops start))) = invocations_of ops.
Proof. exact (run_counts ops start). Qed.

Lemma remove_call_fst i l : (remove_call i l).*1 = remove_first i l.*1.
Proof.
  induction l as [|c l IH]; [done|]. csimpl.
  destruct (N.eqb c.1 i); [done|]. csimpl. by rewrite IH.
Qed.

Lemma remove_call_subseteq i l c : c ∈ remove_call i l → c ∈ l.
Proof.
  induction l as [|d l IH]; [done|]. simpl.
  destruct (N.eqb d.1 i); [by right|].
  intros [->|Hc]%elem_of_cons; [by left|right; by apply IH].
Qed.

Lemma forget_follow t o : forget (follow t o) = track (forget t) o.
Proof.
  destruct o as [name args|i]; unfold forget, follow, track; cbn [page in_flight].
  - destruct (invoke name args (flight_page t)) as [[index promise] p]. cbn [flight_page calls].
    rewrite fmap_app. by destruct index.
  - cbn [flight_page calls]. by rewrite remove_call_fst.
Qed.

Lemma forget_follow_all ops t : forget (follow_all ops t) = run ops (forget t).
Proof.
  revert t. induction ops as [|o ops IH]; intros t; [done|].
  change (follow_all (o :: ops) t) with (follow_all ops (follow t o)).
  change (run (o :: ops) (forget t)) with (run ops (track (forget t) o)).
  by rewrite IH, forget_follow.
Qed.

Lemma pairs_kept_follow t o :
  partitions MAX_RESULTS (forget t) → pairs_kept t →
  disciplined [o] (forget t) = true →
  partitions MAX_RESULTS (forget (follow t o)) ∧ pairs_kept (follow t o).
Proof.
  intros Hpart [Hpairs Hpending] Hd. split.
  { rewrite forget_follow. exact (partitions_run MAX_RESULTS [o] (forget t) Hpart Hd). }
  simpl in Hd. rewrite andb_true_r in Hd.
  destruct Hpart as (l & Hq & Hp). destruct o as [name args|j].
  - apply negb_true_iff, bool_decide_eq_false in Hd.
    unfold forget, free_list in Hd. simpl in Hq, Hp, Hd.
    rewrite (is_queue_contents _ _ Hq) in Hd.
    destruct l as [|x l]; [done|].
    assert (Hfresh : x ∉ (calls t).*1).
    { assert (Hnd : NoDup ((x :: l) ++ (calls t).*1)) by (rewrite Hp; apply NoDup_domain).
      apply NoDup_app in Hnd as (_ & Hdisj & _). apply Hdisj. by left. }
    destruct (is_queue_dequeue _ _ _ Hq) as (q' & Hdq & _).
    unfold follow, invoke, allocate. rewrite Hdq. simpl. split.
    + simpl. intros i promise [Hold|Hnew%list_elem_of_singleton]%elem_of_app.
      * destruct (Hpairs i promise Hold) as (Hres & Hlt).
        rewrite length_app. split; [|simpl; lia].
        rewrite lookup_insert_ne; [done|].
        intros [= ->]. apply Hfresh. apply list_elem_of_fmap. by exists (i, promise).
      * injection Hnew as -> ->. rewrite length_app. split; [apply lookup_insert_eq|simpl; lia].
    + simpl. apply Forall_app. split; [done|]. by constructor.
  - simpl. split; [|done].
    intros i promise Hin. apply Hpairs. by apply (remove_call_subseteq j).
Qed.

Lemma pairs_kept_follow_all ops t :
  partitions MAX_RESULTS (forget t) → pairs_kept t →
  disciplined ops (forget t) = true →
  pairs_kept (follow_all ops t).
Proof.
  revert t. induction ops as [|o ops IH]; intros t Hpart Hkept Hd; [done|].
  simpl in Hd. apply andb_prop in Hd as [Ho Hd].
  destruct (pairs_kept_follow t o Hpart Hkept) as (Hpart' & Hkept').
  { simpl. by rewrite Ho. }
  change (follow_all (o :: ops) t) with (follow_all ops (follow t o)).
  apply IH; [done..|]. by rewrite forget_follow.
Qed.

(** X4. Along every disciplined sequence of calls on a fresh page, the
    entry of [results] under an index in flight is the resolve/reject
    pair of the promise that the [invoke] which took this index
    returned, and that promise is pending: no later [invoke] overwrites
    the pair of a call that is still in flight.  The indices of these
    calls are the indices in flight. *)
Theorem pending_pair_kept (ops : list op) :
  disciplined ops start = true →
  let t := follow_all ops start_flight in
  forget t = run ops start ∧
  ∀ i promise, (i, promise) ∈ calls t →
    results (webview (flight_page t)) !! Some i = Some {| resolve := promise; reject := promise |} ∧
    promises (flight_page t) !! promise = Some Pending.
Proof.
  intros Hd. cbv zeta. split; [exact (forget_follow_all ops start_flight)|].
  destruct (pairs_kept_follow_all ops start_flight partitions_start) as [Hpairs Hpending].
  { split; [|by constructor]. intros i promise Hin. by apply elem_of_nil in Hin. }
  { exact Hd. }
  intros i promise Hin. destruct (Hpairs i promise Hin) as (Hres & Hlt).
  split; [done|].
  destruct (lookup_lt_is_Some_2 _ _ Hlt) as [st Hst].
  rewrite Hst. f_equal. exact (proj1 (Forall_lookup _ _) Hpending _ _ Hst).
Qed.

Lemma pending_pair_kept_witness :
  disciplined [Invoke "a" []; Invoke "b" []; FreeResult 0; Invoke "c" []] start = true ∧
  ∀ i promise,
    (i, promise) ∈ calls (follow_all [Invoke "a" []; Invoke "b" []; FreeResult 0; Invoke "c" []]
                            start_flight) →
    results (webview (flight_page
      (follow_all [Invoke "a" []; Invoke "b" []; FreeResult 0; Invoke "c" []] start_flight)))
      !! Some i = Some {| resolve := promise; reject := promise |} ∧
    promises (flight_page
      (follow_all [Invoke "a" []; Invoke "b" []; FreeResult 0; Invoke "c" []] start_flight))
      !! promise = Some Pending.
Proof.
  assert (H : disciplined [Invoke "a" []; Invoke "b" []; FreeResult 0; Invoke "c" []] start = true)
    by (vm_compute; reflexivity).
  split; [exact H|].
  exact (proj2 (pending_pair_kept _ H)).
Defined.

Lemma track_with_event name func t o :
  track (with_event name func t) o = with_event name func (track t o).
Proof.
  destruct o as [n args|i]; [|done].
  unfold track, with_event, invoke. cbn [page in_flight event_script webview event allocator
                                        promises posted results events].
  by destruct (allocate _).
Qed.

(** X18. Registering an event handler is inert: it stores the function
    under the event's name, replacing an earlier one, and nothing else.
    Calls of [invoke] and [__free_result] made afterwards hand out the
    same indices, post the same objects and keep the same promises as
    without the registration, and they never touch the registered
    handlers: no function of the shim reads [events]. *)
Theorem events_are_inert (name : string) (func : N) (ops : list op) (t : Tracked) :
  run ops (with_event name func t) = with_event name func (run ops t) ∧
  events (webview (page (run ops (with_event name func t)))) !! name = Some func ∧
  events (webview (page (run ops t))) = events (webview (page t)).
Proof.
  assert (Hevents : ∀ t, events (webview (page (run ops t))) = events (webview (page t))).
  { induction ops as [|o ops IH]; intros t0; [done|].
    cbn [run foldl]. unfold run in IH. rewrite IH.
    destruct o as [n args|i]; [|done].
    unfold track, invoke. by destruct (allocate _). }
  assert (Hrun : ∀ t, run ops (with_event name func t) = with_event name func (run ops t)).
  { clear Hevents. induction ops as [|o ops IH]; intros t0; [done|].
    cbn [run foldl]. rewrite track_with_event. apply IH. }
  split; [apply Hrun|]. split; [|apply Hevents].
  rewrite Hrun. cbn [with_event page event_script webview event events].
  rewrite Hevents. apply lookup_insert_eq.
Qed.

(** *** C3, the amended claim *)

(** A queue that stands for a list with a debt is in order, or in
    debt with nothing stored from its tail on. *)
Lemma stands_for_order q f :
  stands_for q f →
  well_formed q ∨ (tail q < head q ∧ ∀ k, tail q ≤ k → elements q !! k = None).
Proof.
  intros Hqf. destruct (owed f) as [|d] eqn:Hd.
  - left. apply (is_queue_well_formed q (waiting f)). by apply stands_for_is_queue.
  - right. destruct Hqf as (Hlen & [Hdebt|Hw] & _ & Hfree); [congruence|].
    rewrite Hw, Hd in Hlen. simpl in Hlen. split; [lia|done].
Qed.

Lemma stands_for_track t o :
  (∃ f, stands_for (queue (allocator (webview (page t)))) f) →
  ∃ f, stands_for (queue (allocator (webview (page (track t o))))) f.
Proof.
  intros [f Hf]. destruct o as [name args|i].
  - exists (fifo_dequeue f).2.
    destruct (stands_for_dequeue _ _ Hf) as [_ Hnext].
    unfold track, invoke, allocate.
    by destruct (dequeue (queue (allocator (webview (page t))))) as [item q'].
  - exists (fifo_enqueue i f). by apply stands_for_enqueue.
Qed.

Lemma stands_for_tracked ops t :
  (∃ f, stands_for (queue (allocator (webview (page t)))) f) →
  ∃ f, stands_for (queue (allocator (webview (page (run ops t))))) f.
Proof.
  revert t. induction ops as [|o ops IH]; intros t Ht; [done|].
  cbn [run foldl]. apply IH. by apply stands_for_track.
Qed.

Lemma stands_for_start : ∃ f, stands_for (queue (allocator (webview (page start)))) f.
Proof.
  eexists. exact (stands_for_seed (N.to_nat MAX_RESULTS) 0 Queue_new [] stands_for_new).
Qed.

(** C3 (amended). [__free_result(index)] performs the last step only,
    as one [enqueue] of [index] on the allocator's queue.  On a queue
    that is well formed this appends [index] at the back of the free
    list; on a queue in debt ([head] beyond [tail], the state an
    [allocate] on an empty pool leaves) the free list is empty before
    and after.  Every page the shim reaches from a fresh one by
    [invoke] and [__free_result] is in one of these two cases, and in
    the second the next [allocate] still returns [undefined]: the index
    is not made available.  In every case the in-flight mapping, the
    event table, every promise and the posted messages are left as they
    were. *)
Theorem free_result_only_deallocates (index : N) (p : Page) :
  let q := queue (allocator (webview p)) in
  let p' := free_result_script index p in
  queue (allocator (webview p')) = enqueue index q ∧
  (well_formed q → free_list (webview p') = free_list (webview p) ++ [index]) ∧
  (tail q < head q → free_list (webview p) = [] ∧ free_list (webview p') = []) ∧
  (∀ ops, p = page (run ops start) →
     well_formed q ∨ (tail q < head q ∧ (allocate (allocator (webview p'))).1 = None)) ∧
  results (webview p') = results (webview p) ∧
  events (webview p') = events (webview p) ∧
  promises p' = promises p ∧
  posted p' = posted p.
Proof.
  cbv zeta. split; [done|]. split; [|split; [|split; [|done]]].
  - intros Hwf. apply is_queue_contents. simpl.
    by apply is_queue_enqueue, well_formed_is_queue.
  - intros Hdebt. unfold free_list, contents. cbn [free_result_script webview __free_result
      allocator deallocate queue enqueue head tail elements].
    replace (tail (queue (allocator (webview p))) - head (queue (allocator (webview p))))
      with 0 by lia.
    replace (tail (queue (allocator (webview p))) + 1 - head (queue (allocator (webview p))))
      with 0 by lia.
    done.
  - intros ops ->. destruct (stands_for_tracked ops start stands_for_start) as [f Hf].
    destruct (stands_for_order _ f Hf) as [Hwf|[Hdebt Hfree]]; [by left|].
    right. split; [done|].
    cbn [free_result_script webview __free_result allocator deallocate queue allocate
         dequeue enqueue head tail elements fst].
    rewrite lookup_insert_ne by lia. apply Hfree. lia.
Qed.

Lemma free_result_only_deallocates_witness :
  free_list (webview (free_result_script 0 one_call)) = free_list (webview one_call) ++ [0] ∧
  free_list (webview (free_result_script 5 overdrawn)) = [].
Proof.
  split.
  - apply (proj1 (proj2 (free_result_only_deallocates 0 one_call))).
    vm_compute. reflexivity.
  - apply (proj1 (proj2 (proj2 (free_result_only_deallocates 5 overdrawn)))).
    vm_compute. reflexivity.
Defined.

End ShimProofs.

(* ===================================================================== *)
(** ** Proofs about the adapter *)
(* ===================================================================== *)

Module EdgeProofs.
Import Json Edge EdgeSpec.
Local Open Scope Z_scope.

(** Closed examples run on the [desktop] platform. *)
#[local] Existing Instance desktop.

(** Unfolding one layer of the monad. *)
Ltac unfold_monad :=
  unfold mbind, mret, M_bind, M_ret, throw, wait, get, modify_edge, modify_world,
    record, call, throwIfFailed, THROW_IF_FAILED, deref in *.

Section Navigation.
Context `{platform : Platform}.

Lemma navigation_events_initialized n s :
  isInitialized (edge s) = true → navigation_events n s = (Returned tt, s).
Proof.
  induction n as [|n IH]; intros Hi; [done|].
  simpl. unfold webviewNavigationComplete. unfold_monad. rewrite Hi. simpl. by apply IH.
Qed.

Lemma navigation_sets_initialized s :
  isInitialized (edge (webviewNavigationComplete s).2) = true.
Proof.
  unfold webviewNavigationComplete. unfold_monad.
  destruct (isInitialized (edge s)) eqn:Hi; simpl; [done|].
  destruct (controller (edge s)); simpl; [|done].
  destruct (FAILED _); simpl; [done|].
  destruct (FAILED _); simpl; done.
Qed.

(** C5. Whatever the state and however many navigation-completed events
    the engine delivers, all events after the first leave the window
    alone: [n+1] events do exactly what one event does.  When the
    adapter has not shown its window yet, that one event shows, updates
    and focuses the window, makes the controller visible and gives it
    the client rectangle (here: when the engine accepts both calls); in
    every case it leaves [isInitialized] set, and an adapter with
    [isInitialized] set ignores every event. *)
Theorem navigation_completed_shows_once (n : nat) (s : State) :
  navigation_events (S n) s = navigation_events 1 s ∧
  isInitialized (edge (navigation_events 1 s).2) = true ∧
  (isInitialized (edge s) = true → navigation_events (S n) s = (Returned tt, s)) ∧
  (isInitialized (edge s) = false →
   controller (edge s) ≠ None →
   FAILED (answer (log s ++ [ShowWindow SW_SHOWNORMAL; UpdateWindow; SetFocus])
                  (put_IsVisible true)) = false →
   FAILED (answer (log s ++ [ShowWindow SW_SHOWNORMAL; UpdateWindow; SetFocus;
                             put_IsVisible true; GetClientRect])
                  (put_Bounds (client (world s)))) = false →
   navigation_events (S n) s =
   (Returned tt, {| edge := set_isInitialized true (edge s);
                    world := world s;
                    log := log s ++ first_show s |})).
Proof.
  assert (Hone : navigation_events (S n) s = navigation_events 1 s).
  { simpl. unfold mbind, M_bind, mret, M_ret.
    pose proof (navigation_sets_initialized s) as Hi.
    destruct (webviewNavigationComplete s) as [[hr| |] s']; simpl in *; [|done..].
    by rewrite navigation_events_initialized. }
  split; [done|]. split.
  { simpl. unfold mbind, M_bind, mret, M_ret.
    pose proof (navigation_sets_initialized s) as Hi.
    by destruct (webviewNavigationComplete s) as [[hr| |] s']. }
  split; [by apply navigation_events_initialized|].
  intros Hi Hc Hv Hb. rewrite Hone. simpl.
  unfold webviewNavigationComplete. unfold_monad. rewrite Hi. simpl.
  destruct (controller (edge s)) as [c|]; [|done]. simpl.
  rewrite <- !app_assoc. simpl. rewrite Hv. simpl.
  rewrite <- !app_assoc. simpl. rewrite Hb. simpl.
  done.
Qed.


End Navigation.

Lemma navigation_completed_shows_once_witness :
  navigation_events 3 ready =
  (Returned tt, {| edge := set_isInitialized true (edge ready);
                   world := world ready;
                   log := first_show ready |}).
Proof.
  exact (proj2 (proj2 (proj2 (navigation_completed_shows_once 2 ready)))
           eq_refl ltac:(discriminate) eq_refl eq_refl).
Defined.


Section Sizes.
Context `{platform : Platform}.

Lemma land_maximizebox z :
  Z.land z WS_MAXIMIZEBOX = if Z.testbit z 16 then WS_MAXIMIZEBOX else 0.
Proof.
  apply Z.bits_inj'. intros n Hn. rewrite Z.land_spec.
  change WS_MAXIMIZEBOX with (2 ^ 16). rewrite Z.pow2_bits_eqb by lia.
  destruct (Z.eqb_spec 16 n) as [<-|Hne].
  - rewrite andb_true_r. destruct (Z.testbit z 16) eqn:Hz; [done|].
    by rewrite Z.bits_0.
  - rewrite andb_false_r. destruct (Z.testbit z 16).
    + rewrite Z.pow2_bits_false by lia. done.
    + by rewrite Z.bits_0.
Qed.

Lemma has_box_testbit z : Z.land z WS_MAXIMIZEBOX ≠ 0 ↔ Z.testbit z 16 = true.
Proof. rewrite land_maximizebox. destruct (Z.testbit z 16); unfold WS_MAXIMIZEBOX; split; (done || lia). Qed.

Lemma testbit_u32 z : Z.testbit (u32 z) 16 = Z.testbit z 16.
Proof. unfold u32. by rewrite Z.mod_pow2_bits_low by lia. Qed.

Lemma testbit_box_on z : Z.testbit (Z.lor z WS_MAXIMIZEBOX) 16 = true.
Proof. rewrite Z.lor_spec. apply orb_true_r. Qed.

Lemma testbit_box_off z : Z.testbit (Z.land z (u32 (Z.lnot WS_MAXIMIZEBOX))) 16 = false.
Proof. rewrite Z.land_spec. apply andb_false_r. Qed.

(** The style after [set_max_size], in terms of bit 16. *)
Lemma set_max_size_style width height s :
  Z.testbit (style (world (set_max_size width height s).2)) 16
  = (width =? 0) && (height =? 0).
Proof.
  unfold set_max_size, GetWindowLong, SetWindowLong. unfold_monad. cbn -[Z.testbit Z.land Z.lor u32].
  destruct ((width =? 0) && (height =? 0)); cbn -[Z.testbit Z.land Z.lor u32].
  - rewrite land_maximizebox, testbit_u32.
    destruct (Z.testbit (style (world s)) 16) eqn:Hb; cbn -[Z.testbit Z.land Z.lor u32]; [done|].
    apply testbit_box_on.
  - rewrite land_maximizebox, testbit_u32.
    destruct (Z.testbit (style (world s)) 16) eqn:Hb; cbn -[Z.testbit Z.land Z.lor u32]; [|done].
    apply testbit_box_off.
Qed.

Lemma set_max_size_edge width height s :
  edge (set_max_size width height s).2 =
  set_maxSize {| width := scaled (edge s) width; height := scaled (edge s) height |} (edge s).
Proof.
  unfold set_max_size, GetWindowLong, SetWindowLong. unfold_monad. simpl.
  destruct ((width =? 0) && (height =? 0)); simpl;
    destruct (Z.land _ _ =? 0); simpl; done.
Qed.

Lemma set_max_size_world width height s :
  set_style (style (world s)) (world (set_max_size width height s).2) = world s.
Proof.
  unfold set_max_size, GetWindowLong, SetWindowLong. unfold_monad. simpl.
  destruct ((width =? 0) && (height =? 0)); simpl;
    destruct (Z.land _ _ =? 0); simpl; by destruct (world s).
Qed.

(** The query on an adapter whose window carries it. *)
Lemma size_constraints_query_spec s :
  userdata (world s) = true →
  size_constraints_query s =
  (Returned 0,
   {| edge := edge s;
      world := set_minmaxinfo
        (let m := set_ptMinTrackSize {| x := to_LONG (width (minSize (edge s)));
                                        y := to_LONG (height (minSize (edge s))) |}
                                     (minmaxinfo (world s)) in
         if (width (maxSize (edge s)) =? 0) && (height (maxSize (edge s)) =? 0) then m
         else set_ptMaxTrackSize {| x := to_LONG (width (maxSize (edge s)));
                                    y := to_LONG (height (maxSize (edge s))) |} m)
        (world s);
      log := log s |}).
Proof.
  intros Hu. unfold size_constraints_query, windowProcedure. unfold_monad.
  rewrite Hu. simpl.
  destruct ((width (maxSize (edge s)) =? 0) && (height (maxSize (edge s)) =? 0)); simpl; done.
Qed.

Lemma scaled_zero e : scaled e 0 = 0.
Proof. done. Qed.

Lemma scaled_positive e v :
  100 ≤ scale e < 2 ^ 32 → 0 < v → v * scale e < 2 ^ 32 → 0 < scaled e v.
Proof.
  intros Hs Hv Hm. unfold scaled, u32.
  rewrite (Z.mod_small (scale e)) by lia.
  rewrite Z.mod_small by nia.
  apply Z.div_str_pos. nia.
Qed.

(** C8 (amended). On an adapter whose window carries it:
    [set_max_size] stores both values scaled in [uint32_t] arithmetic;
    for (0,0) the maximize box is on afterwards and the query leaves the
    max-track point as the system passed it; for any other pair the
    maximize box is off afterwards, and the query writes the stored
    maximum whenever that stored pair is not (0,0) -- which is so for
    every pair of non-negative values, not both 0, when the scale is at
    least 100 and neither product with the scale reaches 2^32 -- and
    leaves the max-track point alone when the stored pair is (0,0); in
    all cases the query writes the stored minimum and answers 0. *)
Theorem max_size_sentinel (width height : Z) (s : State) :
  userdata (world s) = true →
  let s1 := (set_max_size width height s).2 in
  let s2 := (size_constraints_query s1).2 in
  maxSize (edge s1) = {| width := scaled (edge s) width; height := scaled (edge s) height |} ∧
  (width = 0 ∧ height = 0 →
     has_maximize_box s1 ∧
     ptMaxTrackSize (minmaxinfo (world s2)) = ptMaxTrackSize (minmaxinfo (world s))) ∧
  (¬ (width = 0 ∧ height = 0) →
     ¬ has_maximize_box s1 ∧
     (¬ (scaled (edge s) width = 0 ∧ scaled (edge s) height = 0) → max_track_written s2) ∧
     (scaled (edge s) width = 0 ∧ scaled (edge s) height = 0 →
        ptMaxTrackSize (minmaxinfo (world s2)) = ptMaxTrackSize (minmaxinfo (world s))) ∧
     (100 ≤ scale (edge s) < 2 ^ 32 → 0 ≤ width → 0 ≤ height →
      width * scale (edge s) < 2 ^ 32 → height * scale (edge s) < 2 ^ 32 →
      max_track_written s2)) ∧
  min_track_written s2 ∧
  minSize (edge s2) = minSize (edge s) ∧
  (size_constraints_query s1).1 = Returned 0.
Proof.
  intros Hu. cbv zeta.
  pose proof (set_max_size_style width height s) as Hstyle.
  pose proof (set_max_size_edge width height s) as Hedge.
  pose proof (set_max_size_world width height s) as Hworld.
  set (s1 := (set_max_size width height s).2) in *.
  assert (Hu1 : userdata (world s1) = true).
  { rewrite <- Hu, <- Hworld. done. }
  assert (Hmm : minmaxinfo (world s1) = minmaxinfo (world s)).
  { rewrite <- Hworld. done. }
  rewrite (size_constraints_query_spec s1 Hu1).
  unfold max_track_written, min_track_written, has_maximize_box.
  cbn [fst snd edge world minmaxinfo set_minmaxinfo].
  rewrite Hedge. cbn [maxSize minSize set_maxSize Edge.width Edge.height].
  rewrite Hmm.
  assert (Hwritten : ¬ (scaled (edge s) width = 0 ∧ scaled (edge s) height = 0) →
    ptMaxTrackSize
      (let m := set_ptMinTrackSize
                  {| x := to_LONG (Edge.width (minSize (edge s)));
                     y := to_LONG (Edge.height (minSize (edge s))) |} (minmaxinfo (world s)) in
       if (scaled (edge s) width =? 0) && (scaled (edge s) height =? 0) then m
       else set_ptMaxTrackSize {| x := to_LONG (scaled (edge s) width);
                                  y := to_LONG (scaled (edge s) height) |} m)
    = {| x := to_LONG (scaled (edge s) width); y := to_LONG (scaled (edge s) height) |}).
  { intros Hnz. cbv zeta.
    destruct (Z.eqb_spec (scaled (edge s) width) 0) as [Hw|Hw];
      destruct (Z.eqb_spec (scaled (edge s) height) 0) as [Hh|Hh]; simpl; tauto. }
  assert (Hkept : scaled (edge s) width = 0 ∧ scaled (edge s) height = 0 →
    ptMaxTrackSize
      (let m := set_ptMinTrackSize
                  {| x := to_LONG (Edge.width (minSize (edge s)));
                     y := to_LONG (Edge.height (minSize (edge s))) |} (minmaxinfo (world s)) in
       if (scaled (edge s) width =? 0) && (scaled (edge s) height =? 0) then m
       else set_ptMaxTrackSize {| x := to_LONG (scaled (edge s) width);
                                  y := to_LONG (scaled (edge s) height) |} m)
    = ptMaxTrackSize (minmaxinfo (world s))).
  { intros [-> ->]. done. }
  split; [done|]. split; [|split].
  - intros [-> ->]. split.
    + apply has_box_testbit. by rewrite Hstyle.
    + apply Hkept. by rewrite !scaled_zero.
  - intros Hne. split; [|split; [done|split; [done|]]].
    + rewrite has_box_testbit, Hstyle.
      destruct (Z.eqb_spec width 0); destruct (Z.eqb_spec height 0); simpl; try done; tauto.
    + intros Hs Hw Hh Hmw Hmh. apply Hwritten. intros [Hzw Hzh].
      destruct (decide (width = 0)) as [->|Hw0].
      * destruct (decide (height = 0)) as [->|Hh0]; [tauto|].
        pose proof (scaled_positive (edge s) height Hs ltac:(lia) Hmh). lia.
      * pose proof (scaled_positive (edge s) width Hs ltac:(lia) Hmw). lia.
  - split; [|done].
    cbv zeta. by destruct ((scaled (edge s) width =? 0) && (scaled (edge s) height =? 0)).
Qed.

End Sizes.

Lemma max_size_sentinel_witness :
  userdata (world ready) = true ∧
  max_track_written
    (size_constraints_query
       (set_max_size 1280 720 ready).2).2.
Proof.
  split; [reflexivity|].
  refine (proj2 (proj2 (proj2 (proj1 (proj2 (proj2
    (max_size_sentinel 1280 720 ready eq_refl))) _))) _ _ _ _ _);
    vm_compute; intuition congruence.
Defined.

(** At scale 100 the pair (42949673, 0) is stored as (0, 0): the
    product 4294967300 wraps to 4.  The maximize box goes off, yet the
    query leaves the system's max-track point (1940, 1100) in place. *)
Lemma max_size_clamp_lost_by_wrap :
  maxSize (edge (set_max_size 42949673 0 ready).2)
    = {| width := 0; height := 0 |} ∧
  ptMaxTrackSize (minmaxinfo (world
    (size_constraints_query
       (set_max_size 42949673 0 ready).2).2))
    = {| x := 1940; y := 1100 |} ∧
  ¬ max_size_clamps 42949673 0 ready.
Proof.
  split; [vm_compute; reflexivity|]. split; [vm_compute; reflexivity|].
  intros [_ Hw]. vm_compute in Hw. discriminate.
Qed.

Section Messages.
Context `{platform : Platform}.

(** C1. For every message the engine hands out as a string that reads,
    under both JSON libraries, as an object with an unsigned 64-bit
    [index] and a string [func]: the handler returns [S_OK] and changes
    nothing but the log; if a pair is registered under exactly [func],
    its handler is invoked once, with [index] and the serialized [args]
    member (null when absent); if none is registered, no callback is
    invoked.  In both cases the buffer is freed afterwards. *)
Theorem message_dispatched_by_name
    (args : WebMessageReceivedEventArgs) (hr : HRESULT) (text func : string)
    (index : N) (payload : json) (s : State) :
  TryGetWebMessageAsString args = (hr, text) →
  FAILED hr = false →
  well_formed_message text index func payload →
  webviewMessageReceived args s =
  (Returned S_OK,
   {| edge := edge s;
      world := world s;
      log := log s ++
             match callbacks (edge s) !! func with
             | Some found => [InvokeCallback found.1 index (json_dump payload)]
             | None => []
             end ++ [CoTaskMemFree] |}).
Proof.
  intros Hargs Hhr (Hi & Hf & doc & Hdoc & Hdi & Hdf & Hda).
  unfold webviewMessageReceived, toString. rewrite Hargs. unfold_monad. rewrite Hhr, Hi, Hf.
  unfold parse, mret, M_ret. rewrite Hdoc.
  assert (Hbound : (index <= UINT64_MAX)%N).
  { unfold get_uint64 in Hi.
    destruct (find_field "index" (simdjson_iterate text)) as [[]|]; try discriminate.
    destruct (N.leb_spec n UINT64_MAX); [congruence|discriminate]. }
  destruct doc as [| | | | | | |members]; try discriminate.
  simpl in Hdi, Hdf, Hda. unfold at_key, get_uint64_t, get_std_string, mret, M_ret.
  rewrite Hdi, Hdf. simpl.
  rewrite N.mod_small by (unfold UINT64_MAX in Hbound; lia).
  rewrite Hda.
  destruct (callbacks (edge s) !! func) as [found|]; simpl.
  - by rewrite <- app_assoc.
  - done.
Qed.

(** A companion of C1: when the adapter's first reader accepts a text
    that [json::parse] rejects, the exception of the second parse leaves
    the handler. *)
Lemma message_second_parse_throws
    (args : WebMessageReceivedEventArgs) (hr : HRESULT) (text func : string) (index : N) (s : State) :
  TryGetWebMessageAsString args = (hr, text) →
  FAILED hr = false →
  get_uint64 (find_field "index" (simdjson_iterate text)) = value index →
  get_string (find_field "func" (simdjson_iterate text)) = value func →
  json_parse text = None →
  webviewMessageReceived args s = (Thrown json_parse_error, s).
Proof.
  intros Hargs Hhr Hi Hf Hp.
  unfold webviewMessageReceived, toString. rewrite Hargs. unfold_monad. rewrite Hhr, Hi, Hf.
  unfold parse. by rewrite Hp.
Qed.

(** C2 (amended). For every message the engine hands out as a string in
    which the adapter's reader finds no unsigned [index] or no string
    [func], the handler returns [S_OK] and leaves the adapter, its
    surroundings and the log as they were: no callback, no exception. *)
Theorem malformed_message_ignored
    (args : WebMessageReceivedEventArgs) (hr : HRESULT) (text : string) (s : State) :
  TryGetWebMessageAsString args = (hr, text) →
  FAILED hr = false →
  malformed_message text →
  webviewMessageReceived args s = (Returned S_OK, s) ∧ tolerated args s.
Proof.
  intros Hargs Hhr Hbad.
  assert (Hret : webviewMessageReceived args s = (Returned S_OK, s)).
  { unfold webviewMessageReceived, toString. rewrite Hargs. unfold_monad. rewrite Hhr.
    destruct Hbad as [[e He]|[e He]].
    - by rewrite He.
    - rewrite He. by destruct (get_uint64 _). }
  split; [done|]. by exists s.
Qed.

(** The handler throws on a message the engine cannot hand out as a
    string, whatever the adapter's state. *)
Lemma message_not_a_string_throws (args : WebMessageReceivedEventArgs) (hr : HRESULT)
    (text : string) (s : State) :
  TryGetWebMessageAsString args = (hr, text) →
  FAILED hr = true →
  webviewMessageReceived args s = (Thrown (program_closed hr), s).
Proof.
  intros Hargs Hhr. unfold webviewMessageReceived, toString. rewrite Hargs. unfold_monad. by rewrite Hhr.
Qed.

End Messages.

Lemma message_dispatched_by_name_witness :
  well_formed_message add_message 7 "add" (JArray [JUnsigned 1; JUnsigned 2]) ∧
  webviewMessageReceived add_call bound =
  (Returned S_OK,
   {| edge := edge bound; world := world bound;
      log := [InvokeCallback 11 7 "[1,2]"; CoTaskMemFree] |}).
Proof.
  assert (Hwf : well_formed_message add_message 7 "add" (JArray [JUnsigned 1; JUnsigned 2])).
  { split; [reflexivity|]. split; [reflexivity|]. exists add_document. by vm_compute. }
  split; [exact Hwf|].
  exact (message_dispatched_by_name add_call S_OK add_message "add" 7 _ bound
           eq_refl eq_refl Hwf).
Defined.

Lemma malformed_message_ignored_witness :
  malformed_message no_index_message ∧
  webviewMessageReceived call_without_index bound = (Returned S_OK, bound).
Proof.
  assert (Hbad : malformed_message no_index_message).
  { left. exists NO_SUCH_FIELD. reflexivity. }
  split; [exact Hbad|].
  exact (proj1 (malformed_message_ignored call_without_index S_OK no_index_message bound
                  eq_refl eq_refl Hbad)).
Defined.

(** A page that posts an object rather than a string: the message has no
    [index] and no [func] the adapter could read, and the handler lets a
    runtime error escape instead of ignoring it. *)
Lemma posted_object_not_tolerated :
  webviewMessageReceived posted_object bound = (Thrown (program_closed E_INVALIDARG), bound) ∧
  ¬ tolerated posted_object bound.
Proof.
  assert (Hthrow : webviewMessageReceived posted_object bound
                   = (Thrown (program_closed E_INVALIDARG), bound)).
  { exact (message_not_a_string_throws posted_object E_INVALIDARG "" bound eq_refl eq_refl). }
  split; [exact Hthrow|].
  intros (s' & Hret & _). rewrite Hthrow in Hret. discriminate.
Qed.

(** *** What a computation adds to the log *)

Section Logs.
Context `{platform : Platform}.
Context (P : Call → Prop).

Lemma logs_ret {A} (a : A) : logs P (mret a).
Proof. intros s. exists []. by rewrite app_nil_r. Qed.

Lemma logs_throw {A} e : logs P (throw (A := A) e).
Proof. intros s. exists []. by rewrite app_nil_r. Qed.

Lemma logs_wait {A} : logs P (wait (A := A)).
Proof. intros s. exists []. by rewrite app_nil_r. Qed.

Lemma logs_get : logs P get.
Proof. intros s. exists []. by rewrite app_nil_r. Qed.

Lemma logs_modify_edge f : logs P (modify_edge f).
Proof. intros s. exists []. by rewrite app_nil_r. Qed.

Lemma logs_modify_world f : logs P (modify_world f).
Proof. intros s. exists []. by rewrite app_nil_r. Qed.

Lemma logs_record c : P c → logs P (record c).
Proof. intros Hc s. exists [c]. split; [done|]. by constructor. Qed.

Lemma logs_bind {A B} (c : M A) (f : A → M B) :
  logs P c → (∀ a, logs P (f a)) → logs P (c ≫= f).
Proof.
  intros Hc Hf s. unfold mbind, M_bind.
  destruct (Hc s) as (l1 & H1 & HP1).
  destruct (c s) as [[a|e|] s1]; simpl in *.
  - destruct (Hf a s1) as (l2 & H2 & HP2).
    exists (l1 ++ l2). rewrite H2, H1, app_assoc. split; [done|]. by apply Forall_app.
  - by exists l1.
  - by exists l1.
Qed.

Lemma logs_call c : P c → logs P (call c).
Proof.
  intros Hc. unfold call. apply logs_bind; [apply logs_get|]. intros s.
  apply logs_bind; [by apply logs_record|]. intros _. apply logs_ret.
Qed.

Lemma logs_throwIfFailed hr : logs P (throwIfFailed hr).
Proof. unfold throwIfFailed. destruct (FAILED hr); [apply logs_throw|apply logs_ret]. Qed.

Lemma logs_THROW_IF_FAILED hr : logs P (THROW_IF_FAILED hr).
Proof. unfold THROW_IF_FAILED. destruct (FAILED hr); [apply logs_throw|apply logs_ret]. Qed.

Lemma logs_deref p : logs P (deref p).
Proof. unfold deref. destruct p; [apply logs_ret|apply logs_throw]. Qed.

End Logs.

(** Decompose a computation along its binds and branches; what is left
    are the side conditions on the recorded calls. *)
Ltac logs_step :=
  first
    [ assumption
    | match goal with
      | H : ∀ _, logs _ (?f _) |- logs _ (?f _) => apply H
      | H : ∀ _ _, logs _ (?f _ _) |- logs _ (?f _ _) => apply H
      end
    | apply logs_bind; [|intros ?]
    | apply logs_ret | apply logs_throw | apply logs_wait | apply logs_get
    | apply logs_modify_edge | apply logs_modify_world
    | apply logs_throwIfFailed | apply logs_THROW_IF_FAILED | apply logs_deref
    | apply logs_record | apply logs_call
    | match goal with
      | |- logs _ (match ?x with _ => _ end) => destruct x
      | |- logs _ (if ?b then _ else _) => destruct b
      end ].

Ltac logs_auto := repeat logs_step.

Section HandlerLogs.
Context `{platform : Platform}.
Context (P : Call → Prop) (HP : ∀ c, ordinary c = true → P c).

Ltac ordinary_calls := logs_auto; try (apply HP; reflexivity).

Lemma logs_windowProcedure msg : logs P (windowProcedure msg).
Proof. unfold windowProcedure. ordinary_calls. Qed.

Lemma logs_webviewNavigationComplete : logs P webviewNavigationComplete.
Proof. unfold webviewNavigationComplete. ordinary_calls. Qed.

Lemma logs_webviewMessageReceived args : logs P (webviewMessageReceived args).
Proof.
  unfold webviewMessageReceived, parse, at_key, get_uint64_t, get_std_string.
  ordinary_calls.
Qed.

Lemma logs_environment_completed hr created : logs P (environment_completed hr created).
Proof. unfold environment_completed. ordinary_calls. Qed.

Lemma logs_controller_completed hr created : logs P (controller_completed hr created).
Proof. unfold controller_completed. ordinary_calls. Qed.

Lemma logs_dispatch msg : logs P (dispatch msg).
Proof.
  unfold dispatch.
  pose proof logs_windowProcedure. pose proof logs_webviewNavigationComplete.
  pose proof logs_webviewMessageReceived. pose proof logs_environment_completed.
  pose proof logs_controller_completed.
  ordinary_calls.
Qed.

Lemma logs_pump polls : logs P (pump polls).
Proof.
  induction polls as [|poll rest IH]; simpl.
  - ordinary_calls.
  - pose proof logs_dispatch. ordinary_calls.
Qed.

End HandlerLogs.

(** *** The message loop *)

Section Loop.
Context `{platform : Platform}.

Lemma served_app l1 l2 : served (l1 ++ l2) = served l1 ++ served l2.
Proof. unfold served. by rewrite flat_map_app. Qed.

Lemma set_main_queue_twice a b e : set_main_queue a (set_main_queue b e) = set_main_queue a e.
Proof. done. Qed.

Lemma set_producers_twice a b w : set_producers a (set_producers b w) = set_producers a w.
Proof. done. Qed.

(** Draining serves the queue in order, then the items that arrived
    meanwhile, and stops on an empty queue; the fuel never runs out. *)
Lemma drain_serves fuel s :
  (length (main_queue (edge s)) + length (concat (producers (world s))) < fuel)%nat →
  ∃ items,
    items = main_queue (edge s) ++ concat (take (length items) (producers (world s))) ∧
    drain fuel s =
    (Returned tt,
     {| edge := set_main_queue [] (edge s);
        world := set_producers (drop (length items) (producers (world s))) (world s);
        log := log s ++ served items |}).
Proof.
  revert s. induction fuel as [|fuel IH]; intros [e w l] Hfuel; [simpl in Hfuel; lia|].
  cbn [edge world log] in *. destruct (main_queue e) as [|element rest] eqn:Hq.
  - exists []. split; [done|].
    simpl. unfold_monad. simpl. rewrite Hq. rewrite app_nil_r.
    destruct e, w; simpl in *; by subst.
  - simpl. unfold run_work_item. unfold_monad. simpl. rewrite Hq.
    destruct (producers w) as [|arrived later] eqn:Hp; simpl; rewrite ?Hp; simpl;
      rewrite ?set_main_queue_twice.
    + edestruct (IH {| edge := set_main_queue rest e; world := w;
                       log := (l ++ [RunWorkItem element.1]) ++ [DeleteResource element.2] |})
        as (items & Hitems & Hrun).
      { simpl. rewrite Hp. simpl in *. lia. }
      simpl in Hitems, Hrun. rewrite Hp in Hitems, Hrun. rewrite set_main_queue_twice in Hrun.
      rewrite take_nil in Hitems. simpl in Hitems. rewrite app_nil_r in Hitems. subst items.
      exists (element :: rest). split.
      { by rewrite take_nil, app_nil_r. }
      rewrite Hrun. rewrite !drop_nil. f_equal. f_equal.
      simpl. by rewrite <- !app_assoc.
    + edestruct (IH {| edge := set_main_queue (rest ++ arrived) e;
                       world := set_producers later w;
                       log := (l ++ [RunWorkItem element.1]) ++ [DeleteResource element.2] |})
        as (items & Hitems & Hrun).
      { simpl. simpl in Hfuel. rewrite length_app in *. lia. }
      simpl in Hitems, Hrun. rewrite set_main_queue_twice in Hrun.
      exists (element :: items). split.
      { simpl. f_equal. rewrite Hitems at 1. by rewrite <- app_assoc. }
      rewrite Hrun. simpl. rewrite set_producers_twice. f_equal. f_equal.
      by rewrite <- !app_assoc.
Qed.

(** The branch taken when no native message is pending. *)
Lemma when_idle_serves s :
  ∃ items,
    items = main_queue (edge s) ++ concat (take (length items) (producers (world s))) ∧
    when_idle s =
    (Returned tt,
     {| edge := set_main_queue [] (edge s);
        world := set_producers (drop (length items) (producers (world s))) (world s);
        log := log s ++ served items ++ idle_call (edge s) |}).
Proof.
  destruct (drain_serves (drain_fuel s) s) as (items & Hitems & Hrun).
  { unfold drain_fuel. lia. }
  exists items. split; [done|].
  unfold when_idle. unfold_monad. rewrite Hrun. simpl. unfold idle_call.
  destruct (idle (edge s)) as [[handler|] data]; simpl.
  - by rewrite <- app_assoc.
  - by rewrite !app_nil_r.
Qed.

End Loop.

Section LoopIterations.
Context `{platform : Platform}.

Lemma ordinary_not_queue c : ordinary c = true → serves_queue c = false.
Proof. by destruct c. Qed.

Lemma default_case_quiet msg : logs (λ c, serves_queue c = false) (default_case msg).
Proof.
  unfold default_case.
  pose proof (logs_dispatch _ ordinary_not_queue).
  logs_auto. done.
Qed.

(** C6. One iteration of the running loop, for every poll of the native
    queue and every state.
    - No message pending: the work queue is served from the front, each
      action run and its pointer deleted, followed in arrival order by
      the items producers appended meanwhile; the drain always ends, on
      an empty queue; then the idle callback is called once if one is
      registered and not at all otherwise; the loop goes on.
    - A message other than [WM_QUIT]: it is handled by the [default]
      case, which runs no work item and no idle callback; the loop goes
      on unless the handling threw.
    - [WM_QUIT]: the loop returns at once, leaving the later polls. *)
Theorem message_loop_iteration (poll : option MSG) (rest : list (option MSG)) (s : State) :
  match poll with
  | None =>
      ∃ items after,
        items = main_queue (edge s) ++ concat (take (length items) (producers (world s))) ∧
        after = {| edge := set_main_queue [] (edge s);
                   world := set_producers (drop (length items) (producers (world s)))
                              (set_inbox rest (world s));
                   log := log s ++ served items ++ idle_call (edge s) |} ∧
        when_idle (polled rest s) = (Returned tt, after) ∧
        message_loop (None :: rest) s = message_loop rest after
  | Some msg =>
      if message msg =? WM_QUIT then
        message_loop (Some msg :: rest) s = (Returned tt, polled rest s)
      else
        ∃ result after added,
          default_case msg (polled rest s) = (result, after) ∧
          log after = log s ++ added ∧
          Forall (λ c, serves_queue c = false) added ∧
          message_loop (Some msg :: rest) s =
            match result with
            | Returned _ => message_loop rest after
            | Thrown e => (Thrown e, after)
            | Waiting => (Waiting, after)
            end
  end.
Proof.
  destruct poll as [msg|].
  - destruct (message msg =? WM_QUIT) eqn:Hq.
    + simpl. unfold_monad. by rewrite Hq.
    + destruct (default_case_quiet msg (polled rest s)) as (added & Hlog & Hquiet).
      assert (Hloop : message_loop (Some msg :: rest) s
                      = (default_case msg;; message_loop rest) (polled rest s)).
      { simpl. unfold default_case. unfold_monad. by rewrite Hq. }
      destruct (default_case msg (polled rest s)) as [result after] eqn:Hcase.
      exists result, after, added. split; [done|]. split; [exact Hlog|]. split; [exact Hquiet|].
      rewrite Hloop. unfold mbind, M_bind. rewrite Hcase. by destruct result.
  - destruct (when_idle_serves (polled rest s)) as (items & Hitems & Hrun).
    eexists items, _. split; [exact Hitems|]. split; [reflexivity|]. split; [exact Hrun|].
    change (message_loop (None :: rest) s) with ((when_idle;; message_loop rest) (polled rest s)).
    unfold mbind, M_bind. by rewrite Hrun.
Qed.

End LoopIterations.

(** The loop on [busy]: nothing pending, then a [WM_SIZE] for the
    window, nothing pending again, then [WM_QUIT]. *)
Example message_loop_on_busy :
  message_loop [None; Some size_message; None; Some quit_message; None] busy =
  (Returned tt,
   {| edge := set_main_queue [] (edge busy);
      world := set_inbox [None] (set_producers [] (world busy));
      log := [RunWorkItem 21; DeleteResource (Some 31%N);
              RunWorkItem 22; DeleteResource None;
              RunWorkItem 23; DeleteResource (Some 33%N);
              CallIdle 5;
              TranslateMessage size_message; DispatchMessage size_message;
              GetClientRect; put_Bounds (client (world busy)); DefWindowProc WM_SIZE;
              CallIdle 5] |}).
Proof. vm_compute. reflexivity. Qed.

(** *** Edge::run and the constructor *)

Section Growth.
Context `{platform : Platform}.

Lemma logs_run_work_item action : logs any_call (run_work_item action).
Proof. unfold run_work_item. logs_auto; done. Qed.

Lemma logs_drain fuel : logs any_call (drain fuel).
Proof.
  induction fuel as [|fuel IH]; simpl; [apply logs_wait|].
  pose proof logs_run_work_item. logs_auto; done.
Qed.

Lemma logs_when_idle : logs any_call when_idle.
Proof. unfold when_idle. pose proof logs_drain. logs_auto; done. Qed.

Lemma logs_message_loop polls : logs any_call (message_loop polls).
Proof.
  induction polls as [|poll rest IH]; simpl; [apply logs_wait|].
  pose proof logs_when_idle.
  pose proof (logs_dispatch any_call (λ _ _, I)).
  logs_auto; done.
Qed.

Lemma logs_run_loop : logs any_call run_loop.
Proof. unfold run_loop. pose proof logs_message_loop. logs_auto; done. Qed.

Lemma logs_guarded {B} (P : Call → Prop) hr (f : unit → M B) :
  (FAILED hr = false → logs P (f tt)) → logs P (THROW_IF_FAILED hr ≫= f).
Proof.
  intros Hf. unfold THROW_IF_FAILED. destruct (FAILED hr) eqn:Hhr.
  - intros s. exists []. by rewrite app_nil_r.
  - apply logs_bind; [apply logs_ret|]. intros []. by apply Hf.
Qed.

Lemma logs_bootstrap (P : Call → Prop) debug_mode :
  (∀ c, ordinary c = true → P c) → logs P (bootstrap debug_mode).
Proof.
  intros HP. unfold bootstrap. pose proof (logs_pump P HP).
  logs_auto; by apply HP.
Qed.

(** C7. [run] navigates to the url as it is when it starts with
    [http://] or [https://], and to [file:///] followed by the generic
    form of the url appended to the current directory in every other
    case; so [https://example.com] is kept and [index.html] becomes the
    file url of [index.html] under the current directory.  On an
    adapter that has its page, once the shim is registered, the
    navigation is the next call [run] makes. *)
Theorem run_classifies_url (url_path : string) (s : State) :
  (String.prefix "http://" url_path || String.prefix "https://" url_path = true →
     navigation_target url_path = url_path) ∧
  (String.prefix "http://" url_path || String.prefix "https://" url_path = false →
     navigation_target url_path
     = "file:///" +:+ generic_string (path_append current_path url_path)) ∧
  navigation_target "https://example.com" = "https://example.com"%string ∧
  navigation_target "index.html"
    = "file:///" +:+ generic_string (path_append current_path "index.html") ∧
  (webview (edge s) ≠ None →
   FAILED (answer (log s) AddScriptToExecuteOnDocumentCreated) = false →
   ∃ later, log (run url_path s).2
            = log s ++ [AddScriptToExecuteOnDocumentCreated;
                        Navigate (navigation_target url_path)] ++ later).
Proof.
  split; [|split; [|split; [|split]]].
  - unfold navigation_target. by intros ->.
  - unfold navigation_target. by intros ->.
  - done.
  - done.
  - intros Hw Hf. destruct (webview (edge s)) as [w|] eqn:Hweb; [|done].
    assert (Hrun : run url_path s =
                   (THROW_IF_FAILED
                      (answer (log s ++ [AddScriptToExecuteOnDocumentCreated])
                              (Navigate (navigation_target url_path)));; run_loop)
                     {| edge := edge s; world := world s;
                        log := (log s ++ [AddScriptToExecuteOnDocumentCreated])
                               ++ [Navigate (navigation_target url_path)] |}).
    { unfold run. unfold mbind at 1 2 3 4 5. unfold M_bind, call, get, deref, record, mret, M_ret,
        THROW_IF_FAILED at 1. simpl. rewrite Hweb. unfold mbind at 1 2. unfold M_bind. simpl.
      rewrite Hf. simpl. done. }
    rewrite Hrun.
    set (hr := answer (log s ++ [AddScriptToExecuteOnDocumentCreated])
                      (Navigate (navigation_target url_path))).
    set (s2 := {| edge := edge s; world := world s;
                  log := (log s ++ [AddScriptToExecuteOnDocumentCreated])
                         ++ [Navigate (navigation_target url_path)] |}).
    destruct (logs_bind any_call (THROW_IF_FAILED hr) (λ _, run_loop)
                (logs_THROW_IF_FAILED any_call hr) (λ _, logs_run_loop) s2)
      as (later & Hlater & _).
    rewrite Hlater. simpl. exists later. by rewrite <- !app_assoc.
Qed.

End Growth.

Lemma run_classifies_url_witness :
  navigation_target "index.html" = "file:///C:/app/index.html"%string ∧
  ∃ later, log (run "index.html" ready).2
           = [AddScriptToExecuteOnDocumentCreated; Navigate "file:///C:/app/index.html"] ++ later.
Proof.
  split; [reflexivity|].
  exact (proj2 (proj2 (proj2 (proj2 (run_classifies_url "index.html" ready))))
           ltac:(discriminate) eq_refl).
Defined.

Section Construction.
Context `{platform : Platform}.

Lemma other_calls_create_nothing c : ordinary c = true → creates_without_web_security c.
Proof. intros Ho folder options ->. discriminate. Qed.

Lemma constructor_logs app_name title width height resizeable debug_mode :
  logs creates_without_web_security
       (Edge_constructor app_name title width height resizeable debug_mode).
Proof.
  unfold Edge_constructor.
  pose proof (logs_bootstrap creates_without_web_security debug_mode other_calls_create_nothing).
  repeat first
    [ assumption
    | apply logs_guarded; intros ?
    | progress cbv zeta
    | logs_step ];
    try (apply other_calls_create_nothing; reflexivity).
  intros folder options [= _ <-].
  by match goal with H : FAILED _ = false |- _ => rewrite H end.
Qed.

Lemma constructor_requests_environment app_name title width height resizeable debug_mode s s' :
  Edge_constructor app_name title width height resizeable debug_mode s = (Returned tt, s') →
  ∃ after, log s' = log s ++ construction_prefix title width height resizeable
                           ++ [environment_request app_name] ++ after.
Proof.
  intros Hret. unfold Edge_constructor, call, THROW_IF_FAILED in Hret.
  unfold mbind, M_bind, mret, M_ret, throw, get, modify_edge, modify_world, record in Hret.
  cbn -[bootstrap Z.lor] in Hret.
  repeat match type of Hret with
         | context [if ?b then _ else _] =>
             destruct b eqn:?; cbn -[bootstrap Z.lor] in Hret; try discriminate
         | context [match created_window with _ => _ end] =>
             destruct created_window eqn:?; cbn -[bootstrap Z.lor] in Hret; try discriminate
         | context [match runtime_version with _ => _ end] =>
             destruct runtime_version eqn:?; cbn -[bootstrap Z.lor] in Hret; try discriminate
         end.
  all: match type of Hret with
       | bootstrap _ ?sk = _ =>
           destruct (logs_bootstrap any_call debug_mode (λ _ _, I) sk) as (after & Hafter & _)
       end.
  all: rewrite Hret in Hafter; cbn [snd log] in Hafter.
  all: exists after; rewrite Hafter; rewrite <- !app_assoc; reflexivity.
Qed.

(** C10. Whatever the arguments of the constructor, [debug_mode]
    included, and whatever the system answers: every request for an
    environment the constructor makes carries the additional browser
    argument [--disable-web-security], and a construction that
    completes has made that request, for the folder of the application
    under [APPDATA], right after setting the argument on the options. *)
Theorem environment_created_without_web_security
    (app_name title : string) (width height : Z) (resizeable debug_mode : bool) (s : State) :
  logs creates_without_web_security
       (Edge_constructor app_name title width height resizeable debug_mode) ∧
  ∀ s', Edge_constructor app_name title width height resizeable debug_mode s = (Returned tt, s') →
        ∃ after, log s' = log s ++ construction_prefix title width height resizeable
                             ++ [environment_request app_name] ++ after.
Proof.
  split; [apply constructor_logs|].
  intros s'. apply constructor_requests_environment.
Qed.

End Construction.

(** A construction on [desktop], in debug mode and without it: the same
    calls up to the two settings. *)
Example construction_on_desktop (debug_mode : bool) :
  (Edge_constructor "demo" "Demo" 800 600 true debug_mode fresh).1 = Returned tt ∧
  log (Edge_constructor "demo" "Demo" 800 600 true debug_mode fresh).2 =
  construction_prefix "Demo" 800 600 true ++
  [environment_request "demo";
   TranslateMessage {| hwnd := Some 9%N; message := 1024;
                       delivery := EnvironmentCompleted S_OK (Some 2%N) |};
   DispatchMessage {| hwnd := Some 9%N; message := 1024;
                      delivery := EnvironmentCompleted S_OK (Some 2%N) |};
   CreateCoreWebView2Controller;
   TranslateMessage {| hwnd := Some 9%N; message := 1024;
                       delivery := ControllerCompleted S_OK (Some 3%N) |};
   DispatchMessage {| hwnd := Some 9%N; message := 1024;
                      delivery := ControllerCompleted S_OK (Some 3%N) |};
   get_CoreWebView2; add_NavigationCompleted; add_WebMessageReceived; get_Settings;
   put_AreDevToolsEnabled debug_mode; put_AreDefaultContextMenusEnabled debug_mode].
Proof. destruct debug_mode; vm_compute; done. Qed.

Lemma environment_created_without_web_security_witness :
  ∃ after, log (Edge_constructor "demo" "Demo" 800 600 true false fresh).2
           = construction_prefix "Demo" 800 600 true ++ [environment_request "demo"] ++ after.
Proof.
  refine (proj2 (environment_created_without_web_security "demo" "Demo" 800 600 true false fresh)
            (Edge_constructor "demo" "Demo" 800 600 true false fresh).2 _).
  vm_compute. reflexivity.
Defined.

(** *** The facade *)

Section Binding.
Context `{platform : Platform}.

(** [App::bind] returns without touching the adapter: the registry, the
    rest of the state and the log are what they were. *)
Lemma bind_registers_nothing (name : string) (callback : N) (s : State) :
  App.bind name callback s = (Returned tt, s).
Proof. done. Qed.

End Binding.

(** C9, on the code: after [bind("add", 11)] on an adapter without
    callbacks, nothing is registered under [add], and the well-formed
    message calling [add] invokes no handler: the buffer is freed and
    that is all. *)
Lemma bind_then_message_invokes_nothing :
  callbacks (edge (App.bind "add" 11 ready).2) !! "add"%string = None ∧
  webviewMessageReceived add_call (App.bind "add" 11 ready).2 =
  (Returned S_OK, {| edge := edge ready; world := world ready; log := [CoTaskMemFree] |}).
Proof. split; vm_compute; reflexivity. Qed.

(** *** Further properties of the window procedure and the sizes *)

Section WindowProcedure.
Context `{platform : Platform}.

(** X5. The window procedure returns for every message and every
    state: it never throws and never waits.  It changes no member of
    the adapter, and of the surroundings nothing but the structure a
    size-constraints query points to.  For a window that does not carry
    the adapter it only calls [DefWindowProc]; a [WM_SIZE] that comes
    before the controller exists is answered 0 with no call at all, a
    later one hands the client rectangle to the controller; a
    [WM_DESTROY] posts the quit message before the default handling;
    the size-constraints query makes no call and answers 0. *)
Theorem window_procedure_frame (msg : Z) (s : State) :
  ∃ result s',
    windowProcedure msg s = (Returned result, s') ∧
    edge s' = edge s ∧
    set_minmaxinfo (minmaxinfo (world s)) (world s') = world s ∧
    (msg ≠ WM_GETMINMAXINFO → world s' = world s) ∧
    (userdata (world s) = false →
       world s' = world s ∧ log s' = log s ++ [DefWindowProc msg]) ∧
    (userdata (world s) = true →
       (msg = WM_DESTROY → log s' = log s ++ [PostQuitMessage 0; DefWindowProc msg]) ∧
       (msg = WM_SIZE → controller (edge s) = None → result = 0 ∧ s' = s) ∧
       (msg = WM_SIZE → controller (edge s) ≠ None →
          log s' = log s ++ [GetClientRect; put_Bounds (client (world s)); DefWindowProc msg]) ∧
       (msg = WM_GETMINMAXINFO → result = 0 ∧ log s' = log s) ∧
       (msg ≠ WM_DESTROY → msg ≠ WM_SIZE → msg ≠ WM_GETMINMAXINFO →
          log s' = log s ++ [DefWindowProc msg])).
Proof.
  destruct s as [e w l]. unfold windowProcedure. unfold_monad. cbn [edge world log].
  destruct (userdata w) eqn:Hu; cbn [negb].
  2:{ eexists _, _. split; [reflexivity|]. cbn [edge world log].
      repeat split; try done; by destruct w. }
  destruct (Z.eqb_spec msg WM_DESTROY) as [->|Hd].
  { eexists _, _. split; [reflexivity|]. cbn [edge world log].
    split; [done|]. split; [by destruct w|]. split; [done|]. split; [done|].
    intros _. rewrite <- app_assoc. repeat split; try done. }
  destruct (Z.eqb_spec msg WM_SIZE) as [->|Hs].
  { destruct (controller e) as [c|] eqn:Hc.
    - eexists _, _. split; [reflexivity|]. cbn [edge world log].
      split; [done|]. split; [by destruct w|]. split; [done|]. split; [done|].
      intros _. rewrite <- !app_assoc. repeat split; try done.
    - eexists _, _. split; [reflexivity|]. cbn [edge world log].
      split; [done|]. split; [by destruct w|]. split; [done|]. split; [done|].
      intros _. repeat split; try done. }
  destruct (Z.eqb_spec msg WM_GETMINMAXINFO) as [->|Hg].
  { destruct (negb _); eexists _, _; (split; [reflexivity|]); cbn [edge world log];
      (split; [done|]); (split; [by destruct w|]); (split; [done|]); (split; [done|]);
      intros _; repeat split; try done. }
  eexists _, _. split; [reflexivity|]. cbn [edge world log].
  split; [done|]. split; [by destruct w|]. split; [done|]. split; [done|].
  intros _. repeat split; try done.
Qed.

End WindowProcedure.

Section SizeSetters.
Context `{platform : Platform}.

Lemma set_max_size_returns width height s : (set_max_size width height s).1 = Returned tt.
Proof.
  unfold set_max_size, GetWindowLong, SetWindowLong. unfold_monad. simpl.
  destruct ((width =? 0) && (height =? 0)); simpl;
    destruct (Z.land _ _ =? 0); simpl; done.
Qed.

(** What a run of [set_max_size] calls leaves alone. *)
Lemma max_size_calls_keep pairs s :
  let s' := (max_size_calls pairs s).2 in
  (max_size_calls pairs s).1 = Returned tt ∧
  scale (edge s') = scale (edge s) ∧
  minSize (edge s') = minSize (edge s) ∧
  userdata (world s') = userdata (world s) ∧
  minmaxinfo (world s') = minmaxinfo (world s).
Proof.
  revert s. induction pairs as [|[width height] rest IH]; intros s; [done|].
  cbn [max_size_calls]. unfold mbind, M_bind.
  pose proof (set_max_size_returns width height s) as Hr.
  pose proof (set_max_size_edge width height s) as He.
  pose proof (set_max_size_world width height s) as Hw.
  destruct (set_max_size width height s) as [r s1]. cbn [fst snd] in *. subst r.
  destruct (IH s1) as (H1 & H2 & H3 & H4 & H5). cbv zeta.
  split; [done|]. rewrite H2, H3, H4, H5, He, <- Hw. done.
Qed.

Lemma scaled_exact e v :
  0 ≤ scale e → 0 ≤ v → v * scale e < 2 ^ 32 → scaled e v = v * scale e / 100.
Proof.
  intros Hs Hv Hm. unfold scaled, u32.
  destruct (Z.eq_dec v 0) as [->|Hv0]; [done|].
  rewrite (Z.mod_small (scale e)) by nia.
  by rewrite Z.mod_small by nia.
Qed.

(** X6. [set_min_size] stores both values scaled by the monitor's
    scale in [uint32_t] arithmetic (the product divided by 100, rounded
    down, when it does not wrap), makes no system call and changes
    nothing else; it commutes with [set_max_size].  The stored minimum
    survives every later sequence of [set_max_size] calls: the next
    size-constraints query on the adapter's window writes it as the
    minimum track size.  No order between minimum and maximum is
    checked by either setter. *)
Theorem min_size_survives (width height : Z) (pairs : list (Z * Z)) (s : State) :
  userdata (world s) = true →
  let stored := {| Edge.width := scaled (edge s) width; Edge.height := scaled (edge s) height |} in
  let s1 := (set_min_size width height s).2 in
  let s2 := (max_size_calls pairs s1).2 in
  let s3 := (size_constraints_query s2).2 in
  set_min_size width height s
    = (Returned tt, {| edge := set_minSize stored (edge s); world := world s; log := log s |}) ∧
  (∀ w h, (set_min_size width height;; set_max_size w h) s
          = (set_max_size w h;; set_min_size width height) s) ∧
  minSize (edge s2) = stored ∧
  ptMinTrackSize (minmaxinfo (world s3))
    = {| x := to_LONG (scaled (edge s) width); y := to_LONG (scaled (edge s) height) |} ∧
  (0 ≤ scale (edge s) → 0 ≤ width → width * scale (edge s) < 2 ^ 32 →
     scaled (edge s) width = width * scale (edge s) / 100).
Proof.
  intros Hu. cbv zeta.
  split; [done|]. split.
  { intros w h. unfold set_min_size, set_max_size, GetWindowLong, SetWindowLong. unfold_monad.
    simpl. destruct ((w =? 0) && (h =? 0)); simpl; destruct (Z.land _ _ =? 0); simpl; done. }
  set (s1 := (set_min_size width height s).2).
  destruct (max_size_calls_keep pairs s1) as (_ & Hscale & Hmin & Hdata & Hmm).
  set (s2 := (max_size_calls pairs s1).2) in *.
  assert (Hu2 : userdata (world s2) = true) by (by rewrite Hdata).
  split; [by rewrite Hmin|]. split; [|apply scaled_exact].
  rewrite (size_constraints_query_spec s2 Hu2). cbn [snd world minmaxinfo set_minmaxinfo].
  rewrite Hmin. cbn [s1 set_min_size modify_edge snd edge minSize set_minSize Edge.width Edge.height].
  by destruct (_ && _).
Qed.

Lemma lor_maximizebox_other z n :
  0 ≤ n < 32 → n ≠ 16 → Z.testbit (Z.lor (u32 z) WS_MAXIMIZEBOX) n = Z.testbit z n.
Proof.
  intros Hn H16. rewrite Z.lor_spec. unfold u32.
  rewrite Z.mod_pow2_bits_low by lia.
  change WS_MAXIMIZEBOX with (2 ^ 16). rewrite Z.pow2_bits_false by lia.
  apply orb_false_r.
Qed.

Lemma land_maximizebox_other z n :
  0 ≤ n < 32 → n ≠ 16 →
  Z.testbit (Z.land (u32 z) (u32 (Z.lnot WS_MAXIMIZEBOX))) n = Z.testbit z n.
Proof.
  intros Hn H16. rewrite Z.land_spec. unfold u32.
  rewrite !Z.mod_pow2_bits_low by lia.
  rewrite Z.lnot_spec by lia.
  change WS_MAXIMIZEBOX with (2 ^ 16). rewrite Z.pow2_bits_false by lia.
  apply andb_true_r.
Qed.

(** X7. [set_max_size] changes no bit of the 32-bit window style other
    than the maximize box (bit 16).  When that bit already has the
    value the call wants, the style is read and not written.  A second
    call with the same arguments only reads the style: it writes
    neither the style nor a different maximum. *)
Theorem max_size_touches_one_bit (width height : Z) (s : State) :
  let s1 := (set_max_size width height s).2 in
  (∀ n, 0 ≤ n < 32 → n ≠ 16 →
     Z.testbit (style (world s1)) n = Z.testbit (style (world s)) n) ∧
  (Z.testbit (style (world s)) 16 = (width =? 0) && (height =? 0) →
     world s1 = world s ∧ log s1 = log s ++ [GetWindowLong_STYLE]) ∧
  (Z.testbit (style (world s)) 16 ≠ (width =? 0) && (height =? 0) →
     ∃ written, log s1 = log s ++ [GetWindowLong_STYLE; SetWindowLong_STYLE written] ∧
                style (world s1) = written) ∧
  set_max_size width height s1
    = (Returned tt, {| edge := edge s1; world := world s1;
                       log := log s1 ++ [GetWindowLong_STYLE] |}).
Proof.
  cbv zeta.
  assert (Hagain : ∀ s1, Z.testbit (style (world s1)) 16 = (width =? 0) && (height =? 0) →
            maxSize (edge s1) = {| Edge.width := scaled (edge s1) width;
                                   Edge.height := scaled (edge s1) height |} →
            set_max_size width height s1
            = (Returned tt, {| edge := edge s1; world := world s1;
                               log := log s1 ++ [GetWindowLong_STYLE] |})).
  { intros s1 Hbit Hmax. unfold set_max_size, GetWindowLong, SetWindowLong. unfold_monad.
    destruct ((width =? 0) && (height =? 0)); cbn -[Z.testbit Z.land Z.lor u32];
      rewrite land_maximizebox, testbit_u32, Hbit; cbn -[Z.testbit Z.land Z.lor u32];
      rewrite <- Hmax; by destruct s1 as [[] ? ?]. }
  split; [|split; [|split]].
  - intros n Hn H16. unfold set_max_size, GetWindowLong, SetWindowLong. unfold_monad.
    cbn -[Z.testbit Z.land Z.lor u32].
    destruct ((width =? 0) && (height =? 0)); cbn -[Z.testbit Z.land Z.lor u32];
      destruct (Z.land _ _ =? 0); cbn -[Z.testbit Z.land Z.lor u32]; try done.
    + by apply lor_maximizebox_other.
    + by apply land_maximizebox_other.
  - intros Hbit. unfold set_max_size, GetWindowLong, SetWindowLong. unfold_monad.
    destruct ((width =? 0) && (height =? 0)); cbn -[Z.testbit Z.land Z.lor u32];
      rewrite land_maximizebox, testbit_u32, Hbit; cbn -[Z.testbit Z.land Z.lor u32]; done.
  - intros Hbit. unfold set_max_size, GetWindowLong, SetWindowLong. unfold_monad.
    destruct ((width =? 0) && (height =? 0)); cbn -[Z.testbit Z.land Z.lor u32];
      rewrite land_maximizebox, testbit_u32;
      destruct (Z.testbit (style (world s)) 16);
      try done; cbn -[Z.testbit Z.land Z.lor u32]; eexists; rewrite <- app_assoc; done.
  - apply Hagain.
    + apply set_max_size_style.
    + rewrite set_max_size_edge. done.
Qed.

End SizeSetters.

Lemma min_size_survives_witness :
  ptMinTrackSize (minmaxinfo (world
    (size_constraints_query
       (max_size_calls [(1024, 768); (0, 0); (300, 200)] (set_min_size 640 480 ready).2).2).2))
  = {| x := 640; y := 480 |}.
Proof.
  exact (proj1 (proj2 (proj2 (proj2
           (min_size_survives 640 480 [(1024, 768); (0, 0); (300, 200)] ready eq_refl))))).
Defined.

(** *** Further properties of the two event handlers *)

Section Handlers.
Context `{platform : Platform}.





(** X9. When the engine refuses to make the controller visible at the
    first navigation-completed event, the handler throws after showing,
    updating and focusing the window, without giving the controller its
    bounds; [isInitialized] stays set, so every later event returns at
    once and the bounds are never set by this handler.  The same holds
    when there is no controller at that event, the exception being then
    that of the null pointer. *)
Theorem failed_show_is_not_retried (n : nat) (s : State) :
  isInitialized (edge s) = false →
  let hr := answer (log s ++ [ShowWindow SW_SHOWNORMAL; UpdateWindow; SetFocus])
                   (put_IsVisible true) in
  (controller (edge s) ≠ None → FAILED hr = true →
     webviewNavigationComplete s = (Thrown (program_closed hr), shown_not_sized s) ∧
     navigation_events n (shown_not_sized s) = (Returned tt, shown_not_sized s)) ∧
  (controller (edge s) = None →
     ∃ s', webviewNavigationComplete s = (Thrown null_dereference, s') ∧
           log s' = log s ++ [ShowWindow SW_SHOWNORMAL; UpdateWindow; SetFocus] ∧
           navigation_events n s' = (Returned tt, s')).
Proof.
  intros Hi. cbv zeta. split.
  - intros Hc Hv. split; [|by apply navigation_events_initialized].
    unfold webviewNavigationComplete, shown_not_sized. unfold_monad. rewrite Hi. simpl.
    destruct (controller (edge s)) as [c|]; [|done]. simpl.
    rewrite <- !app_assoc. simpl. rewrite Hv. simpl. done.
  - intros Hc. eexists. split; [|split].
    + unfold webviewNavigationComplete. unfold_monad. rewrite Hi. simpl. rewrite Hc. reflexivity.
    + simpl. by rewrite <- !app_assoc.
    + by apply navigation_events_initialized.
Qed.

End Handlers.

Lemma failed_show_is_not_retried_witness :
  @webviewNavigationComplete stubborn ready
    = (Thrown (program_closed E_INVALIDARG), shown_not_sized ready) ∧
  @navigation_events stubborn 5 (shown_not_sized ready) = (Returned tt, shown_not_sized ready).
Proof.
  exact (proj1 (@failed_show_is_not_retried stubborn 5 ready eq_refl)
           ltac:(discriminate) eq_refl).
Defined.

(** *** Further properties of the loops *)

Section Loops.
Context `{platform : Platform}.

(** The constructor's wait sleeps through empty polls and ends at a
    quit message, which it takes off the queue. *)
Lemma pump_quit sleeps msg later s :
  semaphore (edge s) = 0%nat →
  message msg = WM_QUIT →
  pump (replicate sleeps None ++ Some msg :: later) s = (Returned tt, polled later s).
Proof.
  intros Hs Hq. revert s Hs. induction sleeps as [|sleeps IH]; intros s Hs.
  - simpl. unfold_monad. rewrite Hs. simpl. by rewrite Hq.
  - simpl. unfold_monad. rewrite Hs. simpl.
    change (pump (replicate sleeps None ++ Some msg :: later) (polled
              (replicate sleeps None ++ Some msg :: later) s) = (Returned tt, polled later s)).
    by rewrite IH.
Qed.

(** X10. A quit message that reaches the thread while the constructor
    waits for the environment ends the wait: the constructor's next
    step dereferences the environment pointer, which is still null.
    No controller is requested, nothing is added to the log, and the
    messages after the quit stay in the queue. *)
Theorem quit_while_waiting_for_environment
    (debug_mode : bool) (sleeps : nat) (msg : MSG) (later : list (option MSG)) (s : State) :
  semaphore (edge s) = 0%nat →
  environment (edge s) = None →
  inbox (world s) = replicate sleeps None ++ Some msg :: later →
  message msg = WM_QUIT →
  bootstrap debug_mode s = (Thrown null_dereference, polled later s).
Proof.
  intros Hs He Hin Hq. unfold bootstrap.
  unfold mbind at 1 2. unfold M_bind at 1 2. unfold get at 1. cbn beta iota.
  rewrite Hin, (pump_quit _ _ _ _ Hs Hq).
  unfold mbind at 1 2. unfold M_bind at 1 2. unfold get at 1. cbn beta iota.
  cbn [polled edge]. by rewrite He.
Qed.

(** The running loop returns only at a quit message, which it takes
    off the queue together with everything before it. *)
Lemma message_loop_returned polls s s' :
  message_loop polls s = (Returned tt, s') →
  ∃ before msg after,
    polls = before ++ Some msg :: after ∧
    message msg = WM_QUIT ∧
    Forall (λ poll, ∀ m, poll = Some m → message m ≠ WM_QUIT) before ∧
    inbox (world s') = after.
Proof.
  revert s. induction polls as [|poll rest IH]; intros s Hret; [done|].
  destruct poll as [msg|].
  - destruct (Z.eqb_spec (message msg) WM_QUIT) as [Hq|Hq].
    + exists [], msg, rest. split; [done|]. split; [done|]. split; [done|].
      simpl in Hret. unfold_monad. apply Z.eqb_eq in Hq. rewrite Hq in Hret.
      by inversion Hret.
    + assert (Hloop : message_loop (Some msg :: rest) s
                      = (default_case msg;; message_loop rest) (polled rest s)).
      { simpl. unfold default_case. unfold_monad. apply Z.eqb_neq in Hq. by rewrite Hq. }
      rewrite Hloop in Hret. unfold mbind, M_bind in Hret.
      destruct (default_case msg (polled rest s)) as [[[]| |] s1]; try discriminate.
      destruct (IH s1 Hret) as (before & quit & after & -> & Hquit & Hbefore & Hafter).
      exists (Some msg :: before), quit, after. split; [done|]. split; [done|].
      split; [|done]. constructor; [|done]. by intros m [= <-].
  - change (message_loop (None :: rest) s)
      with ((when_idle;; message_loop rest) (polled rest s)) in Hret.
    unfold mbind, M_bind in Hret.
    destruct (when_idle (polled rest s)) as [[[]| |] s1]; try discriminate.
    destruct (IH s1 Hret) as (before & quit & after & -> & Hquit & Hbefore & Hafter).
    exists (None :: before), quit, after. split; [done|]. split; [done|].
    split; [|done]. constructor; [|done]. by intros m [=].
Qed.

(** X11. [run] returns only when a quit message was found in the
    thread's queue: the queue at the call holds, after polls that carry
    no quit message, a [WM_QUIT]; what follows that message is left in
    the queue.  The adapter then had its page at the call, the last
    call [run] made is [Close] on the controller, and the engine
    accepted it. *)
Theorem run_returns_after_quit (url_path : string) (s s' : State) :
  run url_path s = (Returned tt, s') →
  ∃ before msg after earlier,
    inbox (world s) = before ++ Some msg :: after ∧
    message msg = WM_QUIT ∧
    Forall (λ poll, ∀ m, poll = Some m → message m ≠ WM_QUIT) before ∧
    inbox (world s') = after ∧
    webview (edge s) ≠ None ∧
    controller (edge s') ≠ None ∧
    log s' = earlier ++ [Close] ∧
    FAILED (answer earlier Close) = false.
Proof.
  intros Hret. unfold run, run_loop in Hret.
  cbv [mbind mret M_bind M_ret throw get record call THROW_IF_FAILED deref] in Hret.
  destruct (webview (edge s)) as [page|] eqn:Hpage; [|discriminate]. cbn [edge world log] in Hret.
  destruct (FAILED _); [discriminate|].
  destruct (FAILED _); [discriminate|].
  cbn [edge world log] in Hret.
  match type of Hret with context [message_loop ?polls ?s0] =>
    destruct (message_loop polls s0) as [[[]| |] s1] eqn:Hloop; try discriminate
  end.
  apply message_loop_returned in Hloop as (before & msg & after & Hpolls & Hq & Hbefore & Hafter).
  destruct (controller (edge s1)) as [c|] eqn:Hc; [|discriminate].
  cbn [edge world log] in Hret.
  destruct (FAILED (answer (log s1) Close)) eqn:Hclose; [discriminate|].
  inversion Hret; subst s'. cbn [edge world log].
  exists before, msg, after, (log s1). rewrite Hc. by repeat split.
Qed.

(** X12. The ways [run] fails before its loop.  Without a page it
    throws at once and calls nothing.  When the engine refuses the
    shim, [run] throws without navigating; when the engine refuses the
    navigation, [run] throws without polling a message.  In all three
    cases the controller is not closed and the queue is left as it
    was. *)
Theorem run_fails_before_loop (url_path : string) (s : State) :
  let hr1 := answer (log s) AddScriptToExecuteOnDocumentCreated in
  let hr2 := answer (log s ++ [AddScriptToExecuteOnDocumentCreated])
                    (Navigate (navigation_target url_path)) in
  (webview (edge s) = None → run url_path s = (Thrown null_dereference, s)) ∧
  (webview (edge s) ≠ None → FAILED hr1 = true →
     run url_path s
     = (Thrown (program_closed hr1),
        {| edge := edge s; world := world s;
           log := log s ++ [AddScriptToExecuteOnDocumentCreated] |})) ∧
  (webview (edge s) ≠ None → FAILED hr1 = false → FAILED hr2 = true →
     run url_path s
     = (Thrown (program_closed hr2),
        {| edge := edge s; world := world s;
           log := log s ++ [AddScriptToExecuteOnDocumentCreated;
                            Navigate (navigation_target url_path)] |})).
Proof.
  cbv zeta. unfold run.
  cbv [mbind mret M_bind M_ret throw get record call THROW_IF_FAILED deref]. cbn [edge world log].
  destruct (webview (edge s)) as [page|]; (split; [|split]); try done.
  - intros _ ->. done.
  - intros _ H1 H2. rewrite H1. cbn [edge world log]. rewrite H2. by rewrite <- app_assoc.
Qed.

End Loops.

Lemma quit_while_waiting_for_environment_witness :
  bootstrap false quitting = (Thrown null_dereference, polled [Some size_message] quitting).
Proof.
  exact (quit_while_waiting_for_environment false 2 quit_message [Some size_message] quitting
           eq_refl eq_refl eq_refl eq_refl).
Defined.

Lemma run_returns_after_quit_witness :
  ∃ before msg after earlier,
    inbox (world closing) = before ++ Some msg :: after ∧
    message msg = WM_QUIT ∧
    Forall (λ poll, ∀ m, poll = Some m → message m ≠ WM_QUIT) before ∧
    inbox (world (run "index.html" closing).2) = after ∧
    webview (edge closing) ≠ None ∧
    controller (edge (run "index.html" closing).2) ≠ None ∧
    log (run "index.html" closing).2 = earlier ++ [Close] ∧
    FAILED (answer earlier Close) = false.
Proof.
  apply (run_returns_after_quit "index.html" closing). vm_compute. reflexivity.
Defined.

(** *** What a computation leaves alone *)

Section Preserves.
Context `{platform : Platform} {X : Type} (part : State → X).

Lemma preserves_ret {A} (a : A) : preserves part (mret a).
Proof. done. Qed.

Lemma preserves_throw {A} e : preserves part (throw (A := A) e).
Proof. done. Qed.

Lemma preserves_wait {A} : preserves part (wait (A := A)).
Proof. done. Qed.

Lemma preserves_get : preserves part get.
Proof. done. Qed.

Lemma preserves_modify_edge f :
  (∀ s, part {| edge := f (edge s); world := world s; log := log s |} = part s) →
  preserves part (modify_edge f).
Proof. intros Hf s. apply Hf. Qed.

Lemma preserves_modify_world f :
  (∀ s, part {| edge := edge s; world := f (world s); log := log s |} = part s) →
  preserves part (modify_world f).
Proof. intros Hf s. apply Hf. Qed.

Lemma preserves_record c :
  (∀ s, part {| edge := edge s; world := world s; log := log s ++ [c] |} = part s) →
  preserves part (record c).
Proof. intros Hc s. apply Hc. Qed.

Lemma preserves_bind {A B} (c : M A) (f : A → M B) :
  preserves part c → (∀ a, preserves part (f a)) → preserves part (c ≫= f).
Proof.
  intros Hc Hf s. unfold mbind, M_bind. specialize (Hc s).
  destruct (c s) as [[a|e|] s1]; simpl in *; [|done..].
  by rewrite Hf.
Qed.

Lemma preserves_call c :
  (∀ s, part {| edge := edge s; world := world s; log := log s ++ [c] |} = part s) →
  preserves part (call c).
Proof.
  intros Hc. unfold call. apply preserves_bind; [apply preserves_get|]. intros s.
  apply preserves_bind; [by apply preserves_record|]. intros _. apply preserves_ret.
Qed.

Lemma preserves_throwIfFailed hr : preserves part (throwIfFailed hr).
Proof. unfold throwIfFailed. by destruct (FAILED hr). Qed.

Lemma preserves_THROW_IF_FAILED hr : preserves part (THROW_IF_FAILED hr).
Proof. unfold THROW_IF_FAILED. by destruct (FAILED hr). Qed.

Lemma preserves_deref p : preserves part (deref p).
Proof. unfold deref. by destruct p. Qed.

End Preserves.

(** Decompose a computation along its binds and branches; a write
    outside the part is settled by computation. *)
Ltac preserves_step :=
  first
    [ assumption
    | match goal with
      | H : ∀ _, preserves _ (?f _) |- preserves _ (?f _) => apply H
      | H : ∀ _ _, preserves _ (?f _ _) |- preserves _ (?f _ _) => apply H
      end
    | apply preserves_bind; [|intros ?]
    | apply preserves_ret | apply preserves_throw | apply preserves_wait | apply preserves_get
    | apply preserves_throwIfFailed | apply preserves_THROW_IF_FAILED | apply preserves_deref
    | apply preserves_modify_edge; intros ?; reflexivity
    | apply preserves_modify_world; intros ?; reflexivity
    | apply preserves_record; intros ?; reflexivity
    | apply preserves_call; intros ?; reflexivity
    | match goal with
      | |- preserves _ (match ?x with _ => _ end) => destruct x
      | |- preserves _ (if ?b then _ else _) => destruct b
      end ].

Ltac preserves_auto := repeat preserves_step.

Section Fixtures.
Context `{platform : Platform}.

Lemma fixtures_windowProcedure msg : preserves fixtures (windowProcedure msg).
Proof. unfold windowProcedure. preserves_auto. Qed.

Lemma fixtures_webviewNavigationComplete : preserves fixtures webviewNavigationComplete.
Proof. unfold webviewNavigationComplete. preserves_auto. Qed.

Lemma fixtures_webviewMessageReceived args : preserves fixtures (webviewMessageReceived args).
Proof.
  unfold webviewMessageReceived, parse, at_key, get_uint64_t, get_std_string. preserves_auto.
Qed.

Lemma fixtures_environment_completed hr created :
  preserves fixtures (environment_completed hr created).
Proof. unfold environment_completed. preserves_auto. Qed.

Lemma fixtures_controller_completed hr created :
  preserves fixtures (controller_completed hr created).
Proof. unfold controller_completed. preserves_auto. Qed.

Lemma fixtures_dispatch msg : preserves fixtures (dispatch msg).
Proof.
  unfold dispatch.
  pose proof fixtures_windowProcedure. pose proof fixtures_webviewNavigationComplete.
  pose proof fixtures_webviewMessageReceived. pose proof fixtures_environment_completed.
  pose proof fixtures_controller_completed.
  preserves_auto.
Qed.

Lemma fixtures_pump polls : preserves fixtures (pump polls).
Proof.
  induction polls as [|poll rest IH]; simpl.
  - preserves_auto.
  - pose proof fixtures_dispatch. preserves_auto.
Qed.

Lemma registry_of_fixtures {A} (c : M A) : preserves fixtures c → preserves registry c.
Proof.
  intros Hc s. specialize (Hc s). unfold fixtures in Hc. unfold registry. congruence.
Qed.

Lemma registry_run_work_item action : preserves registry (run_work_item action).
Proof. unfold run_work_item. preserves_auto. Qed.

Lemma registry_drain fuel : preserves registry (drain fuel).
Proof.
  induction fuel as [|fuel IH]; simpl; [apply preserves_wait|].
  pose proof registry_run_work_item. preserves_auto.
Qed.

Lemma registry_when_idle : preserves registry when_idle.
Proof. unfold when_idle. pose proof registry_drain. preserves_auto. Qed.

Lemma registry_message_loop polls : preserves registry (message_loop polls).
Proof.
  induction polls as [|poll rest IH]; simpl; [apply preserves_wait|].
  pose proof registry_when_idle.
  pose proof (λ msg, registry_of_fixtures _ (fixtures_dispatch msg)).
  preserves_auto.
Qed.

Lemma registry_run url_path : preserves registry (run url_path).
Proof. unfold run, run_loop. pose proof registry_message_loop. preserves_auto. Qed.

Lemma registry_bootstrap debug_mode : preserves registry (bootstrap debug_mode).
Proof.
  unfold bootstrap. pose proof (λ polls, registry_of_fixtures _ (fixtures_pump polls)).
  preserves_auto.
Qed.

Lemma registry_constructor app_name title width height resizeable debug_mode :
  preserves registry (Edge_constructor app_name title width height resizeable debug_mode).
Proof. unfold Edge_constructor. pose proof registry_bootstrap. preserves_auto. Qed.

Lemma registry_perform o : preserves registry (perform o).
Proof.
  destruct o; cbn [perform].
  - apply registry_constructor.
  - apply registry_run.
  - unfold set_size. preserves_auto.
  - unfold set_min_size. preserves_auto.
  - unfold set_max_size, GetWindowLong, SetWindowLong. preserves_auto.
  - unfold execute_js. preserves_auto.
  - unfold quit. preserves_auto.
  - unfold App.bind. preserves_auto.
  - pose proof (λ msg, registry_of_fixtures _ (fixtures_windowProcedure msg)). preserves_auto.
  - pose proof (registry_of_fixtures _ fixtures_webviewNavigationComplete). preserves_auto.
  - pose proof (λ args, registry_of_fixtures _ (fixtures_webviewMessageReceived args)).
    preserves_auto.
Qed.

(** X13. No operation of the adapter or of the facade writes the
    callback registry or the idle callback: after any sequence of
    constructions, runs, size settings, script executions, quits,
    [bind] calls, window messages and engine events, however it ends,
    both are what they were before.  The sources hold no code that
    registers a callback. *)
Theorem registry_is_never_written (ops : list operation) (s : State) :
  callbacks (edge (perform_all ops s).2) = callbacks (edge s) ∧
  idle (edge (perform_all ops s).2) = idle (edge s).
Proof.
  assert (H : preserves registry (perform_all ops)).
  { induction ops as [|o rest IH]; cbn [perform_all]; [apply preserves_ret|].
    pose proof registry_perform. preserves_auto. }
  specialize (H s). unfold registry in H. by inversion H.
Qed.

End Fixtures.

(** *** What a construction that completes has established *)

Section Invariants.
Context `{platform : Platform} (I : State → Prop).

Lemma keeps_ret {A} (a : A) : ensures I (mret a) (λ _, I).
Proof. intros s Hs a' s' [= <- <-]. done. Qed.

Lemma keeps_throw {A} e : ensures I (throw (A := A) e) (λ _, I).
Proof. intros s Hs a' s' [=]. Qed.

Lemma keeps_wait {A} : ensures I (wait (A := A)) (λ _, I).
Proof. intros s Hs a' s' [=]. Qed.

Lemma keeps_get : ensures I get (λ _, I).
Proof. intros s Hs a' s' [= <- <-]. done. Qed.

Lemma keeps_modify_edge f :
  (∀ s, I s → I {| edge := f (edge s); world := world s; log := log s |}) →
  ensures I (modify_edge f) (λ _, I).
Proof. intros Hf s Hs a' s' [= <- <-]. by apply Hf. Qed.

Lemma keeps_modify_world f :
  (∀ s, I s → I {| edge := edge s; world := f (world s); log := log s |}) →
  ensures I (modify_world f) (λ _, I).
Proof. intros Hf s Hs a' s' [= <- <-]. by apply Hf. Qed.

Lemma keeps_record c :
  (∀ s, I s → I {| edge := edge s; world := world s; log := log s ++ [c] |}) →
  ensures I (record c) (λ _, I).
Proof. intros Hc s Hs a' s' [= <- <-]. by apply Hc. Qed.

Lemma keeps_bind {A B} (c : M A) (f : A → M B) :
  ensures I c (λ _, I) → (∀ a, ensures I (f a) (λ _, I)) → ensures I (c ≫= f) (λ _, I).
Proof.
  intros Hc Hf s Hs b s' Hret. unfold mbind, M_bind in Hret.
  destruct (c s) as [[a|e|] s1] eqn:Hcs; [|discriminate..].
  eapply Hf; [|exact Hret]. by eapply Hc.
Qed.

Lemma keeps_call c :
  (∀ s, I s → I {| edge := edge s; world := world s; log := log s ++ [c] |}) →
  ensures I (call c) (λ _, I).
Proof.
  intros Hc. unfold call. apply keeps_bind; [apply keeps_get|]. intros s.
  apply keeps_bind; [by apply keeps_record|]. intros _. apply keeps_ret.
Qed.

Lemma keeps_throwIfFailed hr : ensures I (throwIfFailed hr) (λ _, I).
Proof. unfold throwIfFailed. destruct (FAILED hr); [apply keeps_throw|apply keeps_ret]. Qed.

Lemma keeps_deref p : ensures I (deref p) (λ _, I).
Proof. unfold deref. destruct p; [apply keeps_ret|apply keeps_throw]. Qed.

End Invariants.

Ltac keeps_step :=
  first
    [ assumption
    | match goal with
      | H : ∀ _, ensures _ (?f _) _ |- ensures _ (?f _) _ => apply H
      | H : ∀ _ _, ensures _ (?f _ _) _ |- ensures _ (?f _ _) _ => apply H
      end
    | apply keeps_bind; [|intros ?]
    | apply keeps_ret | apply keeps_throw | apply keeps_wait | apply keeps_get
    | apply keeps_throwIfFailed | apply keeps_deref
    | apply keeps_modify_edge; intros ? ?; assumption
    | apply keeps_modify_world; intros ? ?; assumption
    | apply keeps_record; intros ? ?; assumption
    | apply keeps_call; intros ? ?; assumption
    | match goal with
      | |- ensures _ (match ?x with _ => _ end) _ => destruct x
      | |- ensures _ (if ?b then _ else _) _ => destruct b
      end ].

Ltac keeps_auto := repeat keeps_step.

Section Construction2.
Context `{platform : Platform}.

Lemma environment_windowProcedure msg :
  ensures has_environment (windowProcedure msg) (λ _, has_environment).
Proof. unfold windowProcedure. keeps_auto. Qed.

Lemma environment_webviewNavigationComplete :
  ensures has_environment webviewNavigationComplete (λ _, has_environment).
Proof. unfold webviewNavigationComplete. keeps_auto. Qed.

Lemma environment_webviewMessageReceived args :
  ensures has_environment (webviewMessageReceived args) (λ _, has_environment).
Proof.
  unfold webviewMessageReceived, parse, at_key, get_uint64_t, get_std_string. keeps_auto.
Qed.

Lemma environment_controller_completed hr created :
  ensures has_environment (controller_completed hr created) (λ _, has_environment).
Proof. unfold controller_completed. keeps_auto. Qed.

(** A completion without an environment throws; one with an
    environment stores it. *)
Lemma environment_environment_completed hr created :
  ensures has_environment (environment_completed hr created) (λ _, has_environment).
Proof.
  intros s Hs a s' Hret. unfold environment_completed in Hret.
  cbv [mbind mret M_bind M_ret throw get modify_edge deref] in Hret.
  destruct created as [env|]; [|discriminate]. by inversion Hret.
Qed.

Lemma environment_dispatch msg : ensures has_environment (dispatch msg) (λ _, has_environment).
Proof.
  unfold dispatch.
  pose proof environment_windowProcedure. pose proof environment_webviewNavigationComplete.
  pose proof environment_webviewMessageReceived. pose proof environment_environment_completed.
  pose proof environment_controller_completed.
  keeps_auto.
Qed.

Lemma environment_pump polls : ensures has_environment (pump polls) (λ _, has_environment).
Proof.
  induction polls as [|poll rest IH]; simpl.
  - keeps_auto.
  - pose proof environment_dispatch. keeps_auto.
Qed.

(** What the second half of the constructor has established when it
    returns. *)
Lemma bootstrap_returned debug_mode s s' :
  bootstrap debug_mode s = (Returned tt, s') →
  environment (edge s') ≠ None ∧
  controller (edge s') ≠ None ∧
  webview (edge s') = core_webview ∧
  core_webview ≠ None ∧
  fixtures {| edge := set_webview (webview (edge s)) (edge s'); world := world s'; log := log s' |}
  = fixtures s.
Proof.
  intros Hret. unfold bootstrap in Hret.
  cbv [mbind mret M_bind M_ret throw get modify_edge record call THROW_IF_FAILED deref] in Hret.
  pose proof (fixtures_pump (inbox (world s)) s) as F1.
  destruct (pump (inbox (world s)) s) as [[[]| |] s1] eqn:Hp1; try discriminate.
  destruct (environment (edge s1)) as [env|] eqn:He1; try discriminate.
  cbn [edge world log] in Hret.
  destruct (FAILED _); try discriminate.
  cbn [edge world log] in Hret.
  match type of Hret with context [pump ?polls ?s0] =>
    pose proof (fixtures_pump polls s0) as F2;
    pose proof (environment_pump polls s0) as E2;
    destruct (pump polls s0) as [[[]| |] s2] eqn:Hp2; try discriminate
  end.
  specialize (E2 ltac:(unfold has_environment; cbn [edge]; congruence) tt s2 eq_refl).
  destruct (controller (edge s2)) as [ctl|] eqn:Hc2; try discriminate.
  cbn [edge world log] in Hret.
  destruct (FAILED _); try discriminate.
  cbn [edge world log set_webview webview] in Hret.
  destruct core_webview as [page|] eqn:Hpage; try discriminate.
  cbn [edge world log] in Hret.
  repeat (destruct (FAILED _); try discriminate; cbn [edge world log] in Hret).
  inversion Hret; subst s'. cbn [edge world log set_webview environment controller webview].
  split; [exact E2|]. split; [congruence|]. split; [done|]. split; [done|].
  cbn [snd] in F1, F2. unfold fixtures in *. cbn [edge world log] in *.
  cbn [set_webview window scale webview minSize maxSize callbacks idle main_queue].
  congruence.
Qed.

(** X14. A construction that completes has a window, took the
    monitor's scale, found the runtime installed, and holds an
    environment, a controller and the page the controller gave; the
    window carries the adapter in its user data and has the style the
    constructor asked for, with the sizing frame exactly when
    [resizeable] was set.  The stored sizes, the registry and the work
    queue are as they were, and [APPDATA] was set.  So whenever the
    window cannot be created, the runtime is missing, [APPDATA] is not
    set or the controller gives no page, the constructor does not
    return. *)
Theorem constructed_adapter_is_complete
    (app_name title : string) (width height : Z) (resizeable debug_mode : bool) (s s' : State) :
  Edge_constructor app_name title width height resizeable debug_mode s = (Returned tt, s') →
  created_window ≠ None ∧ runtime_version ≠ None ∧ core_webview ≠ None ∧
  window (edge s') = created_window ∧
  scale (edge s') = monitor_scale ∧
  environment (edge s') ≠ None ∧
  controller (edge s') ≠ None ∧
  webview (edge s') = core_webview ∧
  userdata (world s') = true ∧
  style (world s')
    = (let style := Z.lor (Z.lor (Z.lor WS_OVERLAPPED WS_SYSMENU) WS_MINIMIZEBOX) WS_MAXIMIZEBOX in
       if resizeable then Z.lor style WS_THICKFRAME else style) ∧
  minSize (edge s') = minSize (edge s) ∧
  maxSize (edge s') = maxSize (edge s) ∧
  main_queue (edge s') = main_queue (edge s) ∧
  APPDATA_set = true.
Proof.
  intros Hret. unfold Edge_constructor, call, THROW_IF_FAILED in Hret.
  unfold mbind, M_bind, mret, M_ret, throw, get, modify_edge, modify_world, record in Hret.
  cbn -[bootstrap Z.lor] in Hret.
  repeat match type of Hret with
         | context [if FAILED ?hr then _ else _] =>
             destruct (FAILED hr); cbn -[bootstrap Z.lor] in Hret; try discriminate
         | context [if ?a =? 0 then _ else _] =>
             destruct (a =? 0); cbn -[bootstrap Z.lor] in Hret; try discriminate
         | context [if APPDATA_set then _ else _] =>
             destruct APPDATA_set eqn:Hdata; cbn -[bootstrap Z.lor] in Hret; try discriminate
         | context [match created_window with _ => _ end] =>
             destruct created_window as [handle|] eqn:Hwindow;
             cbn -[bootstrap Z.lor] in Hret; try discriminate
         | context [match runtime_version with _ => _ end] =>
             destruct runtime_version as [version|] eqn:Hversion;
             cbn -[bootstrap Z.lor] in Hret; try discriminate
         end.
  apply bootstrap_returned in Hret as (He & Hc & Hw & Hpage & Hfix).
  unfold fixtures in Hfix. cbn [edge world log] in Hfix.
  cbn [set_webview set_scale set_window set_semaphore set_isInitialized
       set_style set_userdata
       window scale webview minSize maxSize callbacks idle main_queue
       style userdata client producers] in Hfix.
  injection Hfix as H1 H2 H3 H4 H5 H6 H7 H8 H9 H10 H11.
  rewrite H1, H2, H3, H4, H7, H8, H9.
  repeat split; try done.
Qed.

End Construction2.

Lemma constructed_adapter_is_complete_witness :
  let s := fresh in
  let s' := (Edge_constructor "demo" "Demo" 800 600 true false fresh).2 in
  created_window ≠ None ∧ runtime_version ≠ None ∧ core_webview ≠ None ∧
  window (edge s') = created_window ∧
  scale (edge s') = monitor_scale ∧
  environment (edge s') ≠ None ∧
  controller (edge s') ≠ None ∧
  webview (edge s') = core_webview ∧
  userdata (world s') = true ∧
  style (world s')
    = (let style := Z.lor (Z.lor (Z.lor WS_OVERLAPPED WS_SYSMENU) WS_MINIMIZEBOX) WS_MAXIMIZEBOX in
       if true then Z.lor style WS_THICKFRAME else style) ∧
  minSize (edge s') = minSize (edge s) ∧
  maxSize (edge s') = maxSize (edge s) ∧
  main_queue (edge s') = main_queue (edge s) ∧
  APPDATA_set = true.
Proof.
  apply (constructed_adapter_is_complete "demo" "Demo" 800 600 true false fresh).
  vm_compute. reflexivity.
Defined.

(** *** The order of the two creation requests *)

Section PumpedLogs.
Context `{platform : Platform}.
Context (P : Call → Prop) (HP : ∀ c, pumped c = true → P c).

Ltac pumped_calls := logs_auto; try (apply HP; reflexivity).

Lemma pumped_windowProcedure msg : logs P (windowProcedure msg).
Proof. unfold windowProcedure. pumped_calls. Qed.

Lemma pumped_webviewNavigationComplete : logs P webviewNavigationComplete.
Proof. unfold webviewNavigationComplete. pumped_calls. Qed.

Lemma pumped_webviewMessageReceived args : logs P (webviewMessageReceived args).
Proof.
  unfold webviewMessageReceived, parse, at_key, get_uint64_t, get_std_string.
  pumped_calls.
Qed.

Lemma pumped_environment_completed hr created : logs P (environment_completed hr created).
Proof. unfold environment_completed. pumped_calls. Qed.

Lemma pumped_controller_completed hr created : logs P (controller_completed hr created).
Proof. unfold controller_completed. pumped_calls. Qed.

Lemma pumped_dispatch msg : logs P (dispatch msg).
Proof.
  unfold dispatch.
  pose proof pumped_windowProcedure. pose proof pumped_webviewNavigationComplete.
  pose proof pumped_webviewMessageReceived. pose proof pumped_environment_completed.
  pose proof pumped_controller_completed.
  pumped_calls.
Qed.

Lemma pumped_pump polls : logs P (pump polls).
Proof.
  induction polls as [|poll rest IH]; simpl.
  - pumped_calls.
  - pose proof pumped_dispatch. pumped_calls.
Qed.

End PumpedLogs.

Section Ordering.
Context `{platform : Platform}.

Lemma accounted_of_preserves {A} (c : M A) :
  logs (λ c, pumped c = true) c →
  preserves (λ s, environment (edge s)) c →
  environment_accounted c.
Proof.
  intros Hl Hp s. destruct (Hl s) as (added & Hadded & Hpumped).
  exists added. split; [done|]. split; [done|]. left. apply Hp.
Qed.

Lemma accounted_bind {A B} (c : M A) (f : A → M B) :
  environment_accounted c → (∀ a, environment_accounted (f a)) →
  environment_accounted (c ≫= f).
Proof.
  intros Hc Hf s. unfold mbind, M_bind.
  destruct (Hc s) as (l1 & H1 & P1 & E1).
  destruct (c s) as [[a|e|] s1]; cbn [fst snd] in *.
  - destruct (Hf a s1) as (l2 & H2 & P2 & E2).
    exists (l1 ++ l2). rewrite H2, H1, app_assoc. split; [done|].
    split; [by apply Forall_app|]. rewrite Exists_app.
    destruct E2 as [E2|[E2|E2]]; [|tauto|tauto].
    rewrite E2. destruct E1 as [E1|[E1|E1]]; tauto.
  - exists l1. tauto.
  - exists l1. tauto.
Qed.

Lemma accounted_dispatch msg : environment_accounted (dispatch msg).
Proof.
  intros s. unfold dispatch.
  unfold mbind at 1 2. unfold M_bind at 1 2. unfold record at 1. unfold get at 1.
  cbn beta iota. cbn [edge world log].
  set (s0 := {| edge := edge s; world := world s; log := log s ++ [DispatchMessage msg] |}).
  assert (Hwrap : ∀ (c : M unit),
            (∃ added, log (c s0).2 = log s0 ++ added ∧
                      Forall (λ c, pumped c = true) added ∧
                      (environment (edge (c s0).2) = environment (edge s0) ∨
                       environment (edge (c s0).2) = None ∨
                       ∃ hr created, delivery msg = EnvironmentCompleted hr (Some created))) →
            ∃ added, log (c s0).2 = log s ++ added ∧
                     Forall (λ c, pumped c = true) added ∧
                     (environment (edge (c s0).2) = environment (edge s) ∨
                      environment (edge (c s0).2) = None ∨
                      Exists environment_arrival added)).
  { intros c (added & Hadded & Hpumped & Henv).
    exists (DispatchMessage msg :: added). rewrite Hadded. cbn [s0 log].
    rewrite <- app_assoc. split; [done|]. split; [by constructor|].
    destruct Henv as [Henv|[Henv|(hr & created & Henv)]]; [by left|by right; left|].
    right. right. constructor. by exists msg, hr, created. }
  assert (Hquiet : ∀ (c : M unit),
            logs (λ c, pumped c = true) c → preserves (λ s, environment (edge s)) c →
            ∃ added, log (c s0).2 = log s0 ++ added ∧
                     Forall (λ c, pumped c = true) added ∧
                     (environment (edge (c s0).2) = environment (edge s0) ∨
                      environment (edge (c s0).2) = None ∨
                      ∃ hr created, delivery msg = EnvironmentCompleted hr (Some created))).
  { intros c Hl Hp. destruct (Hl s0) as (added & Hadded & Hpumped).
    exists added. split; [done|]. split; [done|]. left. apply Hp. }
  apply Hwrap.
  destruct (hwnd msg) as [h|]; [|apply Hquiet; [logs_auto|preserves_auto]].
  destruct (bool_decide _).
  { apply Hquiet.
    - pose proof (pumped_windowProcedure _ (λ c H, H)). logs_auto.
    - unfold windowProcedure. preserves_auto. }
  destruct (delivery msg) as [|hr created|hr created| |args].
  - apply Hquiet; [logs_auto|preserves_auto].
  - destruct (pumped_environment_completed (λ c, pumped c = true) hr created s0) as (added & Hadded & Hp).
    exists added.
    assert (Hl : log ((environment_completed hr created;; mret tt) s0).2
                 = log (environment_completed hr created s0).2).
    { unfold mbind, M_bind. by destruct (environment_completed hr created s0) as [[| |] ?]. }
    rewrite Hl. split; [done|]. split; [done|].
    destruct created as [env|]; [right; right; by exists hr, env|].
    right. left. unfold environment_completed.
    by cbv [mbind mret M_bind M_ret throw get modify_edge deref].
  - apply Hquiet.
    + pose proof (pumped_controller_completed (λ c, pumped c = true)). logs_auto.
    + unfold controller_completed. preserves_auto.
  - apply Hquiet.
    + pose proof (pumped_webviewNavigationComplete _ (λ c H, H)). logs_auto.
    + unfold webviewNavigationComplete. preserves_auto.
  - apply Hquiet.
    + pose proof (pumped_webviewMessageReceived _ (λ c H, H)). logs_auto.
    + unfold webviewMessageReceived, parse, at_key, get_uint64_t, get_std_string.
      preserves_auto.
Qed.

Lemma accounted_pump polls : environment_accounted (pump polls).
Proof.
  assert (Hquiet : ∀ A (c : M A),
            logs (λ c, pumped c = true) c → preserves (λ s, environment (edge s)) c →
            environment_accounted c) by (intros; by apply accounted_of_preserves).
  induction polls as [|poll rest IH]; simpl.
  - apply Hquiet; [logs_auto|preserves_auto].
  - apply accounted_bind; [apply Hquiet; [logs_auto|preserves_auto]|]. intros s.
    destruct (semaphore (edge s)); [|apply Hquiet; [logs_auto|preserves_auto]].
    apply accounted_bind; [apply Hquiet; [logs_auto|preserves_auto]|]. intros _.
    destruct poll as [msg|]; [|exact IH].
    destruct (message msg =? WM_QUIT); [apply Hquiet; [logs_auto|preserves_auto]|].
    apply accounted_bind; [apply Hquiet; [logs_auto; done|preserves_auto]|]. intros _.
    apply accounted_bind; [apply accounted_dispatch|]. intros _. exact IH.
Qed.

Lemma call_first c {B} (f : Z → M B) (P : Call → Prop) s :
  (∀ hr, logs P (f hr)) →
  ∃ tail, log ((call c ≫= f) s).2 = log s ++ c :: tail ∧ Forall P tail.
Proof.
  intros Hf. unfold call. cbv [mbind mret M_bind M_ret get record].
  destruct (Hf (answer (log s) c)
              {| edge := edge s; world := world s; log := log s ++ [c] |}) as (tail & Ht & HP).
  exists tail. rewrite Ht. cbn [log]. by rewrite <- app_assoc.
Qed.

Lemma split_at_only {A} (x : A) l1 t b a :
  l1 ++ x :: t = b ++ x :: a → x ∉ l1 → x ∉ t → b = l1 ∧ a = t.
Proof.
  revert b. induction l1 as [|y l1 IH]; intros [|z b] Heq H1 Ht; cbn [app] in Heq.
  - by injection Heq as ->.
  - injection Heq as -> ->. exfalso. apply Ht, elem_of_app. right. apply list_elem_of_here.
  - injection Heq as -> _. exfalso. apply H1, list_elem_of_here.
  - injection Heq as -> Hrest. apply not_elem_of_cons in H1 as [_ H1].
    by destruct (IH b Hrest H1 Ht) as [-> ->].
Qed.

(** X15. The constructor asks for the controller at most once, and
    only after the completion that brought the environment has been
    dispatched: in what the second half of the constructor adds to the
    log of an adapter without an environment, every request for a
    controller is preceded by the dispatch of an environment completion
    carrying an environment, and neither preceded nor followed by
    another request. *)
Theorem controller_requested_after_environment (debug_mode : bool) (s : State) :
  environment (edge s) = None →
  ∃ added,
    log (bootstrap debug_mode s).2 = log s ++ added ∧
    ∀ before after,
      added = before ++ CreateCoreWebView2Controller :: after →
      Exists environment_arrival before ∧
      (CreateCoreWebView2Controller ∉ before) ∧
      (CreateCoreWebView2Controller ∉ after).
Proof.
  intros Henv.
  assert (Hpumped : ∀ l, Forall (λ c, pumped c = true) l → CreateCoreWebView2Controller ∉ l).
  { intros l Hl Hin. rewrite Forall_forall in Hl. by specialize (Hl _ Hin). }
  assert (Hnone : ∀ l, Forall (λ c, pumped c = true) l → ∀ before after,
            l = before ++ CreateCoreWebView2Controller :: after → False).
  { intros l Hl before after ->. apply (Hpumped _ Hl), elem_of_app. right.
    apply list_elem_of_here. }
  destruct (accounted_pump (inbox (world s)) s) as (l1 & Hl1 & Hp1 & He1).
  unfold bootstrap.
  unfold mbind at 1 2. unfold M_bind at 1 2. unfold get at 1. cbn beta iota.
  destruct (pump (inbox (world s)) s) as [[[]|e|] s1]; cbn [fst snd] in *.
  2,3: exists l1; split; [done|]; intros before after Heq; by destruct (Hnone l1 Hp1 before after).
  unfold mbind at 1 2. unfold M_bind at 1 2. unfold get at 1. cbn beta iota.
  destruct (environment (edge s1)) as [env|] eqn:Hs1; cbn [deref throw mret M_ret].
  2:{ exists l1. split; [done|]. intros before after Heq. by destruct (Hnone l1 Hp1 before after). }
  destruct He1 as [He1|[He1|He1]]; [congruence|congruence|].
  match goal with |- context [(call CreateCoreWebView2Controller ≫= ?f) s1] =>
    destruct (call_first CreateCoreWebView2Controller f
                (λ c, c ≠ CreateCoreWebView2Controller) s1) as (tail & Htail & Hother)
  end.
  { intros hr.
    pose proof (pumped_pump (λ c, c ≠ CreateCoreWebView2Controller)
                  ltac:(by intros [])) as Hpump.
    logs_auto; done. }
  exists (l1 ++ CreateCoreWebView2Controller :: tail).
  split; [etrans; [exact Htail|by rewrite Hl1, <- app_assoc]|].
  intros before after Heq.
  assert (Htail' : CreateCoreWebView2Controller ∉ tail).
  { intros Hin. rewrite Forall_forall in Hother. by apply (Hother _ Hin). }
  destruct (split_at_only _ _ _ _ _ Heq (Hpumped _ Hp1) Htail') as [-> ->].
  by split; [|split; [apply Hpumped|]].
Qed.

End Ordering.

Lemma controller_requested_after_environment_witness :
  ∃ added,
    log (bootstrap false fresh).2 = log fresh ++ added ∧
    ∀ before after,
      added = before ++ CreateCoreWebView2Controller :: after →
      Exists environment_arrival before ∧
      (CreateCoreWebView2Controller ∉ before) ∧
      (CreateCoreWebView2Controller ∉ after).
Proof. apply (controller_requested_after_environment false fresh). reflexivity. Defined.

(** *** How the operations can end *)

Section Ends.
Context `{platform : Platform} (E : exception → Prop) (may_wait : bool).

Lemma ends_ret {A} (a : A) : ends E may_wait (mret a).
Proof. done. Qed.

Lemma ends_throw {A} e : E e → ends E may_wait (throw (A := A) e).
Proof. intros He s. exact He. Qed.

Lemma ends_wait {A} : may_wait = true → ends E may_wait (wait (A := A)).
Proof. intros Hw s. exact Hw. Qed.

Lemma ends_get : ends E may_wait get.
Proof. done. Qed.

Lemma ends_modify_edge f : ends E may_wait (modify_edge f).
Proof. done. Qed.

Lemma ends_modify_world f : ends E may_wait (modify_world f).
Proof. done. Qed.

Lemma ends_record c : ends E may_wait (record c).
Proof. done. Qed.

Lemma ends_bind {A B} (c : M A) (f : A → M B) :
  ends E may_wait c → (∀ a, ends E may_wait (f a)) → ends E may_wait (c ≫= f).
Proof.
  intros Hc Hf s. unfold mbind, M_bind. specialize (Hc s).
  destruct (c s) as [[a|e|] s1]; cbn [fst] in *; [apply Hf|done..].
Qed.

Lemma ends_call c : ends E may_wait (call c).
Proof. done. Qed.

Lemma ends_throwIfFailed hr : E (program_closed hr) → ends E may_wait (throwIfFailed hr).
Proof. intros He. unfold throwIfFailed. destruct (FAILED hr); [by apply ends_throw|done]. Qed.

Lemma ends_THROW_IF_FAILED hr : E (program_closed hr) → ends E may_wait (THROW_IF_FAILED hr).
Proof. intros He. unfold THROW_IF_FAILED. destruct (FAILED hr); [by apply ends_throw|done]. Qed.

Lemma ends_deref p : E null_dereference → ends E may_wait (deref p).
Proof. intros He. unfold deref. destruct p; [done|by apply ends_throw]. Qed.

End Ends.

Ltac ends_step :=
  first
    [ assumption
    | match goal with
      | H : ∀ _, ends _ _ (?f _) |- ends _ _ (?f _) => apply H
      | H : ∀ _ _, ends _ _ (?f _ _) |- ends _ _ (?f _ _) => apply H
      end
    | apply ends_bind; [|intros ?]
    | apply ends_ret | apply ends_get
    | apply ends_modify_edge | apply ends_modify_world | apply ends_record | apply ends_call
    | apply ends_throwIfFailed; exact I
    | apply ends_THROW_IF_FAILED; exact I
    | apply ends_deref; exact I
    | apply ends_throw; exact I
    | apply ends_wait; reflexivity
    | match goal with
      | |- ends _ _ (match ?x with _ => _ end) => destruct x
      | |- ends _ _ (if ?b then _ else _) => destruct b
      end ].

Ltac ends_auto := repeat ends_step.

Section HandlerEnds.
Context `{platform : Platform}.

(** What a dispatched message can end in: no handler waits, and none
    throws a [std::runtime_error] of the adapter's own. *)
Lemma ends_dispatch msg : ends not_a_message false (dispatch msg).
Proof.
  unfold dispatch, windowProcedure, webviewNavigationComplete, webviewMessageReceived,
    environment_completed, controller_completed, parse, at_key, get_uint64_t, get_std_string.
  ends_auto.
Qed.

Lemma ends_weaken {A} (E E' : exception → Prop) (w w' : bool) (c : M A) :
  (∀ e, E e → E' e) → (w = true → w' = true) → ends E w c → ends E' w' c.
Proof.
  intros HE Hw Hc s. specialize (Hc s). destruct (c s).1; [done|by apply HE|by apply Hw].
Qed.

Lemma ends_pump polls : ends not_a_message true (pump polls).
Proof.
  induction polls as [|poll rest IH]; simpl.
  - ends_auto.
  - pose proof (λ msg, ends_weaken _ not_a_message _ true _ (λ e H, H) (λ _, eq_refl)
                        (ends_dispatch msg)).
    ends_auto.
Qed.

Lemma ends_bootstrap debug_mode : ends not_a_message true (bootstrap debug_mode).
Proof. unfold bootstrap. pose proof ends_pump. ends_auto. Qed.

(** X19. The constructor throws a [std::runtime_error] of its own only
    for the reason the message gives: the window class could not be
    registered, the window could not be created, or the WebView2
    runtime is not installed.  No message dispatched while the
    constructor waits can produce such an exception. *)
Theorem constructor_messages_are_true
    (app_name title : string) (width height : Z) (resizeable debug_mode : bool)
    (what : string) (s : State) :
  (Edge_constructor app_name title width height resizeable debug_mode s).1
    = Thrown (runtime_error what) →
  (what = "Failed to register window class"%string ∧
   answer (log s ++ [CoInitializeEx; SetProcessDpiAwareness]) (RegisterClassEx "Above") = 0) ∨
  (what = "Failed to create window"%string ∧ created_window = None) ∨
  (what = "WebView2 Runtime is not installed"%string ∧ runtime_version = None).
Proof.
  intros Hthrown. unfold Edge_constructor, call, THROW_IF_FAILED in Hthrown.
  unfold mbind, M_bind, mret, M_ret, throw, get, modify_edge, modify_world, record in Hthrown.
  cbn -[bootstrap Z.lor] in Hthrown.
  repeat match type of Hthrown with
         | context [if FAILED ?hr then _ else _] =>
             destruct (FAILED hr); cbn -[bootstrap Z.lor] in Hthrown; try discriminate
         | context [if ?a =? 0 then _ else _] =>
             destruct (Z.eqb_spec a 0) as [Hatom|Hatom];
             cbn -[bootstrap Z.lor] in Hthrown; try discriminate
         | context [if APPDATA_set then _ else _] =>
             destruct APPDATA_set; cbn -[bootstrap Z.lor] in Hthrown; try discriminate
         | context [match created_window with _ => _ end] =>
             destruct created_window as [handle|] eqn:Hwindow;
             cbn -[bootstrap Z.lor] in Hthrown; try discriminate
         | context [match runtime_version with _ => _ end] =>
             destruct runtime_version as [version|] eqn:Hversion;
             cbn -[bootstrap Z.lor] in Hthrown; try discriminate
         end.
  all: try (injection Hthrown as <-).
  all: try (left; split; [reflexivity|]; rewrite <- app_assoc in Hatom; exact Hatom).
  all: try (right; left; split; reflexivity).
  all: try (right; right; split; reflexivity).
  all: match type of Hthrown with
       | (bootstrap _ ?sk).1 = _ => pose proof (ends_bootstrap debug_mode sk) as Hends
       end.
  all: by rewrite Hthrown in Hends.
Qed.

End HandlerEnds.

Lemma constructor_messages_are_true_witness :
  ("WebView2 Runtime is not installed"%string = "Failed to register window class"%string ∧
   @answer bare (log fresh ++ [CoInitializeEx; SetProcessDpiAwareness]) (RegisterClassEx "Above")
     = 0) ∨
  ("WebView2 Runtime is not installed"%string = "Failed to create window"%string ∧
   @created_window bare = None) ∨
  ("WebView2 Runtime is not installed"%string = "WebView2 Runtime is not installed"%string ∧
   @runtime_version bare = None).
Proof.
  apply (@constructor_messages_are_true bare "demo" "Demo" 800 600 true false
           "WebView2 Runtime is not installed" fresh).
  vm_compute. reflexivity.
Defined.

End EdgeProofs.

(* ===================================================================== *)
(** ** Proofs about the page and the adapter together *)
(* ===================================================================== *)

Module BridgeProofs.
Import Json Edge EdgeSpec BridgeSpec.

#[local] Existing Instance desktop.

Section Bridge.
Context `{platform : Platform}.

(** X16. A call of [invoke] that gets an index reaches the host's
    handler.  The page posts the object with that index, the name and
    the array of the arguments, and keeps a pending promise under the
    index.  When the engine delivers the text of that object and both
    JSON libraries read the object back from it, the message handler
    invokes the handler registered under the name exactly once, with
    the page's index and the serialized array of the arguments, then
    releases the buffer and returns [S_OK]. *)
Theorem invoke_reaches_callback
    (name : string) (args : list json) (p p' : Shim.Page) (i : N) (promise : nat)
    (text : string) (found : N * N) (s : State) :
  Shim.invoke name args p = (Some i, promise, p') →
  (i ≤ UINT64_MAX)%N →
  simdjson_iterate text = value (Shim.envelope (Some i) name args) →
  json_parse text = Some (Shim.envelope (Some i) name args) →
  callbacks (edge s) !! name = Some found →
  last (Shim.posted p') = Some (Shim.envelope (Some i) name args) ∧
  Shim.results (Shim.webview p') !! Some i
    = Some {| Shim.resolve := promise; Shim.reject := promise |} ∧
  Shim.promises p' !! promise = Some Shim.Pending ∧
  webviewMessageReceived (delivered text) s
    = (Returned S_OK,
       {| edge := edge s; world := world s;
          log := log s ++ [InvokeCallback found.1 i (json_dump (JArray args)); CoTaskMemFree] |}).
Proof.
  intros Hinvoke Hi Hsimd Hparse Hfound.
  unfold Shim.invoke in Hinvoke.
  destruct (Shim.allocate _) as [index a]. injection Hinvoke as -> <- <-.
  cbn [Shim.posted Shim.webview Shim.results Shim.promises].
  split; [by rewrite last_snoc|]. split; [by rewrite lookup_insert_eq|].
  split; [by rewrite lookup_app_r, Nat.sub_diag by lia|].
  unfold webviewMessageReceived, delivered, toString. cbn [TryGetWebMessageAsString].
  cbv [mbind mret M_bind M_ret throw get record throwIfFailed]. cbn [FAILED S_OK Z.ltb Z.compare].
  rewrite Hsimd. cbn [Shim.envelope app find_field member String.eqb Ascii.eqb Bool.eqb
                       get_uint64 get_string].
  destruct (N.leb_spec i UINT64_MAX) as [_|Hlt]; [|lia].
  unfold parse. rewrite Hparse.
  unfold Shim.envelope, mret, M_ret. cbn -[N.modulo N.pow].
  rewrite N.mod_small by (unfold UINT64_MAX in Hi; lia).
  rewrite Hfound. cbn [edge world log]. by rewrite <- app_assoc.
Qed.

(** X17. A call of [invoke] made when the pool is exhausted is lost.
    The page posts an object without an index ([JSON.stringify] drops
    the undefined member); the adapter's reader finds no [index] in its
    text, so the message handler returns [S_OK] without invoking a
    callback, whatever is registered, and without releasing the
    buffer.  The promise of the call stays pending. *)
Theorem exhausted_call_is_dropped
    (name : string) (args : list json) (p p' : Shim.Page) (promise : nat)
    (text : string) (s : State) :
  Shim.invoke name args p = (None, promise, p') →
  simdjson_iterate text = value (Shim.envelope None name args) →
  last (Shim.posted p') = Some (Shim.envelope None name args) ∧
  Shim.promises p' !! promise = Some Shim.Pending ∧
  webviewMessageReceived (delivered text) s = (Returned S_OK, s).
Proof.
  intros Hinvoke Hsimd.
  unfold Shim.invoke in Hinvoke.
  destruct (Shim.allocate _) as [index a]. injection Hinvoke as -> <- <-.
  cbn [Shim.posted Shim.promises].
  split; [by rewrite last_snoc|].
  split; [by rewrite lookup_app_r, Nat.sub_diag by lia|].
  unfold webviewMessageReceived, delivered, toString. cbn [TryGetWebMessageAsString].
  cbv [mbind mret M_bind M_ret throw get record throwIfFailed]. cbn [FAILED S_OK Z.ltb Z.compare].
  rewrite Hsimd. done.
Qed.

End Bridge.

Lemma invoke_reaches_callback_witness :
  let p' := (Shim.invoke "add" [JUnsigned 1; JUnsigned 2] seven_calls).2 in
  last (Shim.posted p') = Some (Shim.envelope (Some 7%N) "add" [JUnsigned 1; JUnsigned 2]) ∧
  Shim.results (Shim.webview p') !! Some 7%N = Some {| Shim.resolve := 7; Shim.reject := 7 |} ∧
  Shim.promises p' !! 7%nat = Some Shim.Pending ∧
  webviewMessageReceived (delivered add_message) bound
    = (Returned S_OK,
       {| edge := edge bound; world := world bound;
          log := log bound ++ [InvokeCallback 11 7 (json_dump (JArray [JUnsigned 1; JUnsigned 2]));
                               CoTaskMemFree] |}).
Proof.
  assert (Hindex : (Shim.invoke "add" [JUnsigned 1; JUnsigned 2] seven_calls).1
                   = (Some 7%N, 7%nat)) by (vm_compute; reflexivity).
  refine (invoke_reaches_callback "add" [JUnsigned 1; JUnsigned 2] seven_calls
            (Shim.invoke "add" [JUnsigned 1; JUnsigned 2] seven_calls).2 7 7
            add_message (11%N, 0%N) bound _ _ _ _ _).
  - rewrite <- Hindex. by destruct (Shim.invoke _ _ _) as [[? ?] ?].
  - vm_compute. discriminate.
  - vm_compute. reflexivity.
  - vm_compute. reflexivity.
  - vm_compute. reflexivity.
Defined.

Lemma exhausted_call_is_dropped_witness :
  let p' := (Shim.invoke "add" [JUnsigned 1; JUnsigned 2] drained).2 in
  last (Shim.posted p') = Some (Shim.envelope None "add" [JUnsigned 1; JUnsigned 2]) ∧
  Shim.promises p' !! 0%nat = Some Shim.Pending ∧
  webviewMessageReceived (delivered no_index_message) bound = (Returned S_OK, bound).
Proof.
  assert (Hindex : (Shim.invoke "add" [JUnsigned 1; JUnsigned 2] drained).1
                   = (None, 0%nat)) by (vm_compute; reflexivity).
  refine (exhausted_call_is_dropped "add" [JUnsigned 1; JUnsigned 2] drained
            (Shim.invoke "add" [JUnsigned 1; JUnsigned 2] drained).2 0
            no_index_message bound _ _).
  - rewrite <- Hindex. by destruct (Shim.invoke _ _ _) as [[? ?] ?].
  - vm_compute. reflexivity.
Defined.

End BridgeProofs.
